(** * SynthOCT baseline: derived-map estimators and the significance engine

    A shallow embedding of the numerical core of the SynthOCT baseline
    (Part3_Processor.py, Orchestrator.py and the two scripts under
    Metrics_evaluation/) together with the properties its specification
    states about them.

    Conventions.
    - A NumPy float array is a list of rows of real numbers; floating-point
      arithmetic is idealised as exact arithmetic over [R], with two
      exceptions where the outcome of the code depends on more than the
      exact value: the product that is cast to 8 bits carries its rounding
      as a parameter ([float_round]), and the division in [save_map]
      yields 1, 0 or NaN at a zero divisor as NumPy does.  The NaN marker
      that the scripts store on purpose ([np.nan]) is the constructor [NaN]
      of [score].
    - Python integers are [Z]; [range] and [min]/[max] are written out.
    - A Python exception is [None] in an [option] result. *)

From Stdlib Require Import Reals Lra Lia ZArith String List Bool Arith FinFun.
From Stdlib Require Import Permutation.
Import ListNotations.

Open Scope R_scope.

(* ================================================================== *)
(** * Part I: definitions *)
(* ================================================================== *)

(** ** Python and NumPy primitives *)

(** [range(start, stop)] *)
Definition py_range (start stop : Z) : list Z :=
  map (fun k => (start + Z.of_nat k)%Z) (seq 0 (Z.to_nat (stop - start))).

(** ** NumPy arrays *)

(** A 2-D float array: a list of rows.  [shape] is [(rows, columns)]; an
    array without rows is given width 0. *)
Definition image := list (list R).

Definition height (a : image) : nat := length a.

Definition width (a : image) : nat :=
  match a with
  | [] => 0%nat
  | r :: _ => length r
  end.

Definition shape (a : image) : nat * nat := (height a, width a).

(** Every row has the width of the array: what makes a list of rows an
    [ndarray]. *)
Definition rectangular (a : image) : Prop :=
  Forall (fun r => length r = width a) a.

(** [a[i, j]] *)
Definition get (a : image) (i j : nat) : R := nth j (nth i a []) 0.

Fixpoint map2 {A B C : Type} (f : A -> B -> C) (l1 : list A) (l2 : list B)
  : list C :=
  match l1, l2 with
  | x :: l1', y :: l2' => f x y :: map2 f l1' l2'
  | _, _ => []
  end.

(** Element-wise unary and binary operations on arrays of one shape. *)
Definition img_map (f : R -> R) (a : image) : image := map (map f) a.

Definition img_map2 (f : R -> R -> R) (a b : image) : image :=
  map2 (map2 f) a b.

(** [np.cumsum(a, axis=0)]: row [k] of the result is row [k-1] of the
    result plus row [k] of [a]. *)
Fixpoint cumsum_rows (acc : list R) (rows : image) : image :=
  match rows with
  | [] => []
  | r :: rest =>
      let acc' := map2 Rplus acc r in
      acc' :: cumsum_rows acc' rest
  end.

Definition np_cumsum_axis0 (a : image) : image :=
  match a with
  | [] => []
  | r :: rest => r :: cumsum_rows r rest
  end.

(** ** scipy.ndimage.uniform_filter and np.pad

    These two library routines are not part of the repository; they are
    written out here after their documented behaviour.  [uniform_filter]
    with [mode='reflect'] and [origin=0] runs a boxcar of [size] samples
    along axis 0 and then along axis 1; the window of output sample [i]
    covers the input positions [i - size/2 .. i - size/2 + size - 1] of the
    line extended by half-sample symmetric reflection
    (d c b a | a b c d | d c b a).  An axis whose size is not above 1 is
    left untouched. *)

(** The sample of a line of [n] samples that sits at position [k] of its
    reflected extension. *)
Definition reflect_index (n : nat) (k : Z) : nat :=
  let p := (2 * Z.of_nat n)%Z in
  let r := (k mod p)%Z in
  Z.to_nat (if (r <? Z.of_nat n)%Z then r else (p - 1 - r)%Z).

Definition Rsum (l : list R) : R := fold_right Rplus 0 l.

(** Mean of the window of output sample [i] over the line [line] of [n]
    samples. *)
Definition window_mean (size n : nat) (line : nat -> R) (i : nat) : R :=
  Rsum (map (fun t =>
               line (reflect_index n
                       (Z.of_nat i - Z.of_nat (size / 2) + Z.of_nat t)))
            (seq 0 size))
  / INR size.

Definition uniform_filter1d (size : nat) (l : list R) : list R :=
  map (window_mean size (length l) (fun k => nth k l 0)) (seq 0 (length l)).

Definition uniform_filter_axis0 (size : nat) (a : image) : image :=
  map (fun i =>
         map (fun j => window_mean size (height a) (fun k => get a k j) i)
             (seq 0 (width a)))
      (seq 0 (height a)).

Definition uniform_filter_axis1 (size : nat) (a : image) : image :=
  map (uniform_filter1d size) a.

Definition uniform_filter (a : image) (size : nat) : image :=
  if (size <=? 1)%nat then a
  else uniform_filter_axis1 size (uniform_filter_axis0 size a).

(** [l[border:-border]]; with [border = 0] the stop index [-0] is [0] and
    the slice is empty. *)
Definition slice_border {A : Type} (border : nat) (l : list A) : list A :=
  if (border =? 0)%nat then []
  else firstn (length l - 2 * border) (skipn border l).

(** [a[border:-border, border:-border]] *)
Definition crop (border : nat) (a : image) : image :=
  map (slice_border border) (slice_border border a).

(** One line padded by [b] copies of its first and of its last sample. *)
Definition pad_edge_line {A : Type} (b : nat) (d : A) (l : list A) : list A :=
  repeat (hd d l) b ++ l ++ repeat (last l d) b.

(** [np.pad(a, b, mode='edge')]: an empty axis cannot be extended by a
    non-zero width, NumPy raises [ValueError] there. *)
Definition np_pad_edge (a : image) (b : nat) : option image :=
  if (b =? 0)%nat then Some a
  else if ((height a =? 0) || (width a =? 0))%nat then None
  else Some (pad_edge_line b [] (map (pad_edge_line b 0) a)).

(** ** Part3_Processor.py *)

Definition HPX : R := 6.0.
Definition WINDOW_SIZE : nat := 20.

Definition calculate_oac (intensity : image) (h_px : R) : image :=
  let epsilon := 1e-10 in
  let I_rev := rev intensity in
  let cumsum_rev := np_cumsum_axis0 I_rev in
  let cumsum_from_bottom := rev cumsum_rev in
  let denom_term :=
    img_map2 Rminus cumsum_from_bottom (img_map (Rmult 0.5) intensity) in
  let mu :=
    img_map2 (fun x d => x / (2 * h_px * (d + epsilon)))
             intensity denom_term in
  mu.

(** The intermediate [denom_term] of [calculate_oac]. *)
Definition oac_denom_term (intensity : image) : image :=
  img_map2 Rminus (rev (np_cumsum_axis0 (rev intensity)))
           (img_map (Rmult 0.5) intensity).

(** Sum of column [j] over a block of rows, and the energy remaining at
    depth [i]: the intensities of rows [i], [i+1], ... of column [j]. *)
Definition col_sum (j : nat) (rows : image) : R :=
  fold_right Rplus 0 (map (fun r => nth j r 0) rows).

Definition remaining_energy (intensity : image) (i j : nat) : R :=
  col_sum j (skipn i intensity).

(** [var_val[var_val < 0] = 0] on one entry. *)
Definition clamp_negative (v : R) : R := if Rlt_dec v 0 then 0 else v.

(** The arrays [mean_val], [std_val] and [sc_map] that
    [calculate_speckle_contrast_map] builds before cropping. *)
Definition sc_mean_val (data : image) (window_size : nat) : image :=
  uniform_filter data window_size.

Definition sc_std_val (data : image) (window_size : nat) : image :=
  let mean_val := uniform_filter data window_size in
  let mean_sq_val :=
    uniform_filter (img_map (fun x => x ^ 2) data) window_size in
  let var_val :=
    img_map2 Rminus mean_sq_val (img_map (fun x => x ^ 2) mean_val) in
  let var_val := img_map clamp_negative var_val in
  img_map sqrt var_val.

Definition sc_map_full (data : image) (window_size : nat) : image :=
  img_map2 (fun s m => s / (m + 1e-10))
           (sc_std_val data window_size) (sc_mean_val data window_size).

Definition calculate_speckle_contrast_map (data : image) (window_size : nat)
  : option image :=
  let mean_val := uniform_filter data window_size in
  let mean_sq_val :=
    uniform_filter (img_map (fun x => x ^ 2) data) window_size in
  let var_val :=
    img_map2 Rminus mean_sq_val (img_map (fun x => x ^ 2) mean_val) in
  let var_val := img_map clamp_negative var_val in
  let std_val := img_map sqrt var_val in
  let sc_map := img_map2 (fun s m => s / (m + 1e-10)) std_val mean_val in
  let border := (window_size / 2)%nat in
  let sc_map_cropped := crop border sc_map in
  let sc_map_padded := np_pad_edge sc_map_cropped border in
  sc_map_padded.

(** [c * data] *)
Definition scale_image (c : R) (data : image) : image :=
  img_map (Rmult c) data.

(** Images used to exercise the speckle-contrast estimator. *)
Definition striped3 : image := [[1; 3; 1]; [1; 3; 1]; [1; 3; 1]].
Definition flat20 : image := repeat (repeat 1 20) 20.

(** Two small intensity images used to exercise the estimator. *)
Definition sample_intensity : image := [[1; 2]; [3; 4]].
Definition sample_intensity0 : image := [[1; 0]; [3; 4]].

(** ** NumPy statistics on a one-dimensional sample *)

Definition np_mean (v : list R) : R := Rsum v / INR (length v).

Definition np_min (v : list R) : R :=
  match v with
  | [] => 0
  | x :: t => fold_left Rmin t x
  end.

Definition np_max (v : list R) : R :=
  match v with
  | [] => 0
  | x :: t => fold_left Rmax t x
  end.

(** [np.std]: square root of the mean squared deviation from the mean. *)
Definition np_std (v : list R) : R :=
  sqrt (np_mean (map (fun x => (x - np_mean v) ^ 2) v)).

Fixpoint insert_sorted (x : R) (l : list R) : list R :=
  match l with
  | [] => [x]
  | y :: t => if Rle_dec x y then x :: l else y :: insert_sorted x t
  end.

Definition sort_values (v : list R) : list R :=
  fold_right insert_sorted [] v.

(** [np.percentile(v, q)] with the default linear interpolation, for
    [q = 100 * num / den]: the virtual index [(n - 1) * num / den] is split
    into its floor and its fractional part, and the result interpolates
    between the two neighbouring order statistics. *)
Definition np_percentile (v : list R) (num den : nat) : R :=
  let s := sort_values v in
  let n := length v in
  let k := ((n - 1) * num)%nat in
  let lo := (k / den)%nat in
  let hi := Nat.min (lo + 1) (n - 1) in
  let t := INR (k mod den) / INR den in
  nth lo s 0 + (nth hi s 0 - nth lo s 0) * t.

(** [np.percentile(v, 2.5)] and [np.percentile(v, 97.5)] *)
Definition percentile_2_5 (v : list R) : R := np_percentile v 1 40.
Definition percentile_97_5 (v : list R) : R := np_percentile v 39 40.

(** ** Metric_Performance_Test_v5_MicroMesoMacro_Empirical.py: pairing *)

Definition REFERENCE_SET : string := "Meso_Amp".
Definition NEIGHBOR_DEPTH : Z := 5.

(** The [if / elif / elif / else] chain at the head of the folder-pair loop
    of [run_analysis]; it yields [(c_type, tag)]. *)
Definition classify_pair (reference_set name_a name_b : string)
  : string * string :=
  if String.eqb name_a name_b then
    ("Intra", "Intra_" ++ name_a)%string
  else if String.eqb name_a reference_set then
    ("Inter", "Inter_" ++ name_b)%string
  else if String.eqb name_b reference_set then
    ("Inter", "Inter_" ++ name_a)%string
  else
    ("Cross", "Cross_" ++ name_a ++ "_vs_" ++ name_b)%string.

Definition c_type_of (reference_set name_a name_b : string) : string :=
  fst (classify_pair reference_set name_a name_b).

(** The [j_range] chosen for source index [i]; [len_a] and [len_b] are
    [len(files_a)] and [len(files_b)]. *)
Definition j_range (c_type : string) (neighbor_depth len_a len_b i : Z)
  : list Z :=
  if String.eqb c_type "Intra" then
    py_range (i + 1) (Z.min (i + 1 + neighbor_depth) len_a)
  else
    let j_start := Z.max 0 (i - neighbor_depth) in
    let j_end := Z.min len_b (i + neighbor_depth + 1) in
    py_range j_start j_end.

(** The indices [j] that reach [calc_pair_metrics]: the inner loop skips
    [i == j] unless the comparison is Intra. *)
Definition partners (c_type : string) (neighbor_depth len_a len_b i : Z)
  : list Z :=
  filter (fun j => negb (negb (String.eqb c_type "Intra") && (i =? j)%Z))
         (j_range c_type neighbor_depth len_a len_b i).

(** [check_interval_overlap] *)
Definition check_interval_overlap (low1 high1 low2 high2 : R) : bool :=
  if Rle_dec (Rmax low1 low2) (Rmin high1 high2) then true else false.

(** The bookkeeping of [run_analysis] for one (tag, metric) bucket.
    [baseline_entry] is [baseline_intervals.get(m, (nan, nan))]: [None]
    stands for the pair of NaN, returned when the baseline bucket is absent
    or empty. *)
Definition baseline_entry (base_vals : option (list R)) : option (R * R) :=
  match base_vals with
  | None => None
  | Some [] => None
  | Some vals => Some (percentile_2_5 vals, percentile_97_5 vals)
  end.

Definition diagnostic_power (tag base_tag : string)
           (baseline : option (R * R)) (vals : list R) : bool :=
  let low := percentile_2_5 vals in
  let high := percentile_97_5 vals in
  let is_overlap :=
    match baseline with
    | Some (base_low, base_high) =>
        if negb (String.eqb tag base_tag)
        then check_interval_overlap base_low base_high low high
        else true
    | None => true
    end in
  negb is_overlap.

(** ** Metrics_Plots_with_Intervals_and_SignificanceLevel.py *)

(** A cell of a metric column of a CSV table: a number or NaN. *)
Inductive score : Type :=
| Num (x : R)
| NaN.

Definition DataFrame := list (string * list score).

Fixpoint column (df : DataFrame) (metric : string) : option (list score) :=
  match df with
  | [] => None
  | (name, col) :: rest =>
      if String.eqb name metric then Some col else column rest metric
  end.

Definition dropna (col : list score) : list R :=
  flat_map (fun c => match c with Num x => [x] | NaN => [] end) col.

(** The labels of [star_label]: the empty string, then one, two and three
    stars in parentheses. *)
Inductive stars : Type :=
| NoStar
| OneStar
| TwoStars
| ThreeStars.

Definition Rleb (a b : R) : bool := if Rle_dec a b then true else false.
Definition Rgtb (a b : R) : bool := if Rgt_dec a b then true else false.

(** The "Determine Star Rating" block of [get_stats_and_rating]. *)
Definition star_rating (l1 h1 min1 max1 std1 l2 h2 min2 max2 std2 : R)
  : stars :=
  let overlap_95 := Rleb (Rmax l1 l2) (Rmin h1 h2) in
  if negb overlap_95 then
    let overlap_100 := Rleb (Rmax min1 min2) (Rmin max1 max2) in
    if negb overlap_100 then
      let gap := if Rgtb min1 max2 then min1 - max2 else min2 - max1 in
      if Rgtb gap (std1 + std2) then ThreeStars else TwoStars
    else OneStar
  else NoStar.

Record rating : Type := {
  intra : R * R * R;
  inter : R * R * R;
  rating_stars : stars
}.

Definition get_stats_and_rating (df_intra df_inter : DataFrame)
           (metric : string) : option rating :=
  match column df_intra metric, column df_inter metric with
  | Some c1, Some c2 =>
      let v1 := dropna c1 in
      let v2 := dropna c2 in
      if ((length v1 =? 0) || (length v2 =? 0))%nat then None
      else
        let mu1 := np_mean v1 in
        let l1 := percentile_2_5 v1 in
        let h1 := percentile_97_5 v1 in
        let mu2 := np_mean v2 in
        let l2 := percentile_2_5 v2 in
        let h2 := percentile_97_5 v2 in
        let min1 := np_min v1 in
        let max1 := np_max v1 in
        let std1 := np_std v1 in
        let min2 := np_min v2 in
        let max2 := np_max v2 in
        let std2 := np_std v2 in
        let star_label :=
          star_rating l1 h1 min1 max1 std1 l2 h2 min2 max2 std2 in
        Some {| intra := (mu1, mu1 - l1, h1 - mu1);
                inter := (mu2, mu2 - l2, h2 - mu2);
                rating_stars := star_label |}
  | _, _ => None
  end.

(** Small tables used to exercise the classifier. *)
Definition sample_df_intra : DataFrame := [("SSIM"%string, [Num 1; Num 2])].
Definition sample_df_inter : DataFrame :=
  [("SSIM"%string, [Num 5; NaN; Num 6])].

(** ** Similarity evaluation: calc_pair_metrics and calculate_all_metrics *)

(** [x.astype(np.uint8)] on a float: the fraction is dropped (truncation
    toward zero) and the integer is kept modulo 256. *)
Definition trunc (x : R) : Z :=
  if Rlt_dec x 0 then (- Int_part (- x))%Z else Int_part x.

Definition astype_uint8 (x : R) : Z := (trunc x mod 256)%Z.

(** [(img * 255).astype(np.uint8)].  The product is a floating-point
    product: [fl] is the rounding that NumPy applies to the exact product
    before the cast drops the fraction. *)
Definition quantize (fl : R -> R) (a : image) : list (list Z) :=
  map (map (fun x => astype_uint8 (fl (x * 255)))) a.

(** What the theorems on [quantize] need of the rounding: it keeps the
    order and leaves 0 and 255 alone.  Rounding to nearest in float32 and
    in float64 is such a rounding (0 and 255 are representable); so is
    exact arithmetic. *)
Definition rounding_ok (fl : R -> R) : Prop :=
  (forall x y, x <= y -> fl x <= fl y) /\ fl 0 = 0 /\ fl 255 = 255.

(** [z] is a value of [round(x)]: an integer nearest to [x], whichever way
    ties are broken. *)
Definition is_round (x : R) (z : Z) : Prop := Rabs (x - IZR z) <= 1 / 2.

(** A one-pixel image with value 0.999. *)
Definition bright_pixel : image := [[0.999]].

(** A Python dict from metric names to scores, in insertion order. *)
Definition dict := list (string * score).

Fixpoint dict_set (d : dict) (k : string) (v : score) : dict :=
  match d with
  | [] => [(k, v)]
  | (k', v') :: rest =>
      if String.eqb k' k then (k, v) :: rest
      else (k', v') :: dict_set rest k v
  end.

Fixpoint dict_get (d : dict) (k : string) : option score :=
  match d with
  | [] => None
  | (k', v') :: rest => if String.eqb k' k then Some v' else dict_get rest k
  end.

Definition keys (d : dict) : list string := map fst d.

(** What the two evaluators call from outside the repository: the file
    system, [io.imread] followed by [img_as_float], the scikit-image
    metrics, the optional sewar and LPIPS metrics with their availability
    flags ([ML_AVAILABLE] is the name of the LPIPS flag in the
    metric-performance script), [transform.resize], and the rounding of
    NumPy's floating-point product in [img * 255].  [None] stands for a
    raised exception. *)
Record Collaborators : Type := {
  float_round : R -> R;
  path_exists : string -> bool;
  imread : string -> option image;
  mse : image -> image -> option R;
  psnr : image -> image -> option R;
  ssim : image -> image -> option R;
  SEWAR_AVAILABLE : bool;
  vifp : list (list Z) -> list (list Z) -> option R;
  msssim : list (list Z) -> list (list Z) -> option R;
  LPIPS_AVAILABLE : bool;
  lpips : image -> image -> option R;
  resize : image -> nat * nat -> option image
}.

Definition shape_eqb (s1 s2 : nat * nat) : bool :=
  ((fst s1 =? fst s2) && (snd s1 =? snd s2))%nat.

(** [try: v = f(...)  except: v = np.nan] *)
Definition or_nan (r : option R) : score :=
  match r with
  | Some v => Num v
  | None => NaN
  end.

(** [calc_pair_metrics] of the metric-performance script.  The whole body
    sits in [try ... except: pass], so an exception returns [res] as filled
    so far. *)
Definition calc_pair_metrics (E : Collaborators) (p1 p2 : string) : dict :=
  let res : dict := [] in
  match imread E p1 with
  | None => res
  | Some i1 =>
  match imread E p2 with
  | None => res
  | Some i2 =>
  if negb (shape_eqb (shape i1) (shape i2)) then []
  else
  match mse E i1 i2 with
  | None => res
  | Some v_mse =>
  let res := dict_set res "MSE" (Num v_mse) in
  match psnr E i1 i2 with
  | None => res
  | Some v_psnr =>
  let res := dict_set res "PSNR" (Num v_psnr) in
  match ssim E i1 i2 with
  | None => res
  | Some v_ssim =>
  let res := dict_set res "SSIM" (Num v_ssim) in
  let res :=
    if SEWAR_AVAILABLE E then
      let u1 := quantize (float_round E) i1 in
      let u2 := quantize (float_round E) i2 in
      let res := dict_set res "VIF" (or_nan (vifp E u1 u2)) in
      dict_set res "MS-SSIM" (or_nan (msssim E u1 u2))
    else res in
  if LPIPS_AVAILABLE E then
    match lpips E i1 i2 with
    | Some v => dict_set res "LPIPS" (Num v)
    | None => res
    end
  else res
  end end end end end.

(** The scoring part of [calculate_all_metrics], after the images are
    loaded and brought to one shape. *)
Definition all_metrics_of (E : Collaborators) (img_ref img_tar : image)
  : option dict :=
  let results : dict := [] in
  match mse E img_ref img_tar with
  | None => None
  | Some v_mse =>
  let results := dict_set results "MSE" (Num v_mse) in
  match psnr E img_ref img_tar with
  | None => None
  | Some v_psnr =>
  let results := dict_set results "PSNR" (Num v_psnr) in
  match ssim E img_ref img_tar with
  | None => None
  | Some v_ssim =>
  let results := dict_set results "SSIM" (Num v_ssim) in
  let results :=
    if SEWAR_AVAILABLE E then
      let ref_u8 := quantize (float_round E) img_ref in
      let tar_u8 := quantize (float_round E) img_tar in
      let results := dict_set results "VIF" (or_nan (vifp E ref_u8 tar_u8)) in
      dict_set results "MS-SSIM" (or_nan (msssim E ref_u8 tar_u8))
    else
      let results := dict_set results "VIF" NaN in
      dict_set results "MS-SSIM" NaN in
  let results :=
    if LPIPS_AVAILABLE E then
      dict_set results "LPIPS" (or_nan (lpips E img_ref img_tar))
    else dict_set results "LPIPS" NaN in
  Some results
  end end end.

(** [calculate_all_metrics] of the orchestrator; [None] is its Python
    [None], returned when a file is missing or anything raises. *)
Definition calculate_all_metrics (E : Collaborators)
           (path_ref path_target : string) : option dict :=
  if negb (path_exists E path_ref) || negb (path_exists E path_target)
  then None
  else
  match imread E path_ref with
  | None => None
  | Some img_ref =>
  match imread E path_target with
  | None => None
  | Some img_tar =>
  let resized :=
    if negb (shape_eqb (shape img_ref) (shape img_tar))
    then resize E img_tar (shape img_ref)
    else Some img_tar in
  match resized with
  | None => None
  | Some img_tar => all_metrics_of E img_ref img_tar
  end end end.

(** A stand-in environment for exercising the evaluators: two readable
    files of different shapes (7 x 7 and 7 x 8).  The mean squared error
    and the peak signal-to-noise ratio are the formulas of scikit-image;
    the structural similarity raises on an image smaller than its 7 x 7
    window, as scikit-image does, and its value is a placeholder; the
    resize answers with an image of the requested shape; the optional
    libraries are absent; the rounding is exact. *)
Definition demo_ref : image := repeat [0; 1; 0; 1; 0; 1; 0] 7.
Definition demo_target : image := repeat [1; 1; 1; 1; 1; 1; 1; 1] 7.
Definition demo_other : image := repeat [1; 1; 1; 1; 0; 0; 0] 7.

Definition demo_mse (a b : image) : option R :=
  Some (np_mean (map2 (fun x y => (x - y) ^ 2) (concat a) (concat b))).

Definition demo_psnr (a b : image) : option R :=
  match demo_mse a b with
  | Some err => Some (10 * (ln (1 / err) / ln 10))
  | None => None
  end.

Definition demo_ssim (a b : image) : option R :=
  if ((7 <=? height a) && (7 <=? width a)
      && (7 <=? height b) && (7 <=? width b))%nat
  then Some 0 else None.

Definition demo_resize (a : image) (s : nat * nat) : option image :=
  Some (repeat (repeat (get a 0 0) (snd s)) (fst s)).

Definition demo_env : Collaborators := {|
  float_round := fun x => x;
  path_exists := fun _ => true;
  imread := fun p =>
    if String.eqb p "ref.png" then Some demo_ref
    else if String.eqb p "target.png" then Some demo_target
    else None;
  mse := demo_mse;
  psnr := demo_psnr;
  ssim := demo_ssim;
  SEWAR_AVAILABLE := false;
  vifp := fun _ _ => None;
  msssim := fun _ _ => None;
  LPIPS_AVAILABLE := false;
  lpips := fun _ _ => None;
  resize := demo_resize
|}.

(** ** Metric_Performance_Test_v5_MicroMesoMacro_Empirical.py: folder pairs *)

(** [list.remove(x)]: drops the first occurrence. *)
Fixpoint list_remove (x : string) (l : list string) : list string :=
  match l with
  | [] => []
  | y :: t => if String.eqb y x then t else y :: list_remove x t
  end.

(** Step 1 of [run_analysis] on the sorted folder listing: the reference
    set, when present, is moved to the front. *)
Definition order_folders (reference_set : string) (all_folders : list string)
  : list string :=
  if existsb (String.eqb reference_set) all_folders
  then reference_set :: list_remove reference_set all_folders
  else all_folders.

(** [itertools.combinations_with_replacement(l, 2)] *)
Fixpoint combinations_with_replacement2 {A : Type} (l : list A)
  : list (A * A) :=
  match l with
  | [] => []
  | x :: t => map (pair x) (x :: t) ++ combinations_with_replacement2 t
  end.

Definition folder_pairs (reference_set : string) (all_folders : list string)
  : list (string * string) :=
  combinations_with_replacement2 (order_folders reference_set all_folders).

(** ** Part3_Processor.py: loading, saving and the map pipeline *)

(** [load_and_linearize_image] after the file is read into a 2-D grey
    array:
    values above 1 mean an 8-bit scale, and the 0..1 value is mapped to a
    linear intensity over 40 dB.  The maximum of an empty array raises. *)
Definition linearize (img : image) : option image :=
  match concat img with
  | [] => None
  | _ =>
      let img :=
        if Rgtb (np_max (concat img)) 1.0
        then img_map (fun x => x / 255.0) img
        else img in
      let intensity := img_map (fun x => Rpower 10.0 (x * 4.0)) img in
      Some intensity
  end.

(** [np.clip(x, lo, hi)] *)
Definition np_clip (lo hi x : R) : R := Rmin hi (Rmax lo x).

(** A float array that may hold NaN, and its entry at row [i], column
    [j]. *)
Definition score_image := list (list score).

Definition get_score (a : score_image) (i j : nat) : score :=
  nth j (nth i a []) NaN.

(** One entry of [np.clip((data - vmin) / den, 0, 1)].  Dividing an array
    by zero raises nothing: a positive numerator gives [inf], which is
    clipped to 1, a negative one gives [-inf], which is clipped to 0, and
    a zero numerator gives NaN, which [np.clip] leaves in place. *)
Definition norm_entry (vmin den x : R) : score :=
  if Req_EM_T den 0 then
    if Rgtb (x - vmin) 0 then Num 1
    else if Rgtb 0 (x - vmin) then Num 0
    else NaN
  else Num (np_clip 0 1 ((x - vmin) / den)).

(** The array [norm_data] that [save_map] hands to the image writer; a
    limit left at [None] is taken from the data, which raises on an empty
    array. *)
Definition save_map_norm_data (data : image) (vmin vmax : option R)
  : option score_image :=
  let limit (f : list R -> R) (v : option R) : option R :=
    match v with
    | Some x => Some x
    | None => match concat data with [] => None | _ => Some (f (concat data)) end
    end in
  match limit np_min vmin with
  | None => None
  | Some vmin =>
  match limit np_max vmax with
  | None => None
  | Some vmax =>
      Some (map (map (norm_entry vmin (vmax - vmin + 1e-10))) data)
  end end.

(** An array and limits at which the divisor of [save_map] is zero. *)
Definition zero_span_data : image := [[1e-10; 1; 0]].
Definition zero_span_vmin : R := 1e-10.
Definition zero_span_vmax : R := 0.

(** The three arrays computed by [generate_maps] from the linear
    intensity: [mu_map], [sc_map] and [rsc_map]. *)
Definition generate_maps_arrays (intensity : image)
  : option (image * image * image) :=
  let mu_map := calculate_oac intensity HPX in
  match calculate_speckle_contrast_map intensity WINDOW_SIZE with
  | None => None
  | Some sc_map =>
  match calculate_speckle_contrast_map mu_map WINDOW_SIZE with
  | None => None
  | Some rsc_map => Some (mu_map, sc_map, rsc_map)
  end end.

(** Images used to exercise the loader and the pipeline. *)
Definition scan_sample : image := [[0; 128]; [255; 64]].
Definition flat21 : image := repeat (repeat 1 21) 21.

(** [generate_maps] from the pixel array of the scan to the three arrays. *)
Definition generate_maps_from_scan (img : image)
  : option (image * image * image) :=
  match linearize img with
  | None => None
  | Some intensity => generate_maps_arrays intensity
  end.

(** A stand-in environment in which every collaborator is available and
    succeeds, on two readable 7 x 7 files; the values of the optional
    metrics are placeholders. *)
Definition demo_env_full : Collaborators := {|
  float_round := fun x => x;
  path_exists := fun _ => true;
  imread := fun p =>
    if String.eqb p "a.png" then Some demo_ref
    else if String.eqb p "b.png" then Some demo_other
    else None;
  mse := demo_mse;
  psnr := demo_psnr;
  ssim := demo_ssim;
  SEWAR_AVAILABLE := true;
  vifp := fun _ _ => Some 0;
  msssim := fun _ _ => None;
  LPIPS_AVAILABLE := true;
  lpips := fun _ _ => Some 0;
  resize := demo_resize
|}.

(** ** Metric_Performance_Test_v5_MicroMesoMacro_Empirical.py: aggregation *)

(** One pass of the inner loop body of [run_analysis] for the index pair
    [(i, j)]: the result dict is kept when it is not empty.  [None] stands
    for an [IndexError] on [files_a[i]] or [files_b[j]]. *)
Definition score_pair (E : Collaborators) (files_a files_b : list string)
           (i j : Z) : option (list dict) :=
  match nth_error files_a (Z.to_nat i), nth_error files_b (Z.to_nat j) with
  | Some pa, Some pb =>
      let res := calc_pair_metrics E pa pb in
      Some (match res with [] => [] | _ => [res] end)
  | _, _ => None
  end.

(** A [for] loop that gathers rows and stops at the first exception. *)
Fixpoint collect {A B : Type} (f : A -> option (list B)) (l : list A)
  : option (list B) :=
  match l with
  | [] => Some []
  | x :: t =>
      match f x with
      | None => None
      | Some r =>
          match collect f t with
          | None => None
          | Some rs => Some (r ++ rs)
          end
      end
  end.

(** The non-empty results of the two nested loops, in loop order: one per
    row of the raw CSV. *)
Definition pair_results (E : Collaborators) (c_type : string)
           (neighbor_depth : Z) (files_a files_b : list string)
  : option (list dict) :=
  let len_a := Z.of_nat (length files_a) in
  let len_b := Z.of_nat (length files_b) in
  collect (fun i =>
             collect (score_pair E files_a files_b i)
                     (partners c_type neighbor_depth len_a len_b i))
          (py_range 0 len_a).

(** [distributions[tag][m]] after the loops: every kept result appends its
    value for [m], when it has one. *)
Definition bucket (m : string) (results : list dict) : list score :=
  flat_map (fun res => match dict_get res m with
                       | Some v => [v]
                       | None => []
                       end) results.

(** ** Part1_Generator.py *)

(** The fields of [ExperimentConfig] that the generator reads, with the
    values [__init__] gives them. *)
Record ExperimentConfig : Type := {
  N_depth : Z;
  N_lateral : Z;
  pixel_size_z : R;
  pixel_size_x : R;
  beam_diameter : R;
  beam_radius : R;
  z_max : R;
  x_max : R;
  scatterers_count : Z
}.

Definition ExperimentConfig_init : ExperimentConfig := {|
  N_depth := 256;
  N_lateral := 512;
  pixel_size_z := 6.0;
  pixel_size_x := 6.0;
  beam_diameter := 20.0;
  beam_radius := 20.0 / 2.0;
  z_max := IZR 256 * 6.0;
  x_max := IZR 512 * 6.0;
  scatterers_count := 300000
|}.

(** The state of NumPy's global generator, as the sequence of numbers that
    [np.random.rand] will return next. *)
Definition rng := nat -> R.

(** [np.random.rand(count)]: the next [count] numbers and the state left. *)
Definition rand (st : rng) (count : nat) : list R * rng :=
  (map st (seq 0 count), fun k => st (count + k)%nat).

(** A scatterer record: a row [(x, y, z, amplitude)] of the array. *)
Definition scatterer : Type := R * R * R * R.

Fixpoint column_stack (xs ys zs amps : list R) : list scatterer :=
  match xs, ys, zs, amps with
  | x :: xs', y :: ys', z :: zs', a :: amps' =>
      (x, y, z, a) :: column_stack xs' ys' zs' amps'
  | _, _, _, _ => []
  end.

(** [ScattererGenerator.generate_uniform]; [np_random_seed] is the state
    that [np.random.seed(seed)] installs. *)
Definition generate_uniform (np_random_seed : Z -> rng)
           (cfg : ExperimentConfig) (seed : option Z) (amp : R) (st : rng)
  : list scatterer * rng :=
  let st := match seed with Some s => np_random_seed s | None => st end in
  let count := Z.to_nat (scatterers_count cfg) in
  let (u1, st) := rand st count in
  let xs := map (fun u => (u - 0.5) * x_max cfg) u1 in
  let (u2, st) := rand st count in
  let ys := map (fun u => (u - 0.5) * (2 * beam_radius cfg)) u2 in
  let (u3, st) := rand st count in
  let zs := map (fun u => u * z_max cfg) u3 in
  let amps := map (fun one => one * amp) (repeat 1 count) in
  (column_stack xs ys zs amps, st).

(** [ScattererGenerator.generate_two_layers] *)
Definition generate_two_layers (np_random_seed : Z -> rng)
           (cfg : ExperimentConfig) (seed : option Z)
           (boundary_z_mcm amp_top amp_bottom : R) (st : rng)
  : list scatterer * rng :=
  let st := match seed with Some s => np_random_seed s | None => st end in
  let (data, st) := generate_uniform np_random_seed cfg seed amp_top st in
  let data :=
    map (fun row : scatterer =>
           match row with
           | (x, y, z, a) =>
               if Rgtb z boundary_z_mcm then (x, y, z, amp_bottom)
               else (x, y, z, a)
           end) data in
  (data, st).

Definition position (row : scatterer) : R * R * R :=
  match row with (x, y, z, _) => (x, y, z) end.

Definition amplitude (row : scatterer) : R :=
  match row with (_, _, _, a) => a end.

(** A stand-in seeding function and a small configuration used to
    exercise the generator. *)
Definition demo_seed (s : Z) : rng :=
  fun k => IZR ((s + Z.of_nat k) mod 10) / 10.

Definition demo_config : ExperimentConfig := {|
  N_depth := 256;
  N_lateral := 512;
  pixel_size_z := 6.0;
  pixel_size_x := 6.0;
  beam_diameter := 20.0;
  beam_radius := 20.0 / 2.0;
  z_max := IZR 256 * 6.0;
  x_max := IZR 512 * 6.0;
  scatterers_count := 3
|}.

(* ================================================================== *)
(** * Part II: properties *)
(* ================================================================== *)

(** ** Pairing policy *)

Lemma In_py_range (a b j : Z) :
  In j (py_range a b) <-> (a <= j < b)%Z.
Proof.
  unfold py_range. rewrite in_map_iff. split.
  - intros [k [<- Hk]]. apply in_seq in Hk. lia.
  - intros Hj. exists (Z.to_nat (j - a)). split; [lia|].
    apply in_seq. lia.
Qed.

Lemma NoDup_py_range (a b : Z) : NoDup (py_range a b).
Proof.
  unfold py_range. apply Injective_map_NoDup.
  - intros x y Hxy. lia.
  - apply seq_NoDup.
Qed.

Lemma partners_Intra (d len_a len_b i : Z) :
  partners "Intra" d len_a len_b i
  = py_range (i + 1) (Z.min (i + 1 + d) len_a).
Proof.
  unfold partners, j_range. simpl.
  apply forallb_filter_id. apply forallb_forall. reflexivity.
Qed.

(** C3. Under the Intra tag, source index [i] of a sequence of length [N] is
    paired with exactly the indices [i+1 .. min(i+d, N-1)], each once; with
    [d = 5] and [N = 10], index 0 gets the partners 1 to 5 and index 8 gets
    the single partner 9. *)
Theorem intra_pairing_band :
  (forall d N M i j,
      In j (partners "Intra" d N M i)
      <-> (i + 1 <= j <= Z.min (i + d) (N - 1))%Z)
  /\ (forall d N M i, NoDup (partners "Intra" d N M i))
  /\ partners "Intra" NEIGHBOR_DEPTH 10 10 0 = [1; 2; 3; 4; 5]%Z
  /\ partners "Intra" NEIGHBOR_DEPTH 10 10 8 = [9]%Z.
Proof.
  split; [|split; [|split]].
  - intros d N M i j. rewrite partners_Intra, In_py_range. lia.
  - intros d N M i. rewrite partners_Intra. apply NoDup_py_range.
  - reflexivity.
  - reflexivity.
Qed.

(** ** Comparison tags *)

(** C4. Every folder pair gets one tag: Intra when the names are equal,
    otherwise Inter when either name is the reference set, otherwise
    Cross. *)
Theorem comparison_tag_rule (reference_set name_a name_b : string) :
  c_type_of reference_set name_a name_b =
    (if string_dec name_a name_b then "Intra"
     else if string_dec name_a reference_set then "Inter"
     else if string_dec name_b reference_set then "Inter"
     else "Cross")%string
  /\ (name_a = name_b ->
      c_type_of reference_set name_a name_b = "Intra"%string)
  /\ (name_a <> name_b ->
      name_a = reference_set \/ name_b = reference_set ->
      c_type_of reference_set name_a name_b = "Inter"%string)
  /\ (name_a <> name_b ->
      name_a <> reference_set -> name_b <> reference_set ->
      c_type_of reference_set name_a name_b = "Cross"%string).
Proof.
  unfold c_type_of, classify_pair.
  destruct (String.eqb_spec name_a name_b) as [Hab|Hab];
    destruct (String.eqb_spec name_a reference_set) as [Har|Har];
    destruct (String.eqb_spec name_b reference_set) as [Hbr|Hbr];
    destruct (string_dec name_a name_b);
    destruct (string_dec name_a reference_set);
    destruct (string_dec name_b reference_set);
    simpl; repeat split; intros; try reflexivity; try congruence;
    try tauto.
Qed.

(** ** Arrays: shapes and element access *)

Lemma map2_length {A B C : Type} (f : A -> B -> C) l1 l2 :
  length (map2 f l1 l2) = Nat.min (length l1) (length l2).
Proof.
  revert l2. induction l1 as [|x l1 IH]; intros [|y l2]; simpl; auto.
Qed.

Lemma nth_map2 {A B C : Type} (f : A -> B -> C) l1 l2 k d d1 d2 :
  (k < length l1)%nat -> (k < length l2)%nat ->
  nth k (map2 f l1 l2) d = f (nth k l1 d1) (nth k l2 d2).
Proof.
  revert l2 k. induction l1 as [|x l1 IH]; intros [|y l2] [|k] H1 H2;
    simpl in *; try lia; auto.
  apply IH; lia.
Qed.

Lemma rectangular_row (a : image) (i : nat) :
  rectangular a -> (i < height a)%nat -> length (nth i a []) = width a.
Proof.
  unfold rectangular, height. intros Hr Hi.
  rewrite Forall_forall in Hr. apply Hr. apply nth_In. exact Hi.
Qed.

Lemma rows_of_width (a : image) (w : nat) :
  Forall (fun r => length r = w) a -> a <> [] -> width a = w.
Proof.
  destruct a as [|r a]; [congruence|].
  intros H _. inversion H; subst. reflexivity.
Qed.

Lemma rectangular_of_rows (a : image) (w : nat) :
  Forall (fun r => length r = w) a -> rectangular a.
Proof.
  intros H. destruct a as [|r a]; [constructor|].
  unfold rectangular. rewrite (rows_of_width (r :: a) w H) by discriminate.
  exact H.
Qed.

Lemma rectangular_rows (a : image) :
  rectangular a -> Forall (fun r => length r = width a) a.
Proof. auto. Qed.

(** ** Column sums and the cumulative sum along the rows *)

Lemma col_sum_app (j : nat) (r1 r2 : image) :
  col_sum j (r1 ++ r2) = col_sum j r1 + col_sum j r2.
Proof.
  unfold col_sum. induction r1 as [|r r1 IH]; simpl; [lra|].
  rewrite IH. lra.
Qed.

Lemma col_sum_rev (j : nat) (rows : image) :
  col_sum j (rev rows) = col_sum j rows.
Proof.
  induction rows as [|r rows IH]; simpl; [reflexivity|].
  rewrite col_sum_app, IH. unfold col_sum. simpl. lra.
Qed.

Lemma cumsum_rows_length (acc : list R) (rows : image) :
  length (cumsum_rows acc rows) = length rows.
Proof.
  revert acc. induction rows as [|r rows IH]; intros acc; simpl; auto.
Qed.

Lemma cumsum_rows_width (w : nat) (acc : list R) (rows : image) :
  length acc = w -> Forall (fun r => length r = w) rows ->
  Forall (fun r => length r = w) (cumsum_rows acc rows).
Proof.
  revert acc. induction rows as [|r rows IH]; intros acc Ha Hr; simpl.
  - constructor.
  - inversion Hr as [|? ? Hr1 Hr2].
    assert (Hl : length (map2 Rplus acc r) = w).
    { rewrite map2_length. lia. }
    constructor; [exact Hl|]. apply IH; [exact Hl|exact Hr2].
Qed.

Lemma cumsum_rows_nth (w : nat) (acc : list R) (rows : image) (k j : nat) :
  length acc = w -> Forall (fun r => length r = w) rows ->
  (k < length rows)%nat -> (j < w)%nat ->
  nth j (nth k (cumsum_rows acc rows) []) 0
  = nth j acc 0 + col_sum j (firstn (S k) rows).
Proof.
  revert acc k. induction rows as [|r rows IH]; intros acc k Ha Hr Hk Hj.
  - simpl in Hk. lia.
  - inversion Hr as [|? ? Hr1 Hr2].
    assert (Hl : length (map2 Rplus acc r) = w).
    { rewrite map2_length. lia. }
    assert (Hn : nth j (map2 Rplus acc r) 0 = nth j acc 0 + nth j r 0).
    { apply nth_map2; lia. }
    destruct k as [|k].
    + simpl. unfold col_sum. simpl. rewrite Hn. lra.
    + change (cumsum_rows acc (r :: rows))
        with (map2 Rplus acc r :: cumsum_rows (map2 Rplus acc r) rows).
      change (nth (S k) (map2 Rplus acc r
                         :: cumsum_rows (map2 Rplus acc r) rows) [])
        with (nth k (cumsum_rows (map2 Rplus acc r) rows) []).
      rewrite (IH (map2 Rplus acc r) k Hl Hr2) by (simpl in Hk; lia).
      rewrite Hn.
      change (firstn (S (S k)) (r :: rows)) with (r :: firstn (S k) rows).
      unfold col_sum. simpl. lra.
Qed.

Lemma np_cumsum_axis0_length (a : image) :
  length (np_cumsum_axis0 a) = length a.
Proof.
  destruct a as [|r a]; simpl; [reflexivity|].
  now rewrite cumsum_rows_length.
Qed.

Lemma np_cumsum_axis0_width (w : nat) (a : image) :
  Forall (fun r => length r = w) a ->
  Forall (fun r => length r = w) (np_cumsum_axis0 a).
Proof.
  destruct a as [|r a]; simpl; intros H; [constructor|].
  inversion H; subst. constructor; [reflexivity|].
  now apply cumsum_rows_width.
Qed.

Lemma np_cumsum_axis0_get (w : nat) (a : image) (k j : nat) :
  Forall (fun r => length r = w) a ->
  (k < length a)%nat -> (j < w)%nat ->
  get (np_cumsum_axis0 a) k j = col_sum j (firstn (S k) a).
Proof.
  unfold get. destruct a as [|r a]; simpl; intros H Hk Hj; [lia|].
  inversion H as [|? ? H1 H2]; subst.
  destruct k as [|k].
  - unfold col_sum. simpl. lra.
  - rewrite (cumsum_rows_nth (length r) r a k j eq_refl H2) by lia.
    unfold col_sum. simpl. lra.
Qed.

(** Reversing, accumulating and reversing back leaves at depth [i] the sum
    of the rows from [i] to the bottom. *)
Lemma cumsum_from_bottom_get (w : nat) (a : image) (i j : nat) :
  Forall (fun r => length r = w) a ->
  (i < length a)%nat -> (j < w)%nat ->
  get (rev (np_cumsum_axis0 (rev a))) i j = remaining_energy a i j.
Proof.
  intros H Hi Hj. unfold get, remaining_energy.
  rewrite rev_nth by (rewrite np_cumsum_axis0_length, length_rev; exact Hi).
  rewrite np_cumsum_axis0_length, length_rev.
  assert (Hrev : Forall (fun r => length r = w) (rev a)).
  { apply Forall_rev. exact H. }
  pose proof (np_cumsum_axis0_get w (rev a) (length a - S i) j Hrev) as E.
  unfold get in E. rewrite E by (rewrite ?length_rev; lia).
  replace (S (length a - S i)) with (length a - i)%nat by lia.
  rewrite firstn_rev.
  replace (length a - (length a - i))%nat with i by lia.
  apply col_sum_rev.
Qed.

Lemma get_img_map (f : R -> R) (a : image) (i j : nat) :
  (i < length a)%nat -> (j < length (nth i a []))%nat ->
  get (img_map f a) i j = f (get a i j).
Proof.
  intros Hi Hj. unfold get, img_map.
  change (@nil R) with (map f []) at 1. rewrite map_nth.
  rewrite (nth_indep _ 0 (f 0)) by (rewrite length_map; exact Hj).
  apply map_nth.
Qed.

Lemma get_img_map2 (f : R -> R -> R) (a b : image) (i j : nat) :
  (i < length a)%nat -> (i < length b)%nat ->
  (j < length (nth i a []))%nat -> (j < length (nth i b []))%nat ->
  get (img_map2 f a b) i j = f (get a i j) (get b i j).
Proof.
  intros Hia Hib Hja Hjb. unfold get, img_map2.
  rewrite (nth_map2 (map2 f) a b i [] [] []) by assumption.
  apply nth_map2; assumption.
Qed.

Lemma img_map_rows (w : nat) (f : R -> R) (a : image) :
  Forall (fun r => length r = w) a ->
  Forall (fun r => length r = w) (img_map f a).
Proof.
  unfold img_map. intros H. apply Forall_map.
  eapply Forall_impl; [|exact H]. intros r Hr. simpl.
  now rewrite length_map.
Qed.

Lemma img_map2_rows (w : nat) (f : R -> R -> R) (a b : image) :
  Forall (fun r => length r = w) a -> Forall (fun r => length r = w) b ->
  Forall (fun r => length r = w) (img_map2 f a b).
Proof.
  unfold img_map2. revert b.
  induction a as [|r a IH]; intros [|s b] Ha Hb; simpl; try constructor.
  - inversion Ha; inversion Hb; subst. rewrite map2_length. lia.
  - inversion Ha; inversion Hb; subst. now apply IH.
Qed.

Lemma rows_nth (w : nat) (a : image) (i : nat) :
  Forall (fun r => length r = w) a -> (i < length a)%nat ->
  length (nth i a []) = w.
Proof.
  intros H Hi. rewrite Forall_forall in H. apply H. now apply nth_In.
Qed.

Lemma shape_of_rows (a b : image) (w : nat) :
  length a = length b ->
  Forall (fun r => length r = w) a -> Forall (fun r => length r = w) b ->
  shape a = shape b.
Proof.
  intros Hl Ha Hb. unfold shape, height. rewrite Hl. f_equal.
  destruct a as [|r a], b as [|s b]; simpl in *; try discriminate; auto.
  inversion Ha; inversion Hb; congruence.
Qed.

Lemma Forall2d_of_get (P : R -> Prop) (a : image) :
  (forall i j, (i < length a)%nat -> (j < length (nth i a []))%nat ->
               P (get a i j)) ->
  Forall (Forall P) a.
Proof.
  intros H. apply Forall_nth. intros i d Hi.
  rewrite (nth_indep _ d []) by exact Hi.
  apply Forall_nth. intros j e Hj.
  rewrite (nth_indep _ e 0) by exact Hj.
  apply H; assumption.
Qed.

Lemma get_of_Forall2d (P : R -> Prop) (a : image) (i j : nat) :
  Forall (Forall P) a ->
  (i < length a)%nat -> (j < length (nth i a []))%nat -> P (get a i j).
Proof.
  intros H Hi Hj. unfold get.
  rewrite Forall_forall in H.
  specialize (H (nth i a []) (nth_In _ _ Hi)).
  rewrite Forall_forall in H. apply H. now apply nth_In.
Qed.

(** ** The attenuation-coefficient estimator *)

Lemma cumsum_from_bottom_rows (w : nat) (a : image) :
  Forall (fun r => length r = w) a ->
  Forall (fun r => length r = w) (rev (np_cumsum_axis0 (rev a))).
Proof.
  intros H. apply Forall_rev. apply np_cumsum_axis0_width.
  now apply Forall_rev.
Qed.

Lemma cumsum_from_bottom_length (a : image) :
  length (rev (np_cumsum_axis0 (rev a))) = length a.
Proof. now rewrite length_rev, np_cumsum_axis0_length, length_rev. Qed.

Lemma oac_denom_term_rows (w : nat) (a : image) :
  Forall (fun r => length r = w) a ->
  Forall (fun r => length r = w) (oac_denom_term a).
Proof.
  intros H. unfold oac_denom_term. apply img_map2_rows.
  - now apply cumsum_from_bottom_rows.
  - now apply img_map_rows.
Qed.

Lemma oac_denom_term_length (a : image) :
  length (oac_denom_term a) = length a.
Proof.
  unfold oac_denom_term, img_map2, img_map.
  rewrite map2_length, cumsum_from_bottom_length, length_map. lia.
Qed.

Lemma oac_denom_term_get (w : nat) (a : image) (i j : nat) :
  Forall (fun r => length r = w) a ->
  (i < length a)%nat -> (j < w)%nat ->
  get (oac_denom_term a) i j = remaining_energy a i j - 0.5 * get a i j.
Proof.
  intros H Hi Hj. unfold oac_denom_term.
  rewrite get_img_map2.
  - rewrite (cumsum_from_bottom_get w) by assumption.
    rewrite get_img_map; [reflexivity|exact Hi|].
    now rewrite (rows_nth w).
  - now rewrite cumsum_from_bottom_length.
  - unfold img_map. now rewrite length_map.
  - rewrite (rows_nth w); [exact Hj|now apply cumsum_from_bottom_rows|].
    now rewrite cumsum_from_bottom_length.
  - rewrite (rows_nth w); [exact Hj|now apply img_map_rows|].
    unfold img_map. now rewrite length_map.
Qed.

Lemma calculate_oac_unfold (a : image) (h_px : R) :
  calculate_oac a h_px
  = img_map2 (fun x d => x / (2 * h_px * (d + 1e-10))) a (oac_denom_term a).
Proof. reflexivity. Qed.

Lemma calculate_oac_length (a : image) (h_px : R) :
  length (calculate_oac a h_px) = length a.
Proof.
  rewrite calculate_oac_unfold. unfold img_map2.
  rewrite map2_length, oac_denom_term_length. lia.
Qed.

Lemma calculate_oac_rows (w : nat) (a : image) (h_px : R) :
  Forall (fun r => length r = w) a ->
  Forall (fun r => length r = w) (calculate_oac a h_px).
Proof.
  intros H. rewrite calculate_oac_unfold. apply img_map2_rows.
  - exact H.
  - now apply oac_denom_term_rows.
Qed.

Lemma calculate_oac_get (w : nat) (a : image) (h_px : R) (i j : nat) :
  Forall (fun r => length r = w) a ->
  (i < length a)%nat -> (j < w)%nat ->
  get (calculate_oac a h_px) i j
  = get a i j / (2 * h_px * (get (oac_denom_term a) i j + 1e-10)).
Proof.
  intros H Hi Hj. rewrite calculate_oac_unfold.
  apply get_img_map2.
  - exact Hi.
  - now rewrite oac_denom_term_length.
  - now rewrite (rows_nth w).
  - rewrite (rows_nth w); [exact Hj|now apply oac_denom_term_rows|].
    now rewrite oac_denom_term_length.
Qed.

(** C1. For a 2-D intensity image and a positive depth pixel size, the
    estimator returns a map of the same shape whose value at every pixel is
    [intensity / (2 * h * (D + 1e-10))], where [D] is the sum of the
    intensities of that row and of all deeper rows of the same column, minus
    half the local intensity. *)
Theorem calculate_oac_closed_form (intensity : image) (h_px : R) :
  rectangular intensity -> 0 < h_px ->
  shape (calculate_oac intensity h_px) = shape intensity
  /\ rectangular (calculate_oac intensity h_px)
  /\ forall i j, (i < height intensity)%nat -> (j < width intensity)%nat ->
       get (calculate_oac intensity h_px) i j
       = get intensity i j
         / (2 * h_px * ((remaining_energy intensity i j
                         - get intensity i j / 2) + 1e-10)).
Proof.
  intros Hrect Hh.
  pose proof (calculate_oac_rows _ intensity h_px Hrect) as Hrows.
  split; [|split].
  - apply (shape_of_rows _ _ (width intensity)); auto.
    apply calculate_oac_length.
  - eapply rectangular_of_rows; exact Hrows.
  - intros i j Hi Hj.
    rewrite (calculate_oac_get (width intensity)) by assumption.
    rewrite (oac_denom_term_get (width intensity)) by assumption.
    f_equal. f_equal. f_equal. lra.
Qed.

Lemma calculate_oac_closed_form_witness :
  shape (calculate_oac sample_intensity HPX) = shape sample_intensity
  /\ rectangular (calculate_oac sample_intensity HPX)
  /\ forall i j, (i < height sample_intensity)%nat ->
                 (j < width sample_intensity)%nat ->
       get (calculate_oac sample_intensity HPX) i j
       = get sample_intensity i j
         / (2 * HPX * ((remaining_energy sample_intensity i j
                        - get sample_intensity i j / 2) + 1e-10)).
Proof.
  apply (calculate_oac_closed_form sample_intensity HPX).
  - unfold sample_intensity. repeat constructor.
  - unfold HPX. lra.
Defined.

Lemma nth_nonneg (r : list R) (j : nat) :
  Forall (fun x => 0 <= x) r -> 0 <= nth j r 0.
Proof.
  intros H. destruct (Nat.lt_ge_cases j (length r)) as [Hj|Hj].
  - rewrite Forall_forall in H. apply H. now apply nth_In.
  - rewrite nth_overflow by exact Hj. lra.
Qed.

Lemma col_sum_nonneg (j : nat) (rows : image) :
  Forall (Forall (fun x => 0 <= x)) rows -> 0 <= col_sum j rows.
Proof.
  unfold col_sum. induction 1 as [|r rows Hr _ IH]; simpl; [lra|].
  pose proof (nth_nonneg r j Hr). lra.
Qed.

Lemma skipn_nth_cons {A : Type} (l : list A) (i : nat) (d : A) :
  (i < length l)%nat -> skipn i l = nth i l d :: skipn (S i) l.
Proof.
  revert i. induction l as [|x l IH]; intros [|i] H; simpl in *; try lia.
  - reflexivity.
  - apply IH. lia.
Qed.

Lemma Forall_skipn {A : Type} (P : A -> Prop) (l : list A) (n : nat) :
  Forall P l -> Forall P (skipn n l).
Proof.
  revert l. induction n as [|n IH]; intros [|x l] H; simpl; auto.
  inversion H; auto.
Qed.

(** The energy remaining at a depth is at least the local intensity when
    nothing below is negative. *)
Lemma remaining_energy_ge_local (a : image) (i j : nat) :
  Forall (Forall (fun x => 0 <= x)) a -> (i < length a)%nat ->
  get a i j <= remaining_energy a i j.
Proof.
  intros H Hi. unfold remaining_energy, get.
  rewrite (skipn_nth_cons a i []) by exact Hi.
  change (col_sum j (nth i a [] :: skipn (S i) a))
    with (nth j (nth i a []) 0 + col_sum j (skipn (S i) a)).
  pose proof (col_sum_nonneg j (skipn (S i) a) (Forall_skipn _ _ _ H)).
  lra.
Qed.

(** C10. On an image without negative entries and with a positive depth
    pixel size, every entry of the estimated map is non-negative: the
    denominator term is at least half the local intensity and the guard
    constant is positive. *)
Theorem calculate_oac_nonneg (intensity : image) (h_px : R) :
  rectangular intensity ->
  Forall (Forall (fun x => 0 <= x)) intensity ->
  0 < h_px ->
  Forall (Forall (fun x => 0 <= x)) (calculate_oac intensity h_px)
  /\ forall i j, (i < height intensity)%nat -> (j < width intensity)%nat ->
       get intensity i j / 2 <= get (oac_denom_term intensity) i j.
Proof.
  intros Hrect Hpos Hh.
  assert (Hden : forall i j,
             (i < height intensity)%nat -> (j < width intensity)%nat ->
             get intensity i j / 2 <= get (oac_denom_term intensity) i j).
  { intros i j Hi Hj.
    rewrite (oac_denom_term_get (width intensity)) by assumption.
    pose proof (remaining_energy_ge_local intensity i j Hpos Hi). lra. }
  split; [|exact Hden].
  apply Forall2d_of_get. intros i j Hi Hj.
  rewrite calculate_oac_length in Hi.
  rewrite (rows_nth (width intensity)) in Hj;
    [|now apply calculate_oac_rows|now rewrite calculate_oac_length].
  rewrite (calculate_oac_get (width intensity)) by assumption.
  assert (H0 : 0 <= get intensity i j).
  { apply get_of_Forall2d; [exact Hpos|exact Hi|].
    now rewrite (rows_nth (width intensity)). }
  specialize (Hden i j Hi Hj).
  apply Rmult_le_pos; [exact H0|].
  apply Rlt_le, Rinv_0_lt_compat.
  apply Rmult_lt_0_compat; lra.
Qed.

Lemma calculate_oac_nonneg_witness :
  Forall (Forall (fun x => 0 <= x)) (calculate_oac sample_intensity0 HPX)
  /\ forall i j, (i < height sample_intensity0)%nat ->
                 (j < width sample_intensity0)%nat ->
       get sample_intensity0 i j / 2
       <= get (oac_denom_term sample_intensity0) i j.
Proof.
  apply (calculate_oac_nonneg sample_intensity0 HPX).
  - unfold sample_intensity0. repeat constructor.
  - unfold sample_intensity0. repeat constructor; lra.
  - unfold HPX. lra.
Defined.

(** ** Cropping and edge padding *)

Definition clamp_index (b n k : nat) : nat :=
  (b + Nat.min (n - 2 * b - 1) (k - b))%nat.

Lemma clamp_index_interior (b n k : nat) :
  (b <= k)%nat -> (k < n - b)%nat -> clamp_index b n k = k.
Proof. unfold clamp_index. lia. Qed.

Lemma slice_border_length {A : Type} (b : nat) (l : list A) :
  b <> 0%nat -> length (slice_border b l) = (length l - 2 * b)%nat.
Proof.
  intros Hb. unfold slice_border.
  destruct (Nat.eqb_spec b 0) as [E|_]; [contradiction|].
  rewrite length_firstn, length_skipn. lia.
Qed.

Lemma slice_border_nth {A : Type} (b : nat) (l : list A) (k : nat) (d : A) :
  b <> 0%nat -> (k < length l - 2 * b)%nat ->
  nth k (slice_border b l) d = nth (b + k) l d.
Proof.
  intros Hb Hk. unfold slice_border.
  destruct (Nat.eqb_spec b 0) as [E|_]; [contradiction|].
  rewrite nth_firstn.
  destruct (Nat.ltb_spec k (length l - 2 * b)) as [_|H]; [|lia].
  apply nth_skipn.
Qed.

Lemma pad_edge_line_length {A : Type} (b : nat) (d : A) (l : list A) :
  length (pad_edge_line b d l) = (length l + 2 * b)%nat.
Proof.
  unfold pad_edge_line. rewrite !length_app, !repeat_length. lia.
Qed.

Lemma hd_nth0 {A : Type} (l : list A) (d d' : A) :
  l <> [] -> hd d l = nth 0 l d'.
Proof. destruct l; [congruence|reflexivity]. Qed.

Lemma last_nth {A : Type} (l : list A) (d d' : A) :
  l <> [] -> last l d = nth (length l - 1) l d'.
Proof.
  induction l as [|x l IH]; [congruence|]. intros _.
  destruct l as [|y l]; [reflexivity|].
  change (last (x :: y :: l) d) with (last (y :: l) d).
  rewrite IH by discriminate. simpl. now rewrite Nat.sub_0_r.
Qed.

Lemma pad_edge_line_nth {A : Type} (b : nat) (d d' : A) (l : list A)
      (k : nat) :
  l <> [] -> (k < length l + 2 * b)%nat ->
  nth k (pad_edge_line b d l) d' = nth (Nat.min (length l - 1) (k - b)) l d'.
Proof.
  intros Hl Hk. unfold pad_edge_line.
  assert (Hlen : (0 < length l)%nat).
  { destruct l; [congruence|simpl; lia]. }
  destruct (Nat.lt_ge_cases k b) as [H1|H1].
  - rewrite app_nth1 by (rewrite repeat_length; exact H1).
    rewrite nth_repeat_lt by exact H1.
    replace (Nat.min (length l - 1) (k - b)) with 0%nat by lia.
    now apply hd_nth0.
  - rewrite app_nth2 by (rewrite repeat_length; exact H1).
    rewrite repeat_length.
    destruct (Nat.lt_ge_cases (k - b) (length l)) as [H2|H2].
    + rewrite app_nth1 by exact H2. f_equal. lia.
    + rewrite app_nth2 by exact H2.
      rewrite nth_repeat_lt by lia.
      replace (Nat.min (length l - 1) (k - b)) with (length l - 1)%nat
        by lia.
      now apply last_nth.
Qed.

Lemma pad_slice_nth {A : Type} (b : nat) (d d' : A) (l : list A) (k : nat) :
  b <> 0%nat -> (2 * b < length l)%nat -> (k < length l)%nat ->
  nth k (pad_edge_line b d (slice_border b l)) d'
  = nth (clamp_index b (length l) k) l d'.
Proof.
  intros Hb Hl Hk.
  assert (Hs : length (slice_border b l) = (length l - 2 * b)%nat)
    by now apply slice_border_length.
  rewrite pad_edge_line_nth.
  - rewrite Hs. rewrite slice_border_nth by (try exact Hb; lia).
    reflexivity.
  - intros E. rewrite E in Hs. simpl in Hs. lia.
  - rewrite Hs. lia.
Qed.

Lemma pad_slice_length {A : Type} (b : nat) (d : A) (l : list A) :
  b <> 0%nat -> (2 * b < length l)%nat ->
  length (pad_edge_line b d (slice_border b l)) = length l.
Proof.
  intros Hb Hl. rewrite pad_edge_line_length, slice_border_length by exact Hb.
  lia.
Qed.

Lemma Forall_firstn {A : Type} (P : A -> Prop) (l : list A) (n : nat) :
  Forall P l -> Forall P (firstn n l).
Proof.
  revert l. induction n as [|n IH]; intros [|x l] H; simpl; auto.
  inversion H; auto.
Qed.

Lemma Forall_slice_border {A : Type} (P : A -> Prop) (b : nat) (l : list A) :
  Forall P l -> Forall P (slice_border b l).
Proof.
  intros H. unfold slice_border. destruct (b =? 0)%nat; [constructor|].
  apply Forall_firstn. now apply Forall_skipn.
Qed.

(** Cropping a border of [b] and padding it back by edge replication, on an
    array that is larger than the two borders: the shape comes back and
    every sample is the one of the nearest interior position. *)
Lemma np_pad_edge_crop (b W : nat) (a : image) :
  b <> 0%nat -> (2 * b < length a)%nat -> (2 * b < W)%nat ->
  Forall (fun r => length r = W) a ->
  exists m,
    np_pad_edge (crop b a) b = Some m
    /\ length m = length a
    /\ Forall (fun r => length r = W) m
    /\ forall i j, (i < length a)%nat -> (j < W)%nat ->
         get m i j
         = get a (clamp_index b (length a) i) (clamp_index b W j).
Proof.
  intros Hb HH HW Hrows.
  assert (Hclen : length (crop b a) = (length a - 2 * b)%nat).
  { unfold crop. rewrite length_map. now apply slice_border_length. }
  assert (Hcrows : Forall (fun r => length r = (W - 2 * b)%nat) (crop b a)).
  { unfold crop. apply Forall_map. apply Forall_slice_border.
    eapply Forall_impl; [|exact Hrows]. intros r Hr. simpl in *.
    rewrite slice_border_length by exact Hb. lia. }
  assert (Hcne : crop b a <> []).
  { intros E. rewrite E in Hclen. simpl in Hclen. lia. }
  assert (Hcw : width (crop b a) = (W - 2 * b)%nat).
  { now apply rows_of_width. }
  unfold np_pad_edge.
  destruct (Nat.eqb_spec b 0) as [E|_]; [contradiction|].
  unfold height. rewrite Hclen, Hcw.
  destruct (Nat.eqb_spec (length a - 2 * b) 0) as [E|_]; [lia|].
  destruct (Nat.eqb_spec (W - 2 * b) 0) as [E|_]; [lia|].
  simpl. eexists. split; [reflexivity|].
  assert (Hprows : Forall (fun r => length r = W)
                          (map (pad_edge_line b 0) (crop b a))).
  { apply Forall_map. eapply Forall_impl; [|exact Hcrows].
    intros r Hr. simpl in *. rewrite pad_edge_line_length. lia. }
  split; [|split].
  - rewrite pad_edge_line_length, length_map, Hclen. lia.
  - assert (Hplen : length (map (pad_edge_line b 0) (crop b a))
                    = (length a - 2 * b)%nat)
      by now rewrite length_map.
    set (p := map (pad_edge_line b 0) (crop b a)) in *.
    assert (Hne : p <> []).
    { intros Em. rewrite Em in Hplen. simpl in Hplen. lia. }
    unfold pad_edge_line. apply Forall_app. split; [|apply Forall_app; split].
    + apply Forall_forall. intros r Hr. apply repeat_spec in Hr. subst r.
      rewrite (hd_nth0 _ _ [] Hne).
      apply rows_nth; [exact Hprows|lia].
    + exact Hprows.
    + apply Forall_forall. intros r Hr. apply repeat_spec in Hr. subst r.
      rewrite (last_nth _ _ [] Hne).
      apply rows_nth; [exact Hprows|lia].
  - intros i j Hi Hj. unfold get.
    assert (Hne : map (pad_edge_line b 0) (crop b a) <> []).
    { intros Em. apply (f_equal (@length _)) in Em.
      rewrite length_map in Em. simpl in Em. lia. }
    rewrite pad_edge_line_nth
      by (try exact Hne; rewrite length_map, Hclen; lia).
    rewrite length_map, Hclen.
    set (i' := Nat.min (length a - 2 * b - 1) (i - b)).
    assert (Hi' : (i' < length a - 2 * b)%nat) by (unfold i'; lia).
    rewrite (nth_indep _ _ (pad_edge_line b 0 []))
      by (rewrite length_map, Hclen; exact Hi').
    rewrite map_nth. unfold crop.
    rewrite (nth_indep _ _ (slice_border b []))
      by (rewrite length_map, slice_border_length by exact Hb; exact Hi').
    rewrite map_nth.
    rewrite slice_border_nth by (try exact Hb; exact Hi').
    assert (Hrow : length (nth (b + i') a []) = W).
    { apply rows_nth; [exact Hrows|lia]. }
    rewrite pad_slice_nth by (try exact Hb; rewrite Hrow; lia).
    rewrite Hrow. reflexivity.
Qed.

Lemma np_pad_edge_crop_small (b : nat) (a : image) :
  b <> 0%nat -> (length a <= 2 * b)%nat ->
  np_pad_edge (crop b a) b = None.
Proof.
  intros Hb Hl. unfold np_pad_edge.
  destruct (Nat.eqb_spec b 0) as [E|_]; [contradiction|].
  assert (Hc : crop b a = []).
  { unfold crop. apply length_zero_iff_nil.
    rewrite length_map, slice_border_length by exact Hb. lia. }
  rewrite Hc. reflexivity.
Qed.

(** ** Shapes through the boxcar filter and the contrast map *)

Lemma img_map_length (f : R -> R) (a : image) :
  length (img_map f a) = length a.
Proof. unfold img_map. apply length_map. Qed.

Lemma img_map2_length (f : R -> R -> R) (a b : image) :
  length a = length b -> length (img_map2 f a b) = length a.
Proof. intros H. unfold img_map2. rewrite map2_length. lia. Qed.

Lemma uniform_filter1d_length (size : nat) (l : list R) :
  length (uniform_filter1d size l) = length l.
Proof. unfold uniform_filter1d. now rewrite length_map, length_seq. Qed.

Lemma uniform_filter_axis0_length (size : nat) (a : image) :
  length (uniform_filter_axis0 size a) = length a.
Proof. unfold uniform_filter_axis0. now rewrite length_map, length_seq. Qed.

Lemma uniform_filter_axis0_rows (size : nat) (a : image) :
  Forall (fun r => length r = width a) (uniform_filter_axis0 size a).
Proof.
  unfold uniform_filter_axis0. apply Forall_map, Forall_forall.
  intros i _. simpl. now rewrite length_map, length_seq.
Qed.

Lemma uniform_filter_axis1_length (size : nat) (a : image) :
  length (uniform_filter_axis1 size a) = length a.
Proof. unfold uniform_filter_axis1. apply length_map. Qed.

Lemma uniform_filter_axis1_rows (w size : nat) (a : image) :
  Forall (fun r => length r = w) a ->
  Forall (fun r => length r = w) (uniform_filter_axis1 size a).
Proof.
  intros H. unfold uniform_filter_axis1. apply Forall_map.
  eapply Forall_impl; [|exact H]. intros r Hr. simpl in *.
  now rewrite uniform_filter1d_length.
Qed.

Lemma uniform_filter_length (a : image) (size : nat) :
  length (uniform_filter a size) = length a.
Proof.
  unfold uniform_filter. destruct (size <=? 1)%nat; [reflexivity|].
  now rewrite uniform_filter_axis1_length, uniform_filter_axis0_length.
Qed.

Lemma uniform_filter_rows (w : nat) (a : image) (size : nat) :
  Forall (fun r => length r = w) a ->
  Forall (fun r => length r = w) (uniform_filter a size).
Proof.
  intros H. unfold uniform_filter. destruct (size <=? 1)%nat; [exact H|].
  apply uniform_filter_axis1_rows.
  destruct a as [|r a].
  - constructor.
  - rewrite <- (rows_of_width (r :: a) w H) by discriminate.
    apply uniform_filter_axis0_rows.
Qed.

Lemma sc_std_val_length (data : image) (w : nat) :
  length (sc_std_val data w) = length data.
Proof.
  unfold sc_std_val. rewrite !img_map_length, img_map2_length.
  - now rewrite uniform_filter_length, img_map_length.
  - now rewrite img_map_length, !uniform_filter_length, img_map_length.
Qed.

Lemma sc_std_val_rows (W : nat) (data : image) (w : nat) :
  Forall (fun r => length r = W) data ->
  Forall (fun r => length r = W) (sc_std_val data w).
Proof.
  intros H. unfold sc_std_val.
  apply img_map_rows, img_map_rows, img_map2_rows.
  - apply uniform_filter_rows. now apply img_map_rows.
  - apply img_map_rows. now apply uniform_filter_rows.
Qed.

Lemma sc_map_full_length (data : image) (w : nat) :
  length (sc_map_full data w) = length data.
Proof.
  unfold sc_map_full, sc_mean_val. rewrite img_map2_length.
  - apply sc_std_val_length.
  - now rewrite sc_std_val_length, uniform_filter_length.
Qed.

Lemma sc_map_full_rows (W : nat) (data : image) (w : nat) :
  Forall (fun r => length r = W) data ->
  Forall (fun r => length r = W) (sc_map_full data w).
Proof.
  intros H. unfold sc_map_full, sc_mean_val. apply img_map2_rows.
  - now apply sc_std_val_rows.
  - now apply uniform_filter_rows.
Qed.

Lemma calculate_speckle_contrast_map_unfold (data : image) (w : nat) :
  calculate_speckle_contrast_map data w
  = np_pad_edge (crop (w / 2) (sc_map_full data w)) (w / 2).
Proof. reflexivity. Qed.

(** What the estimator returns on an image that is larger than the two
    borders: the full contrast map read at the nearest interior position. *)
Lemma calculate_speckle_contrast_map_spec (data : image) (w : nat) :
  rectangular data ->
  (1 <= w / 2)%nat ->
  (2 * (w / 2) < height data)%nat -> (2 * (w / 2) < width data)%nat ->
  exists m,
    calculate_speckle_contrast_map data w = Some m
    /\ length m = length data
    /\ Forall (fun r => length r = width data) m
    /\ forall i j, (i < height data)%nat -> (j < width data)%nat ->
         get m i j
         = get (sc_map_full data w)
               (clamp_index (w / 2) (height data) i)
               (clamp_index (w / 2) (width data) j).
Proof.
  intros Hrect Hb HH HW. rewrite calculate_speckle_contrast_map_unfold.
  destruct (np_pad_edge_crop (w / 2) (width data) (sc_map_full data w))
    as [m [Hm [Hlen [Hrows Hget]]]].
  - lia.
  - rewrite sc_map_full_length. exact HH.
  - exact HW.
  - now apply sc_map_full_rows.
  - rewrite sc_map_full_length in Hlen, Hget.
    exists m. repeat split; assumption.
Qed.

(** ** Shape of the speckle-contrast map *)

(** C8, as the code has it.  When the border width [w/2] is at least 1 and
    the image is higher and wider than twice that border, the estimator
    returns a map of the height and width of its input: the contrast map
    with a border of [w/2] discarded and then filled back by edge
    replication. *)
Theorem speckle_contrast_map_shape (data : image) (w : nat) :
  rectangular data ->
  (1 <= w / 2)%nat ->
  (2 * (w / 2) < height data)%nat -> (2 * (w / 2) < width data)%nat ->
  exists m,
    calculate_speckle_contrast_map data w = Some m
    /\ shape m = shape data
    /\ rectangular m
    /\ forall i j, (i < height data)%nat -> (j < width data)%nat ->
         get m i j
         = get (sc_map_full data w)
               (clamp_index (w / 2) (height data) i)
               (clamp_index (w / 2) (width data) j).
Proof.
  intros Hrect Hb HH HW.
  destruct (calculate_speckle_contrast_map_spec data w Hrect Hb HH HW)
    as [m [Hm [Hlen [Hrows Hget]]]].
  exists m. split; [exact Hm|]. split; [|split].
  - now apply (shape_of_rows _ _ (width data)).
  - now apply (rectangular_of_rows _ (width data)).
  - exact Hget.
Qed.

Lemma speckle_contrast_map_shape_witness :
  exists m,
    calculate_speckle_contrast_map striped3 2 = Some m
    /\ shape m = shape striped3
    /\ rectangular m
    /\ forall i j, (i < height striped3)%nat -> (j < width striped3)%nat ->
         get m i j
         = get (sc_map_full striped3 2)
               (clamp_index (2 / 2) (height striped3) i)
               (clamp_index (2 / 2) (width striped3) j).
Proof.
  apply (speckle_contrast_map_shape striped3 2).
  - unfold striped3. repeat constructor.
  - simpl. lia.
  - simpl. lia.
  - simpl. lia.
Defined.

Lemma flat20_height : height flat20 = 20%nat.
Proof. unfold flat20, height. apply repeat_length. Qed.

Lemma flat20_rectangular : rectangular flat20.
Proof.
  apply (rectangular_of_rows _ 20). unfold flat20.
  apply Forall_forall. intros r Hr. apply repeat_spec in Hr. subst r.
  apply repeat_length.
Qed.

(** C8, as stated, fails: a 20 x 20 image with the default window of 20
    leaves nothing after the border of 10 is discarded, and the edge padding
    of the empty crop raises instead of returning a map. *)
Lemma speckle_contrast_map_shape_counterexample :
  rectangular flat20
  /\ ~ (exists m, calculate_speckle_contrast_map flat20 WINDOW_SIZE = Some m
                  /\ shape m = shape flat20).
Proof.
  split; [exact flat20_rectangular|].
  intros [m [Hm _]].
  rewrite calculate_speckle_contrast_map_unfold in Hm.
  rewrite np_pad_edge_crop_small in Hm; [discriminate| |].
  - unfold WINDOW_SIZE. simpl. lia.
  - rewrite sc_map_full_length. change (length flat20) with (height flat20).
    rewrite flat20_height. unfold WINDOW_SIZE. simpl. lia.
Qed.

(** ** The boxcar filter commutes with scaling *)

Lemma Rsum_scale (c : R) (l : list R) :
  Rsum (map (Rmult c) l) = c * Rsum l.
Proof.
  unfold Rsum. induction l as [|x l IH]; simpl; [lra|]. rewrite IH. lra.
Qed.

Lemma window_mean_ext (size n : nat) (f g : nat -> R) (i : nat) :
  (forall k, f k = g k) ->
  window_mean size n f i = window_mean size n g i.
Proof.
  intros H. unfold window_mean. f_equal. f_equal.
  apply map_ext. intros t. apply H.
Qed.

Lemma window_mean_scale (size n : nat) (c : R) (f : nat -> R) (i : nat) :
  window_mean size n (fun k => c * f k) i = c * window_mean size n f i.
Proof.
  unfold window_mean.
  rewrite <- (map_map _ (Rmult c)), Rsum_scale.
  unfold Rdiv. ring.
Qed.

Lemma nth_map_scale (c : R) (l : list R) (k : nat) :
  nth k (map (Rmult c) l) 0 = c * nth k l 0.
Proof.
  replace 0 with (c * 0) at 1 by ring. apply map_nth.
Qed.

Lemma get_scale_image (c : R) (a : image) (i j : nat) :
  get (scale_image c a) i j = c * get a i j.
Proof.
  unfold get, scale_image, img_map.
  change (@nil R) with (map (Rmult c) []) at 1.
  rewrite map_nth. apply nth_map_scale.
Qed.

Lemma scale_image_height (c : R) (a : image) :
  height (scale_image c a) = height a.
Proof. apply img_map_length. Qed.

Lemma scale_image_width (c : R) (a : image) :
  width (scale_image c a) = width a.
Proof. destruct a as [|r a]; simpl; [reflexivity|apply length_map]. Qed.

Lemma uniform_filter1d_scale (size : nat) (c : R) (l : list R) :
  uniform_filter1d size (map (Rmult c) l)
  = map (Rmult c) (uniform_filter1d size l).
Proof.
  unfold uniform_filter1d. rewrite length_map, map_map.
  apply map_ext. intros i.
  rewrite <- window_mean_scale. apply window_mean_ext.
  intros k. apply nth_map_scale.
Qed.

Lemma uniform_filter_axis0_scale (size : nat) (c : R) (a : image) :
  uniform_filter_axis0 size (scale_image c a)
  = scale_image c (uniform_filter_axis0 size a).
Proof.
  unfold uniform_filter_axis0.
  rewrite scale_image_height, scale_image_width.
  unfold scale_image at 2. unfold img_map. rewrite map_map.
  apply map_ext. intros i. rewrite map_map.
  apply map_ext. intros j.
  rewrite <- window_mean_scale. apply window_mean_ext.
  intros k. apply get_scale_image.
Qed.

Lemma uniform_filter_axis1_scale (size : nat) (c : R) (a : image) :
  uniform_filter_axis1 size (scale_image c a)
  = scale_image c (uniform_filter_axis1 size a).
Proof.
  unfold uniform_filter_axis1, scale_image, img_map.
  rewrite !map_map. apply map_ext. intros r.
  apply uniform_filter1d_scale.
Qed.

Lemma uniform_filter_scale (c : R) (a : image) (size : nat) :
  uniform_filter (scale_image c a) size
  = scale_image c (uniform_filter a size).
Proof.
  unfold uniform_filter. destruct (size <=? 1)%nat; [reflexivity|].
  now rewrite uniform_filter_axis0_scale, uniform_filter_axis1_scale.
Qed.

Lemma square_scale_image (c : R) (a : image) :
  img_map (fun x => x ^ 2) (scale_image c a)
  = scale_image (c ^ 2) (img_map (fun x => x ^ 2) a).
Proof.
  unfold scale_image, img_map. rewrite !map_map.
  apply map_ext. intros r. rewrite !map_map.
  apply map_ext. intros x. ring.
Qed.

(** ** Entries of the contrast map *)

Lemma sc_std_val_get (W : nat) (data : image) (w i j : nat) :
  Forall (fun r => length r = W) data ->
  (i < length data)%nat -> (j < W)%nat ->
  get (sc_std_val data w) i j
  = sqrt (clamp_negative
            (get (uniform_filter (img_map (fun x => x ^ 2) data) w) i j
             - get (uniform_filter data w) i j ^ 2)).
Proof.
  intros Hrows Hi Hj. unfold sc_std_val.
  assert (HQl : length (uniform_filter (img_map (fun x => x ^ 2) data) w)
                = length data)
    by now rewrite uniform_filter_length, img_map_length.
  assert (HQr : Forall (fun r => length r = W)
                       (uniform_filter (img_map (fun x => x ^ 2) data) w))
    by now apply uniform_filter_rows, img_map_rows.
  assert (HMl : length (uniform_filter data w) = length data)
    by apply uniform_filter_length.
  assert (HMr : Forall (fun r => length r = W) (uniform_filter data w))
    by now apply uniform_filter_rows.
  set (Q := uniform_filter (img_map (fun x => x ^ 2) data) w) in *.
  set (M := uniform_filter data w) in *.
  assert (HM2l : length (img_map (fun x => x ^ 2) M) = length data)
    by now rewrite img_map_length.
  assert (HM2r : Forall (fun r => length r = W) (img_map (fun x => x ^ 2) M))
    by now apply img_map_rows.
  assert (HVl : length (img_map2 Rminus Q (img_map (fun x => x ^ 2) M))
                = length data)
    by (rewrite img_map2_length; congruence).
  assert (HVr : Forall (fun r => length r = W)
                       (img_map2 Rminus Q (img_map (fun x => x ^ 2) M)))
    by now apply img_map2_rows.
  rewrite get_img_map.
  2: now rewrite img_map_length, HVl.
  2: { rewrite (rows_nth W); [exact Hj|now apply img_map_rows|].
       now rewrite img_map_length, HVl. }
  rewrite get_img_map.
  2: now rewrite HVl.
  2: { rewrite (rows_nth W); [exact Hj|exact HVr|now rewrite HVl]. }
  rewrite get_img_map2.
  - rewrite get_img_map; [reflexivity|now rewrite HMl|].
    rewrite (rows_nth W); [exact Hj|exact HMr|now rewrite HMl].
  - now rewrite HQl.
  - now rewrite HM2l.
  - rewrite (rows_nth W); [exact Hj|exact HQr|now rewrite HQl].
  - rewrite (rows_nth W); [exact Hj|exact HM2r|now rewrite HM2l].
Qed.

Lemma sc_map_full_get (W : nat) (data : image) (w i j : nat) :
  Forall (fun r => length r = W) data ->
  (i < length data)%nat -> (j < W)%nat ->
  get (sc_map_full data w) i j
  = get (sc_std_val data w) i j / (get (sc_mean_val data w) i j + 1e-10).
Proof.
  intros Hrows Hi Hj. unfold sc_map_full, sc_mean_val.
  apply get_img_map2.
  - now rewrite sc_std_val_length.
  - now rewrite uniform_filter_length.
  - rewrite (rows_nth W); [exact Hj|now apply sc_std_val_rows|].
    now rewrite sc_std_val_length.
  - rewrite (rows_nth W); [exact Hj|now apply uniform_filter_rows|].
    now rewrite uniform_filter_length.
Qed.

Lemma clamp_negative_nonneg (v : R) : 0 <= clamp_negative v.
Proof. unfold clamp_negative. destruct (Rlt_dec v 0); lra. Qed.

Lemma clamp_negative_scale (k v : R) :
  0 < k -> clamp_negative (k * v) = k * clamp_negative v.
Proof.
  intros Hk. unfold clamp_negative.
  destruct (Rlt_dec (k * v) 0) as [H1|H1], (Rlt_dec v 0) as [H2|H2];
    try lra; exfalso.
  - apply Rnot_lt_le in H2.
    pose proof (Rmult_le_pos k v (Rlt_le _ _ Hk) H2). lra.
  - apply H1. replace 0 with (k * 0) by ring.
    now apply Rmult_lt_compat_l.
Qed.

Lemma scale_image_rows (W : nat) (c : R) (a : image) :
  Forall (fun r => length r = W) a ->
  Forall (fun r => length r = W) (scale_image c a).
Proof. apply img_map_rows. Qed.

Lemma sc_mean_val_scale (c : R) (data : image) (w i j : nat) :
  get (sc_mean_val (scale_image c data) w) i j
  = c * get (sc_mean_val data w) i j.
Proof.
  unfold sc_mean_val. rewrite uniform_filter_scale. apply get_scale_image.
Qed.

Lemma sc_std_val_scale (W : nat) (c : R) (data : image) (w i j : nat) :
  0 < c ->
  Forall (fun r => length r = W) data ->
  (i < length data)%nat -> (j < W)%nat ->
  get (sc_std_val (scale_image c data) w) i j
  = c * get (sc_std_val data w) i j.
Proof.
  intros Hc Hrows Hi Hj.
  rewrite (sc_std_val_get W)
    by (try apply scale_image_rows; try rewrite scale_image_height;
        assumption).
  rewrite (sc_std_val_get W) by assumption.
  rewrite square_scale_image, !uniform_filter_scale, !get_scale_image.
  set (q := get (uniform_filter (img_map (fun x => x ^ 2) data) w) i j).
  set (m := get (uniform_filter data w) i j).
  replace (c ^ 2 * q - (c * m) ^ 2) with (c ^ 2 * (q - m ^ 2)) by ring.
  assert (Hc2 : 0 < c ^ 2) by (apply pow_lt; exact Hc).
  rewrite clamp_negative_scale by exact Hc2.
  rewrite sqrt_mult_alt by lra.
  rewrite sqrt_pow2 by lra. reflexivity.
Qed.

(** ** Positivity of the local mean *)

Lemma reflect_index_lt (n : nat) (k : Z) :
  (0 < n)%nat -> (reflect_index n k < n)%nat.
Proof.
  intros Hn. unfold reflect_index.
  assert (Hp : (0 < 2 * Z.of_nat n)%Z) by lia.
  pose proof (Z.mod_pos_bound k _ Hp) as Hr.
  destruct (Z.ltb_spec (k mod (2 * Z.of_nat n)) (Z.of_nat n)); lia.
Qed.

Lemma Rsum_map_pos {A : Type} (f : A -> R) (l : list A) :
  l <> [] -> (forall x, In x l -> 0 < f x) -> 0 < Rsum (map f l).
Proof.
  unfold Rsum. induction l as [|x l IH]; [congruence|]. intros _ H.
  simpl. assert (Hx : 0 < f x) by (apply H; now left).
  destruct l as [|y l]; [simpl; lra|].
  assert (0 < fold_right Rplus 0 (map f (y :: l))).
  { apply IH; [discriminate|]. intros z Hz. apply H. now right. }
  lra.
Qed.

Lemma window_mean_pos (size n : nat) (f : nat -> R) (i : nat) :
  (1 <= size)%nat -> (0 < n)%nat ->
  (forall k, (k < n)%nat -> 0 < f k) ->
  0 < window_mean size n f i.
Proof.
  intros Hs Hn Hf. unfold window_mean.
  apply Rdiv_lt_0_compat.
  - apply Rsum_map_pos.
    + destruct size; [lia|discriminate].
    + intros t _. apply Hf. now apply reflect_index_lt.
  - apply lt_0_INR. lia.
Qed.

Lemma nth_map_seq {A : Type} (f : nat -> A) (n i : nat) (d : A) :
  (i < n)%nat -> nth i (map f (seq 0 n)) d = f i.
Proof.
  intros Hi. rewrite (nth_indep _ d (f 0%nat))
    by (rewrite length_map, length_seq; exact Hi).
  rewrite map_nth, seq_nth by exact Hi. reflexivity.
Qed.

Lemma uniform_filter_axis0_get (size : nat) (a : image) (i j : nat) :
  (i < height a)%nat -> (j < width a)%nat ->
  get (uniform_filter_axis0 size a) i j
  = window_mean size (height a) (fun k => get a k j) i.
Proof.
  intros Hi Hj. unfold get at 1. unfold uniform_filter_axis0.
  rewrite nth_map_seq by exact Hi. now rewrite nth_map_seq.
Qed.

Lemma uniform_filter_axis1_get (size : nat) (a : image) (i j : nat) :
  (i < length a)%nat -> (j < length (nth i a []))%nat ->
  get (uniform_filter_axis1 size a) i j
  = window_mean size (length (nth i a [])) (fun k => get a i k) j.
Proof.
  intros Hi Hj. unfold get at 1. unfold uniform_filter_axis1.
  rewrite (nth_indep _ [] (uniform_filter1d size []))
    by (rewrite length_map; exact Hi).
  rewrite map_nth. unfold uniform_filter1d.
  now rewrite nth_map_seq.
Qed.

Lemma uniform_filter_pos (W : nat) (a : image) (size i j : nat) :
  Forall (fun r => length r = W) a ->
  (forall i j, (i < length a)%nat -> (j < W)%nat -> 0 < get a i j) ->
  (i < length a)%nat -> (j < W)%nat ->
  0 < get (uniform_filter a size) i j.
Proof.
  intros Hrows Hpos Hi Hj. unfold uniform_filter.
  destruct (Nat.leb_spec size 1) as [Hs|Hs]; [now apply Hpos|].
  assert (Hw : width a = W).
  { apply rows_of_width; [exact Hrows|]. intros E. rewrite E in Hi.
    simpl in Hi. lia. }
  assert (Hrow0 : length (nth i (uniform_filter_axis0 size a) []) = W).
  { rewrite <- Hw. apply rows_nth; [apply uniform_filter_axis0_rows|].
    now rewrite uniform_filter_axis0_length. }
  rewrite uniform_filter_axis1_get.
  - rewrite Hrow0. apply window_mean_pos; [lia|lia|].
    intros k Hk. rewrite uniform_filter_axis0_get.
    + apply window_mean_pos; [lia|unfold height; lia|].
      intros k' Hk'. now apply Hpos.
    + exact Hi.
    + now rewrite Hw.
  - now rewrite uniform_filter_axis0_length.
  - now rewrite Hrow0.
Qed.

Lemma positive_entries_get (W : nat) (a : image) :
  Forall (fun r => length r = W) a ->
  Forall (Forall (fun x => 0 < x)) a ->
  forall i j, (i < length a)%nat -> (j < W)%nat -> 0 < get a i j.
Proof.
  intros Hrows Hpos i j Hi Hj.
  apply (get_of_Forall2d (fun x => 0 < x)); [exact Hpos|exact Hi|].
  now rewrite (rows_nth W).
Qed.

(** ** Scaling the input of the speckle-contrast estimator *)

(** The entry of the returned map at an interior position, for the image
    and for the image scaled by [c]. *)
Lemma speckle_contrast_interior_values (data : image) (c : R) (w : nat) :
  rectangular data -> 0 < c ->
  (1 <= w / 2)%nat ->
  (2 * (w / 2) < height data)%nat -> (2 * (w / 2) < width data)%nat ->
  exists m m',
    calculate_speckle_contrast_map data w = Some m
    /\ calculate_speckle_contrast_map (scale_image c data) w = Some m'
    /\ forall i j,
         (w / 2 <= i < height data - w / 2)%nat ->
         (w / 2 <= j < width data - w / 2)%nat ->
         get m i j
         = get (sc_std_val data w) i j
           / (get (sc_mean_val data w) i j + 1e-10)
         /\ get m' i j
            = c * get (sc_std_val data w) i j
              / (c * get (sc_mean_val data w) i j + 1e-10).
Proof.
  intros Hrect Hc Hb HH HW.
  destruct (calculate_speckle_contrast_map_spec data w Hrect Hb HH HW)
    as [m [Hm [_ [_ Hget]]]].
  assert (Hrect' : rectangular (scale_image c data)).
  { apply (rectangular_of_rows _ (width data)).
    now apply scale_image_rows. }
  destruct (calculate_speckle_contrast_map_spec (scale_image c data) w)
    as [m' [Hm' [_ [_ Hget']]]];
    rewrite ?scale_image_height, ?scale_image_width; try assumption.
  rewrite scale_image_height, scale_image_width in Hget'.
  exists m, m'. split; [exact Hm|]. split; [exact Hm'|].
  intros i j Hi Hj.
  assert (Hi' : (i < height data)%nat) by lia.
  assert (Hj' : (j < width data)%nat) by lia.
  rewrite Hget, Hget' by assumption.
  rewrite !clamp_index_interior by lia.
  split.
  - now apply (sc_map_full_get (width data)).
  - rewrite (sc_map_full_get (width data));
      [|now apply scale_image_rows
       |change (i < height (scale_image c data))%nat;
        now rewrite scale_image_height
       |exact Hj'].
    rewrite (sc_std_val_scale (width data)) by assumption.
    now rewrite sc_mean_val_scale.
Qed.

Lemma scaled_ratio_eq_iff (c s m e : R) :
  0 < c -> 0 < m -> 0 < e ->
  (c * s / (c * m + e) = s / (m + e) <-> c = 1 \/ s = 0).
Proof.
  intros Hc Hm He.
  assert (HA : 0 < c * m + e).
  { pose proof (Rmult_lt_0_compat c m Hc Hm). lra. }
  assert (HB : 0 < m + e) by lra.
  split.
  - intros E.
    assert (E2 : c * s * (m + e) = s * (c * m + e)).
    { apply (Rmult_eq_compat_r ((c * m + e) * (m + e))) in E.
      field_simplify in E; lra. }
    assert (E3 : s * (e * (c - 1)) = 0) by lra.
    apply Rmult_integral in E3. destruct E3 as [E3|E3]; [now right|].
    apply Rmult_integral in E3. destruct E3 as [E3|E3]; [lra|left; lra].
  - intros [E|E]; subst.
    + f_equal; lra.
    + unfold Rdiv. ring.
Qed.

(** C7, as the code has it.  On an image with positive values that is
    larger than the two borders, and for a positive constant [c], the
    interior entry of the map of the image is [s / (m + 1e-10)] and the one
    of the map of [c] times the image is [c * s / (c * m + 1e-10)], with [s]
    and [m] the local standard deviation and the local mean of the image,
    the mean being positive.  The guard constant is not scaled with the
    image, so the two entries agree only up to that constant. *)
Theorem speckle_contrast_scaling (data : image) (c : R) (w : nat) :
  rectangular data ->
  Forall (Forall (fun x => 0 < x)) data ->
  0 < c ->
  (1 <= w / 2)%nat ->
  (2 * (w / 2) < height data)%nat -> (2 * (w / 2) < width data)%nat ->
  exists m m',
    calculate_speckle_contrast_map data w = Some m
    /\ calculate_speckle_contrast_map (scale_image c data) w = Some m'
    /\ forall i j,
         (w / 2 <= i < height data - w / 2)%nat ->
         (w / 2 <= j < width data - w / 2)%nat ->
         0 < get (sc_mean_val data w) i j
         /\ get m i j
            = get (sc_std_val data w) i j
              / (get (sc_mean_val data w) i j + 1e-10)
         /\ get m' i j
            = c * get (sc_std_val data w) i j
              / (c * get (sc_mean_val data w) i j + 1e-10).
Proof.
  intros Hrect Hpos Hc Hb HH HW.
  destruct (speckle_contrast_interior_values data c w Hrect Hc Hb HH HW)
    as [m [m' [Hm [Hm' Hv]]]].
  exists m, m'. split; [exact Hm|]. split; [exact Hm'|].
  intros i j Hi Hj. destruct (Hv i j Hi Hj) as [E1 E2].
  split; [|split; [exact E1|exact E2]].
  unfold sc_mean_val.
  apply (uniform_filter_pos (width data)); try exact Hrect.
  - now apply positive_entries_get.
  - unfold height in Hi. lia.
  - lia.
Qed.

Lemma striped3_rectangular : rectangular striped3.
Proof. unfold striped3. repeat constructor. Qed.

Lemma striped3_positive : Forall (Forall (fun x => 0 < x)) striped3.
Proof. unfold striped3. repeat constructor; lra. Qed.

Lemma speckle_contrast_scaling_witness :
  exists m m',
    calculate_speckle_contrast_map striped3 2 = Some m
    /\ calculate_speckle_contrast_map (scale_image 2 striped3) 2 = Some m'
    /\ forall i j,
         (2 / 2 <= i < height striped3 - 2 / 2)%nat ->
         (2 / 2 <= j < width striped3 - 2 / 2)%nat ->
         0 < get (sc_mean_val striped3 2) i j
         /\ get m i j
            = get (sc_std_val striped3 2) i j
              / (get (sc_mean_val striped3 2) i j + 1e-10)
         /\ get m' i j
            = 2 * get (sc_std_val striped3 2) i j
              / (2 * get (sc_mean_val striped3 2) i j + 1e-10).
Proof.
  apply (speckle_contrast_scaling striped3 2 2).
  - exact striped3_rectangular.
  - exact striped3_positive.
  - lra.
  - simpl. lia.
  - simpl. lia.
  - simpl. lia.
Defined.

Ltac eval_array :=
  cbv -[Rplus Rmult Rdiv Rminus Rinv Ropp IZR INR sqrt Rlt_dec pow].

Lemma striped3_local_mean : get (sc_mean_val striped3 2) 1 1 = 2.
Proof. eval_array. simpl INR. lra. Qed.

Lemma striped3_local_std : get (sc_std_val striped3 2) 1 1 = 1.
Proof.
  rewrite (sc_std_val_get 3);
    [|unfold striped3; repeat constructor|simpl; lia|lia].
  pose proof striped3_local_mean as Hm. unfold sc_mean_val in Hm.
  rewrite Hm.
  assert (Hq : get (uniform_filter (img_map (fun x => x ^ 2) striped3) 2) 1 1
               = 5).
  { eval_array. simpl INR. lra. }
  rewrite Hq. replace (5 - 2 ^ 2) with 1 by lra.
  unfold clamp_negative. destruct (Rlt_dec 1 0); [lra|]. apply sqrt_1.
Qed.

(** C7, as stated, fails: on a 3 x 3 image with columns 1, 3, 1 and a window
    of 2, the interior entry is [1 / (2 + 1e-10)], and after doubling the
    image it is [2 / (4 + 1e-10)]. *)
Lemma speckle_contrast_scaling_counterexample :
  rectangular striped3
  /\ Forall (Forall (fun x => 0 < x)) striped3
  /\ exists m m',
       calculate_speckle_contrast_map striped3 2 = Some m
       /\ calculate_speckle_contrast_map (scale_image 2 striped3) 2 = Some m'
       /\ (2 / 2 <= 1 < height striped3 - 2 / 2)%nat
       /\ (2 / 2 <= 1 < width striped3 - 2 / 2)%nat
       /\ get m' 1 1 <> get m 1 1.
Proof.
  split; [exact striped3_rectangular|]. split; [exact striped3_positive|].
  destruct (speckle_contrast_interior_values striped3 2 2)
    as [m [m' [Hm [Hm' Hv]]]];
    try exact striped3_rectangular; try lra; try (simpl; lia).
  exists m, m'. split; [exact Hm|]. split; [exact Hm'|].
  assert (Hi : (2 / 2 <= 1 < height striped3 - 2 / 2)%nat) by (simpl; lia).
  assert (Hj : (2 / 2 <= 1 < width striped3 - 2 / 2)%nat) by (simpl; lia).
  split; [exact Hi|]. split; [exact Hj|].
  destruct (Hv 1%nat 1%nat Hi Hj) as [E1 E2].
  rewrite E1, E2, striped3_local_mean, striped3_local_std.
  intros E.
  apply (scaled_ratio_eq_iff 2 1 2 1e-10) in E; lra.
Qed.

(** ** Order statistics *)

Lemma Rleb_true (a b : R) : Rleb a b = true <-> a <= b.
Proof. unfold Rleb. destruct (Rle_dec a b); split; intros; try easy. Qed.

Lemma Rleb_false (a b : R) : Rleb a b = false <-> a > b.
Proof.
  unfold Rleb. destruct (Rle_dec a b); split; intros; try easy; lra.
Qed.

Lemma Rgtb_true (a b : R) : Rgtb a b = true <-> a > b.
Proof. unfold Rgtb. destruct (Rgt_dec a b); split; intros; try easy. Qed.

Lemma fold_left_Rmin_le (t : list R) (x : R) : fold_left Rmin t x <= x.
Proof.
  revert x. induction t as [|y t IH]; intros x; simpl; [lra|].
  pose proof (IH (Rmin x y)). pose proof (Rmin_l x y). lra.
Qed.

Lemma fold_left_Rmax_ge (t : list R) (x : R) : x <= fold_left Rmax t x.
Proof.
  revert x. induction t as [|y t IH]; intros x; simpl; [lra|].
  pose proof (IH (Rmax x y)). pose proof (Rmax_l x y). lra.
Qed.

Lemma np_min_le_np_max (v : list R) : np_min v <= np_max v.
Proof.
  destruct v as [|x t]; simpl; [lra|].
  pose proof (fold_left_Rmin_le t x). pose proof (fold_left_Rmax_ge t x).
  lra.
Qed.

Inductive sorted : list R -> Prop :=
| sorted_nil : sorted []
| sorted_cons (x : R) (l : list R) :
    Forall (fun y => x <= y) l -> sorted l -> sorted (x :: l).

Lemma insert_sorted_length (x : R) (l : list R) :
  length (insert_sorted x l) = S (length l).
Proof.
  induction l as [|y t IH]; simpl; [reflexivity|].
  destruct (Rle_dec x y); simpl; [reflexivity|]. now rewrite IH.
Qed.

Lemma insert_sorted_Forall (P : R -> Prop) (x : R) (l : list R) :
  P x -> Forall P l -> Forall P (insert_sorted x l).
Proof.
  intros Hx Hl. induction Hl as [|y t Hy Ht IH]; simpl.
  - constructor; [exact Hx|constructor].
  - destruct (Rle_dec x y); repeat constructor; assumption.
Qed.

Lemma insert_sorted_sorted (x : R) (l : list R) :
  sorted l -> sorted (insert_sorted x l).
Proof.
  induction 1 as [|y t Hy Ht IH]; simpl.
  - repeat constructor.
  - destruct (Rle_dec x y) as [Hxy|Hxy].
    + constructor; [|now constructor].
      constructor; [exact Hxy|].
      eapply Forall_impl; [|exact Hy]. intros z Hz. simpl in *. lra.
    + constructor; [|exact IH].
      apply insert_sorted_Forall; [lra|exact Hy].
Qed.

Lemma sort_values_length (v : list R) :
  length (sort_values v) = length v.
Proof.
  induction v as [|x v IH]; simpl; [reflexivity|].
  now rewrite insert_sorted_length, IH.
Qed.

Lemma sort_values_sorted (v : list R) : sorted (sort_values v).
Proof.
  induction v as [|x v IH]; simpl; [constructor|].
  now apply insert_sorted_sorted.
Qed.

Lemma sorted_nth_le (s : list R) (a b : nat) :
  sorted s -> (a <= b)%nat -> (b < length s)%nat ->
  nth a s 0 <= nth b s 0.
Proof.
  intros Hs. revert a b.
  induction Hs as [|x l Hx Hl IH]; intros a b Hab Hb; simpl in Hb; [lia|].
  destruct a as [|a], b as [|b]; simpl; try lia.
  - lra.
  - rewrite Forall_forall in Hx. apply Hx. apply nth_In. lia.
  - apply IH; lia.
Qed.

(** The interpolated percentile does not decrease with the requested
    fraction. *)
Lemma np_percentile_mono (v : list R) (num1 num2 den : nat) :
  v <> [] -> (0 < den)%nat -> (num1 <= num2)%nat -> (num2 <= den)%nat ->
  np_percentile v num1 den <= np_percentile v num2 den.
Proof.
  intros Hv Hden H12 H2d. unfold np_percentile.
  pose proof (sort_values_sorted v) as Hs.
  pose proof (sort_values_length v) as Hlen.
  set (s := sort_values v) in *.
  assert (Hn : (0 < length v)%nat).
  { destruct v; [congruence|simpl; lia]. }
  set (n := length v) in *.
  set (k1 := ((n - 1) * num1)%nat).
  set (k2 := ((n - 1) * num2)%nat).
  assert (Hk12 : (k1 <= k2)%nat) by (unfold k1, k2; nia).
  assert (Hk2 : (k2 <= (n - 1) * den)%nat) by (unfold k2; nia).
  assert (Hlo12 : (k1 / den <= k2 / den)%nat)
    by (apply Nat.Div0.div_le_mono; exact Hk12).
  assert (Hlo2 : (k2 / den <= n - 1)%nat).
  { apply Nat.Div0.div_le_upper_bound. lia. }
  assert (Hd : 0 < INR den) by (apply lt_0_INR; exact Hden).
  assert (Hfrac : forall k, 0 <= INR (k mod den) / INR den <= 1).
  { intros k. pose proof (Nat.mod_upper_bound k den ltac:(lia)) as Hm.
    pose proof (pos_INR (k mod den)) as H0.
    apply lt_INR in Hm. split.
    - apply Rmult_le_pos; [exact H0|]. apply Rlt_le, Rinv_0_lt_compat, Hd.
    - apply (Rmult_le_reg_r (INR den)); [exact Hd|].
      unfold Rdiv. rewrite Rmult_assoc, Rinv_l by lra. lra. }
  assert (Hbetween : forall k, (k / den <= n - 1)%nat ->
            nth (k / den) s 0
            <= nth (k / den) s 0
               + (nth (Nat.min (k / den + 1) (n - 1)) s 0
                  - nth (k / den) s 0)
                 * (INR (k mod den) / INR den)
            <= nth (Nat.min (k / den + 1) (n - 1)) s 0).
  { intros k Hk.
    assert (Hle : nth (k / den) s 0
                  <= nth (Nat.min (k / den + 1) (n - 1)) s 0).
    { apply sorted_nth_le; [exact Hs|lia|lia]. }
    destruct (Hfrac k) as [Ht0 Ht1].
    set (t := INR (k mod den) / INR den) in *.
    set (x := nth (k / den) s 0) in *.
    set (y := nth (Nat.min (k / den + 1) (n - 1)) s 0) in *.
    split; nra. }
  destruct (Nat.eq_dec (k1 / den) (k2 / den)) as [Heq|Hne].
  - rewrite <- Heq.
    assert (Hle : nth (k1 / den) s 0
                  <= nth (Nat.min (k1 / den + 1) (n - 1)) s 0).
    { apply sorted_nth_le; [exact Hs|lia|lia]. }
    assert (Hmod : INR (k1 mod den) / INR den <= INR (k2 mod den) / INR den).
    { apply Rmult_le_compat_r; [apply Rlt_le, Rinv_0_lt_compat, Hd|].
      apply le_INR.
      pose proof (Nat.div_mod_eq k1 den). pose proof (Nat.div_mod_eq k2 den).
      rewrite <- Heq in *. nia. }
    set (x := nth (k1 / den) s 0) in *.
    set (y := nth (Nat.min (k1 / den + 1) (n - 1)) s 0) in *.
    nra.
  - destruct (Hbetween k1 ltac:(lia)) as [_ Hup].
    destruct (Hbetween k2 Hlo2) as [Hdown _].
    assert (Hmid : nth (Nat.min (k1 / den + 1) (n - 1)) s 0
                   <= nth (k2 / den) s 0).
    { apply sorted_nth_le; [exact Hs|lia|lia]. }
    lra.
Qed.

Lemma percentile_interval_ordered (v : list R) :
  v <> [] -> percentile_2_5 v <= percentile_97_5 v.
Proof.
  intros Hv. unfold percentile_2_5, percentile_97_5.
  apply np_percentile_mono; [exact Hv|lia|lia|lia].
Qed.

(** ** The tiered significance classifier *)

Lemma check_interval_overlap_false (low1 high1 low2 high2 : R) :
  check_interval_overlap low1 high1 low2 high2 = false
  <-> Rmax low1 low2 > Rmin high1 high2.
Proof.
  unfold check_interval_overlap.
  destruct (Rle_dec (Rmax low1 low2) (Rmin high1 high2));
    split; intros; try easy; lra.
Qed.

(** With separated ranges the gap taken by the code is the distance between
    the nearest edges of the two ranges. *)
Lemma gap_nearest_edges (min1 max1 min2 max2 : R) :
  min1 <= max1 -> min2 <= max2 ->
  Rmax min1 min2 > Rmin max1 max2 ->
  (if Rgtb min1 max2 then min1 - max2 else min2 - max1)
  = Rmax (min1 - max2) (min2 - max1)
  /\ 0 < Rmax (min1 - max2) (min2 - max1).
Proof.
  intros H1 H2 Hsep. unfold Rgtb.
  unfold Rmax, Rmin in *.
  destruct (Rgt_dec min1 max2);
    destruct (Rle_dec (min1 - max2) (min2 - max1));
    destruct (Rle_dec min1 min2); destruct (Rle_dec max1 max2);
    split; lra.
Qed.

Lemma star_rating_spec (l1 h1 min1 max1 std1 l2 h2 min2 max2 std2 : R) :
  min1 <= max1 -> min2 <= max2 ->
  let st := star_rating l1 h1 min1 max1 std1 l2 h2 min2 max2 std2 in
  (st <> NoStar <-> Rmax l1 l2 > Rmin h1 h2)
  /\ (st = TwoStars \/ st = ThreeStars
      <-> Rmax l1 l2 > Rmin h1 h2 /\ Rmax min1 min2 > Rmin max1 max2)
  /\ (st = ThreeStars
      <-> Rmax l1 l2 > Rmin h1 h2 /\ Rmax min1 min2 > Rmin max1 max2
          /\ Rmax (min1 - max2) (min2 - max1) > std1 + std2).
Proof.
  intros H1 H2. unfold star_rating.
  destruct (Rleb (Rmax l1 l2) (Rmin h1 h2)) eqn:E95.
  - apply Rleb_true in E95. simpl.
    repeat split; intros; try congruence; try lra;
      try (destruct H as [H|H]; congruence).
  - apply Rleb_false in E95. simpl.
    destruct (Rleb (Rmax min1 min2) (Rmin max1 max2)) eqn:E100.
    + apply Rleb_true in E100. simpl.
      repeat split; intros; try congruence; try lra;
        try (destruct H as [H|H]; congruence).
    + apply Rleb_false in E100. simpl.
      destruct (gap_nearest_edges min1 max1 min2 max2 H1 H2 E100)
        as [Hgap _].
      rewrite Hgap.
      destruct (Rgtb (Rmax (min1 - max2) (min2 - max1)) (std1 + std2))
        eqn:Eg.
      * apply Rgtb_true in Eg.
        repeat split; intros; try congruence; try lra; auto.
      * assert (Hng : ~ Rmax (min1 - max2) (min2 - max1) > std1 + std2).
        { intros Hc. apply Rgtb_true in Hc. congruence. }
        repeat split; intros; try congruence; try lra; auto;
          try (destruct H as [_ [_ H]]; contradiction).
Qed.

Lemma get_stats_and_rating_some (df_intra df_inter : DataFrame)
      (metric : string) (c1 c2 : list score) :
  column df_intra metric = Some c1 ->
  column df_inter metric = Some c2 ->
  dropna c1 <> [] -> dropna c2 <> [] ->
  exists r,
    get_stats_and_rating df_intra df_inter metric = Some r
    /\ rating_stars r
       = star_rating
           (percentile_2_5 (dropna c1)) (percentile_97_5 (dropna c1))
           (np_min (dropna c1)) (np_max (dropna c1)) (np_std (dropna c1))
           (percentile_2_5 (dropna c2)) (percentile_97_5 (dropna c2))
           (np_min (dropna c2)) (np_max (dropna c2)) (np_std (dropna c2)).
Proof.
  intros E1 E2 N1 N2. unfold get_stats_and_rating. rewrite E1, E2.
  destruct (dropna c1) as [|x1 v1] eqn:D1; [congruence|].
  destruct (dropna c2) as [|x2 v2] eqn:D2; [congruence|].
  simpl. eexists. split; reflexivity.
Qed.

(** C2. The classifier gives a verdict above None exactly when the two
    [2.5, 97.5] percentile intervals do not overlap, that is when
    [max(low1, low2) > min(high1, high2)]; it gives at least
    HighlySignificant exactly when in addition the [min, max] ranges do not
    overlap; and it gives RobustlySeparated exactly when in addition the gap
    between the nearest range edges exceeds the sum of the two standard
    deviations. *)
Theorem tiered_significance (df_intra df_inter : DataFrame)
        (metric : string) (c1 c2 : list score) :
  column df_intra metric = Some c1 ->
  column df_inter metric = Some c2 ->
  dropna c1 <> [] -> dropna c2 <> [] ->
  let v1 := dropna c1 in
  let v2 := dropna c2 in
  let l1 := percentile_2_5 v1 in
  let h1 := percentile_97_5 v1 in
  let l2 := percentile_2_5 v2 in
  let h2 := percentile_97_5 v2 in
  exists r,
    get_stats_and_rating df_intra df_inter metric = Some r
    /\ (rating_stars r <> NoStar <-> Rmax l1 l2 > Rmin h1 h2)
    /\ (rating_stars r <> NoStar
        <-> check_interval_overlap l1 h1 l2 h2 = false)
    /\ (rating_stars r = TwoStars \/ rating_stars r = ThreeStars
        <-> Rmax l1 l2 > Rmin h1 h2
            /\ Rmax (np_min v1) (np_min v2) > Rmin (np_max v1) (np_max v2))
    /\ (rating_stars r = ThreeStars
        <-> Rmax l1 l2 > Rmin h1 h2
            /\ Rmax (np_min v1) (np_min v2) > Rmin (np_max v1) (np_max v2)
            /\ Rmax (np_min v1 - np_max v2) (np_min v2 - np_max v1)
               > np_std v1 + np_std v2).
Proof.
  intros E1 E2 N1 N2 v1 v2 l1 h1 l2 h2.
  destruct (get_stats_and_rating_some _ _ _ _ _ E1 E2 N1 N2) as [r [Hr Hs]].
  exists r. split; [exact Hr|]. rewrite Hs.
  pose proof (star_rating_spec l1 h1 (np_min v1) (np_max v1) (np_std v1)
                l2 h2 (np_min v2) (np_max v2) (np_std v2)
                (np_min_le_np_max v1) (np_min_le_np_max v2))
    as [HA [HB HC]].
  split; [exact HA|]. split; [|split; [exact HB|exact HC]].
  rewrite check_interval_overlap_false. exact HA.
Qed.

Lemma tiered_significance_witness :
  let v1 := dropna [Num 1; Num 2] in
  let v2 := dropna [Num 5; NaN; Num 6] in
  let l1 := percentile_2_5 v1 in
  let h1 := percentile_97_5 v1 in
  let l2 := percentile_2_5 v2 in
  let h2 := percentile_97_5 v2 in
  exists r,
    get_stats_and_rating sample_df_intra sample_df_inter "SSIM" = Some r
    /\ (rating_stars r <> NoStar <-> Rmax l1 l2 > Rmin h1 h2)
    /\ (rating_stars r <> NoStar
        <-> check_interval_overlap l1 h1 l2 h2 = false)
    /\ (rating_stars r = TwoStars \/ rating_stars r = ThreeStars
        <-> Rmax l1 l2 > Rmin h1 h2
            /\ Rmax (np_min v1) (np_min v2) > Rmin (np_max v1) (np_max v2))
    /\ (rating_stars r = ThreeStars
        <-> Rmax l1 l2 > Rmin h1 h2
            /\ Rmax (np_min v1) (np_min v2) > Rmin (np_max v1) (np_max v2)
            /\ Rmax (np_min v1 - np_max v2) (np_min v2 - np_max v1)
               > np_std v1 + np_std v2).
Proof.
  apply (tiered_significance sample_df_intra sample_df_inter "SSIM"
           [Num 1; Num 2] [Num 5; NaN; Num 6]).
  - reflexivity.
  - reflexivity.
  - simpl. discriminate.
  - simpl. discriminate.
Defined.

(** C9. A non-empty value list compared against itself gets the verdict
    None: its percentile interval overlaps itself, so the classifier awards
    no star and [run_analysis] sets no diagnostic-power flag, whatever the
    tags are. *)
Theorem self_comparison_none (df : DataFrame) (metric : string)
        (col : list score) :
  column df metric = Some col ->
  dropna col <> [] ->
  (exists r, get_stats_and_rating df df metric = Some r
             /\ rating_stars r = NoStar)
  /\ check_interval_overlap
       (percentile_2_5 (dropna col)) (percentile_97_5 (dropna col))
       (percentile_2_5 (dropna col)) (percentile_97_5 (dropna col)) = true
  /\ forall tag base_tag,
       diagnostic_power tag base_tag (baseline_entry (Some (dropna col)))
                        (dropna col) = false.
Proof.
  intros E N.
  pose proof (percentile_interval_ordered (dropna col) N) as Hord.
  assert (Hov : check_interval_overlap
                  (percentile_2_5 (dropna col)) (percentile_97_5 (dropna col))
                  (percentile_2_5 (dropna col)) (percentile_97_5 (dropna col))
                = true).
  { unfold check_interval_overlap.
    destruct (Rle_dec _ _) as [_|Hn]; [reflexivity|].
    exfalso. apply Hn. unfold Rmax, Rmin.
    destruct (Rle_dec _ _); destruct (Rle_dec _ _); lra. }
  split; [|split].
  - destruct (get_stats_and_rating_some _ _ _ _ _ E E N N) as [r [Hr Hs]].
    exists r. split; [exact Hr|]. rewrite Hs. unfold star_rating.
    assert (HR : Rleb (Rmax (percentile_2_5 (dropna col))
                            (percentile_2_5 (dropna col)))
                      (Rmin (percentile_97_5 (dropna col))
                            (percentile_97_5 (dropna col))) = true).
    { apply Rleb_true. unfold Rmax, Rmin.
      destruct (Rle_dec _ _); destruct (Rle_dec _ _); lra. }
    rewrite HR. reflexivity.
  - exact Hov.
  - intros tag base_tag. unfold diagnostic_power, baseline_entry.
    destruct (dropna col) as [|x v] eqn:D; [congruence|].
    destruct (negb (tag =? base_tag)%string); [|reflexivity].
    rewrite Hov. reflexivity.
Qed.

Lemma self_comparison_none_witness :
  (exists r, get_stats_and_rating sample_df_intra sample_df_intra "SSIM"
             = Some r
             /\ rating_stars r = NoStar)
  /\ check_interval_overlap
       (percentile_2_5 (dropna [Num 1; Num 2]))
       (percentile_97_5 (dropna [Num 1; Num 2]))
       (percentile_2_5 (dropna [Num 1; Num 2]))
       (percentile_97_5 (dropna [Num 1; Num 2])) = true
  /\ forall tag base_tag,
       diagnostic_power tag base_tag
                        (baseline_entry (Some (dropna [Num 1; Num 2])))
                        (dropna [Num 1; Num 2]) = false.
Proof.
  apply (self_comparison_none sample_df_intra "SSIM" [Num 1; Num 2]).
  - reflexivity.
  - simpl. discriminate.
Defined.

(** ** Similarity evaluation: shape mismatch *)

Lemma shape_eqb_false (s1 s2 : nat * nat) :
  s1 <> s2 -> shape_eqb s1 s2 = false.
Proof.
  destruct s1 as [a b], s2 as [c d]. intros H. unfold shape_eqb. simpl.
  destruct (Nat.eqb_spec a c) as [->|]; [|reflexivity].
  destruct (Nat.eqb_spec b d) as [->|]; [congruence|reflexivity].
Qed.

Definition metric_names : list string :=
  ["MSE"; "PSNR"; "SSIM"; "VIF"; "MS-SSIM"; "LPIPS"]%string.

Lemma all_metrics_of_keys (E : Collaborators) (a b : image) (d : dict) :
  all_metrics_of E a b = Some d -> keys d = metric_names.
Proof.
  unfold all_metrics_of.
  destruct (mse E a b); [|discriminate].
  destruct (psnr E a b); [|discriminate].
  destruct (ssim E a b); [|discriminate].
  destruct (SEWAR_AVAILABLE E), (LPIPS_AVAILABLE E);
    intros H; injection H as <-; reflexivity.
Qed.

(** C5, as the code has it.  On two images of different shapes
    [calc_pair_metrics] returns the empty dict, without any score.
    [calculate_all_metrics] does not: it resizes the target image to the
    shape of the reference image and scores that pair, and whenever it
    returns a result the result has an entry for each of the six metrics. *)
Theorem shape_mismatch_policy (E : Collaborators) (p1 p2 : string)
        (i1 i2 : image) :
  imread E p1 = Some i1 -> imread E p2 = Some i2 ->
  shape i1 <> shape i2 ->
  calc_pair_metrics E p1 p2 = []
  /\ calculate_all_metrics E p1 p2
     = (if negb (path_exists E p1) || negb (path_exists E p2) then None
        else match resize E i2 (shape i1) with
             | None => None
             | Some resized => all_metrics_of E i1 resized
             end)
  /\ forall d, calculate_all_metrics E p1 p2 = Some d ->
               keys d = metric_names.
Proof.
  intros H1 H2 Hs.
  assert (Hcalc : calculate_all_metrics E p1 p2
     = (if negb (path_exists E p1) || negb (path_exists E p2) then None
        else match resize E i2 (shape i1) with
             | None => None
             | Some resized => all_metrics_of E i1 resized
             end)).
  { unfold calculate_all_metrics. rewrite H1, H2.
    rewrite (shape_eqb_false _ _ Hs). reflexivity. }
  split; [|split].
  - unfold calc_pair_metrics. rewrite H1, H2.
    rewrite (shape_eqb_false _ _ Hs). reflexivity.
  - exact Hcalc.
  - intros d Hd. rewrite Hcalc in Hd.
    destruct (negb (path_exists E p1) || negb (path_exists E p2));
      [discriminate|].
    destruct (resize E i2 (shape i1)) as [t|]; [|discriminate].
    now apply all_metrics_of_keys in Hd.
Qed.

Lemma shape_mismatch_policy_witness :
  calc_pair_metrics demo_env "ref.png" "target.png" = []
  /\ calculate_all_metrics demo_env "ref.png" "target.png"
     = (if negb (path_exists demo_env "ref.png")
           || negb (path_exists demo_env "target.png") then None
        else match resize demo_env demo_target (shape demo_ref) with
             | None => None
             | Some resized => all_metrics_of demo_env demo_ref resized
             end)
  /\ forall d, calculate_all_metrics demo_env "ref.png" "target.png" = Some d
               -> keys d = metric_names.
Proof.
  apply (shape_mismatch_policy demo_env "ref.png" "target.png"
           demo_ref demo_target).
  - reflexivity.
  - reflexivity.
  - unfold shape. simpl. discriminate.
Defined.

(** C5, as stated, fails for [calculate_all_metrics]: with a 7 x 7
    reference and a 7 x 8 target, both large enough for every standard
    metric, it resizes the target and returns a result with all six
    entries, the first one a number. *)
Lemma shape_mismatch_counterexample :
  exists i1 i2 d v,
    imread demo_env "ref.png" = Some i1
    /\ imread demo_env "target.png" = Some i2
    /\ shape i1 = (7, 7)%nat
    /\ shape i2 = (7, 8)%nat
    /\ shape i1 <> shape i2
    /\ calculate_all_metrics demo_env "ref.png" "target.png" = Some d
    /\ keys d = metric_names
    /\ dict_get d "MSE" = Some (Num v).
Proof.
  eexists. eexists. eexists. eexists.
  split; [reflexivity|]. split; [reflexivity|].
  split; [reflexivity|]. split; [reflexivity|].
  split; [unfold shape; simpl; discriminate|].
  split; [reflexivity|]. split; reflexivity.
Qed.

(** ** Similarity evaluation: 8-bit quantisation *)

Lemma astype_uint8_floor (x : R) :
  0 <= x <= 255 ->
  astype_uint8 x = Int_part x
  /\ (0 <= astype_uint8 x <= 255)%Z
  /\ IZR (astype_uint8 x) <= x < IZR (astype_uint8 x) + 1.
Proof.
  intros [H0 H255].
  destruct (base_Int_part x) as [Hle Hgt].
  assert (Hlo : (0 <= Int_part x)%Z).
  { assert (Hlt : (-1 < Int_part x)%Z) by (apply lt_IZR; lra). lia. }
  assert (Hhi : (Int_part x <= 255)%Z) by (apply le_IZR; lra).
  assert (E : astype_uint8 x = Int_part x).
  { unfold astype_uint8, trunc. destruct (Rlt_dec x 0); [lra|].
    apply Z.mod_small. lia. }
  rewrite E. split; [reflexivity|]. split; [lia|lra].
Qed.

Lemma quantize_nth (fl : R -> R) (a : image) (i j : nat) :
  (i < length a)%nat -> (j < length (nth i a []))%nat ->
  nth j (nth i (quantize fl a) []) 0%Z = astype_uint8 (fl (get a i j * 255)).
Proof.
  intros Hi Hj. unfold quantize, get.
  rewrite (nth_indep _ [] (map (fun x => astype_uint8 (fl (x * 255))) []))
    by (rewrite length_map; exact Hi).
  rewrite map_nth.
  rewrite (nth_indep _ 0%Z (astype_uint8 (fl (0 * 255))))
    by (rewrite length_map; exact Hj).
  now rewrite (map_nth (fun x => astype_uint8 (fl (x * 255)))).
Qed.

Lemma rounded_product_range (fl : R -> R) (x : R) :
  rounding_ok fl -> 0 <= x <= 1 -> 0 <= fl (x * 255) <= 255.
Proof.
  intros [Hmono [H0 H255]] [Hx0 Hx1]. split.
  - rewrite <- H0. apply Hmono. lra.
  - rewrite <- H255 at 2. apply Hmono. lra.
Qed.

Lemma Int_part_IZR (k : Z) : Int_part (IZR k) = k.
Proof. symmetry. apply Int_part_spec. lra. Qed.

(** C6, as the code has it.  The byte that [(img * 255).astype(np.uint8)]
    gives for a pixel with value in [0, 1] is the integer part of the
    floating-point product [value * 255]: the fraction is dropped, not
    rounded to the nearest integer.  The byte lies between 0 and 255, and a
    product that is exactly the integer [k] gives the byte [k]. *)
Theorem quantize_truncates (fl : R -> R) (a : image) (i j : nat) :
  rounding_ok fl ->
  (i < length a)%nat -> (j < length (nth i a []))%nat ->
  0 <= get a i j <= 1 ->
  nth j (nth i (quantize fl a) []) 0%Z = Int_part (fl (get a i j * 255))
  /\ (0 <= nth j (nth i (quantize fl a) []) 0 <= 255)%Z
  /\ IZR (nth j (nth i (quantize fl a) []) 0%Z) <= fl (get a i j * 255)
     < IZR (nth j (nth i (quantize fl a) []) 0%Z) + 1
  /\ forall k, fl (get a i j * 255) = IZR k ->
               nth j (nth i (quantize fl a) []) 0%Z = k.
Proof.
  intros Hfl Hi Hj Hv. rewrite quantize_nth by assumption.
  destruct (astype_uint8_floor (fl (get a i j * 255))
              (rounded_product_range fl _ Hfl Hv)) as [E [Hr Hb]].
  split; [exact E|]. split; [exact Hr|]. split; [exact Hb|].
  intros k Hk. rewrite E, Hk. apply Int_part_IZR.
Qed.

Lemma exact_rounding_ok : rounding_ok (fun x => x).
Proof. unfold rounding_ok. repeat split; auto. Qed.

Lemma quantize_truncates_witness :
  nth 0 (nth 0 (quantize (float_round demo_env) bright_pixel) []) 0%Z
  = Int_part (float_round demo_env (get bright_pixel 0 0 * 255))
  /\ (0 <= nth 0 (nth 0 (quantize (float_round demo_env) bright_pixel) []) 0
      <= 255)%Z
  /\ IZR (nth 0 (nth 0 (quantize (float_round demo_env) bright_pixel) []) 0%Z)
     <= float_round demo_env (get bright_pixel 0 0 * 255)
     < IZR (nth 0 (nth 0 (quantize (float_round demo_env) bright_pixel) [])
                0%Z) + 1
  /\ forall k, float_round demo_env (get bright_pixel 0 0 * 255) = IZR k ->
               nth 0 (nth 0 (quantize (float_round demo_env) bright_pixel) [])
                   0%Z = k.
Proof.
  apply (quantize_truncates (float_round demo_env) bright_pixel 0 0).
  - exact exact_rounding_ok.
  - simpl. lia.
  - simpl. lia.
  - unfold get, bright_pixel. simpl. lra.
Defined.

(** The byte of the pixel value 0.999 under any rounding that moves the
    product [254.745] by at most 0.1, as float32 and float64 do. *)
Lemma quantize_bright_pixel (fl : R -> R) :
  Rabs (fl (0.999 * 255) - 0.999 * 255) <= 0.1 ->
  nth 0 (nth 0 (quantize fl bright_pixel) []) 0%Z = 254%Z
  /\ is_round (fl (0.999 * 255)) 255
  /\ ~ is_round (fl (0.999 * 255)) 254.
Proof.
  intros Herr.
  assert (Hy : 254.6 <= fl (0.999 * 255) <= 254.9).
  { revert Herr. unfold Rabs. destruct (Rcase_abs _); intros; lra. }
  split; [|split].
  - rewrite quantize_nth by (simpl; lia).
    unfold get, bright_pixel. simpl nth.
    destruct (astype_uint8_floor (fl (0.999 * 255))) as [E _]; [lra|].
    rewrite E. symmetry. apply Int_part_spec. lra.
  - unfold is_round, Rabs. destruct (Rcase_abs _); lra.
  - unfold is_round, Rabs. destruct (Rcase_abs _); lra.
Qed.

(** C6, as stated, fails: the pixel value 0.999 gives the product
    [254.745], which is quantised to 254, while [round] gives 255. *)
Lemma quantize_round_counterexample :
  0 <= get bright_pixel 0 0 <= 1
  /\ rounding_ok (float_round demo_env)
  /\ nth 0 (nth 0 (quantize (float_round demo_env) bright_pixel) []) 0%Z
     = 254%Z
  /\ is_round (float_round demo_env (get bright_pixel 0 0 * 255)) 255
  /\ ~ is_round (float_round demo_env (get bright_pixel 0 0 * 255))
               (nth 0 (nth 0 (quantize (float_round demo_env) bright_pixel)
                           []) 0%Z).
Proof.
  destruct (quantize_bright_pixel (float_round demo_env)) as [Hq [H1 H2]].
  { simpl. unfold Rabs. destruct (Rcase_abs _); lra. }
  split; [unfold get, bright_pixel; simpl; lra|].
  split; [exact exact_rounding_ok|]. split; [exact Hq|].
  rewrite Hq. unfold get, bright_pixel. simpl nth. split; assumption.
Qed.

(** In [calc_pair_metrics] the two sewar metrics are fed the quantised
    images. *)
Lemma sewar_inputs_quantized (E : Collaborators) (p1 p2 : string)
      (i1 i2 : image) (a b c : R) :
  imread E p1 = Some i1 -> imread E p2 = Some i2 ->
  shape i1 = shape i2 ->
  mse E i1 i2 = Some a -> psnr E i1 i2 = Some b -> ssim E i1 i2 = Some c ->
  SEWAR_AVAILABLE E = true ->
  dict_get (calc_pair_metrics E p1 p2) "VIF"
  = Some (or_nan (vifp E (quantize (float_round E) i1)
                         (quantize (float_round E) i2)))
  /\ dict_get (calc_pair_metrics E p1 p2) "MS-SSIM"
     = Some (or_nan (msssim E (quantize (float_round E) i1)
                              (quantize (float_round E) i2))).
Proof.
  intros H1 H2 Hs Ha Hb Hc Hsw. unfold calc_pair_metrics.
  rewrite H1, H2, Hs.
  assert (Hrefl : shape_eqb (shape i2) (shape i2) = true).
  { unfold shape_eqb. now rewrite !Nat.eqb_refl. }
  rewrite Hrefl. simpl negb. cbv iota.
  rewrite Ha, Hb, Hc, Hsw.
  destruct (LPIPS_AVAILABLE E); [destruct (lpips E i1 i2)|];
    split; reflexivity.
Qed.

(* ================================================================== *)
(** * Part III: further properties of the code *)
(* ================================================================== *)

(** ** Pairing policy for the Inter and Cross tags *)

Lemma partners_not_Intra (c_type : string) (d len_a len_b i j : Z) :
  c_type <> "Intra"%string ->
  (In j (partners c_type d len_a len_b i)
   <-> (Z.max 0 (i - d) <= j <= Z.min (len_b - 1) (i + d))%Z /\ j <> i).
Proof.
  intros Hc. unfold partners, j_range.
  destruct (String.eqb_spec c_type "Intra") as [E|_]; [contradiction|].
  rewrite filter_In, In_py_range. simpl.
  destruct (Z.eqb_spec i j) as [E|E]; simpl; split.
  - intros [_ H]. discriminate.
  - intros [_ H]. congruence.
  - intros [H _]. split; [lia|congruence].
  - intros [H _]. split; [lia|reflexivity].
Qed.

(** X1. Under a tag other than Intra, source index [i] is paired with
    exactly the indices [max(0, i-d) .. min(M-1, i+d)] of the other
    sequence except [i] itself, each once. *)
Theorem inter_cross_pairing_band (c_type : string) (d len_a len_b i : Z) :
  c_type <> "Intra"%string ->
  (forall j, In j (partners c_type d len_a len_b i)
             <-> (Z.max 0 (i - d) <= j <= Z.min (len_b - 1) (i + d))%Z
                 /\ j <> i)
  /\ NoDup (partners c_type d len_a len_b i).
Proof.
  intros Hc. split.
  - intros j. now apply partners_not_Intra.
  - unfold partners. apply NoDup_filter. unfold j_range.
    destruct (c_type =? "Intra")%string; apply NoDup_py_range.
Qed.

Lemma inter_cross_pairing_band_witness :
  (forall j, In j (partners "Inter" NEIGHBOR_DEPTH 10 10 2)
             <-> (Z.max 0 (2 - NEIGHBOR_DEPTH) <= j
                  <= Z.min (10 - 1) (2 + NEIGHBOR_DEPTH))%Z
                 /\ j <> 2%Z)
  /\ NoDup (partners "Inter" NEIGHBOR_DEPTH 10 10 2).
Proof.
  apply (inter_cross_pairing_band "Inter" NEIGHBOR_DEPTH 10 10 2).
  discriminate.
Defined.

(** X2. Every index that the inner loop passes to [files_b[j]] is a valid
    index: for a source index [0 <= i < len(files_a)] an Intra partner lies
    in [i+1 .. len(files_a)-1] and a partner under any other tag lies in
    [0 .. len(files_b)-1], whatever the neighbour depth is. *)
Theorem partner_index_in_bounds (c_type : string) (d len_a len_b i j : Z) :
  (0 <= i < len_a)%Z ->
  In j (partners c_type d len_a len_b i) ->
  if String.eqb c_type "Intra" then (i < j < len_a)%Z
  else (0 <= j < len_b)%Z.
Proof.
  intros Hi Hj. destruct (String.eqb_spec c_type "Intra") as [->|Hc].
  - rewrite partners_Intra, In_py_range in Hj. lia.
  - apply (partners_not_Intra c_type d len_a len_b i j Hc) in Hj. lia.
Qed.

Lemma partner_index_in_bounds_witness :
  if String.eqb "Cross" "Intra" then (3 < 0 < 10)%Z else (0 <= 0 < 4)%Z.
Proof.
  apply (partner_index_in_bounds "Cross" NEIGHBOR_DEPTH 10 4 3 0).
  - lia.
  - vm_compute. left. reflexivity.
Defined.

Lemma py_range_length (a b : Z) :
  length (py_range a b) = Z.to_nat (b - a).
Proof. unfold py_range. now rewrite length_map, length_seq. Qed.

(** X3. Under the Intra tag with a non-negative neighbour depth, source
    index [i] of a sequence of length [N] gets [min(d, N-1-i)] partners,
    and the pairing never takes a pair twice: when [j] is a partner of [i],
    [i] is not a partner of [j]. *)
Theorem intra_partner_count (d N M i : Z) :
  (0 <= d)%Z -> (0 <= i < N)%Z ->
  length (partners "Intra" d N M i) = Z.to_nat (Z.min d (N - 1 - i))
  /\ forall j, In j (partners "Intra" d N M i) ->
               ~ In i (partners "Intra" d N M j).
Proof.
  intros Hd Hi. split.
  - rewrite partners_Intra, py_range_length. f_equal. lia.
  - intros j Hj Hji.
    rewrite partners_Intra, In_py_range in Hj, Hji. lia.
Qed.

Lemma intra_partner_count_witness :
  length (partners "Intra" NEIGHBOR_DEPTH 10 10 7)
  = Z.to_nat (Z.min NEIGHBOR_DEPTH (10 - 1 - 7))
  /\ forall j, In j (partners "Intra" NEIGHBOR_DEPTH 10 10 7) ->
               ~ In 7%Z (partners "Intra" NEIGHBOR_DEPTH 10 10 j).
Proof.
  apply (intra_partner_count NEIGHBOR_DEPTH 10 10 7).
  - unfold NEIGHBOR_DEPTH. lia.
  - lia.
Defined.

(** X4. Under a tag other than Intra and between two sequences of one
    length, the pairing is symmetric: [j] is a partner of [i] exactly when
    [i] is a partner of [j], so each unordered pair of distinct neighbours
    is scored in both orders. *)
Theorem inter_cross_pairing_symmetric (c_type : string) (d len i j : Z) :
  c_type <> "Intra"%string ->
  (0 <= i < len)%Z -> (0 <= j < len)%Z ->
  (In j (partners c_type d len len i) <-> In i (partners c_type d len len j)).
Proof.
  intros Hc Hi Hj. rewrite !partners_not_Intra by exact Hc.
  split; intros [H1 H2]; split; try lia; congruence.
Qed.

Lemma inter_cross_pairing_symmetric_witness :
  In 4%Z (partners "Cross" NEIGHBOR_DEPTH 10 10 1)
  <-> In 1%Z (partners "Cross" NEIGHBOR_DEPTH 10 10 4).
Proof.
  apply (inter_cross_pairing_symmetric "Cross" NEIGHBOR_DEPTH 10 1 4).
  - discriminate.
  - lia.
  - lia.
Defined.

(** ** Comparison tags and folder pairs *)

(** X5. The comparison type does not depend on the order of the two
    folders, and for an Inter pair the tag is the same in both orders: it
    names the folder that is not the reference set. *)
Theorem comparison_type_symmetric (reference_set name_a name_b : string) :
  c_type_of reference_set name_a name_b
  = c_type_of reference_set name_b name_a
  /\ (c_type_of reference_set name_a name_b = "Inter"%string ->
      snd (classify_pair reference_set name_a name_b)
      = snd (classify_pair reference_set name_b name_a)
      /\ (name_a = reference_set ->
          snd (classify_pair reference_set name_a name_b)
          = ("Inter_" ++ name_b)%string)
      /\ (name_b = reference_set ->
          snd (classify_pair reference_set name_a name_b)
          = ("Inter_" ++ name_a)%string)).
Proof.
  unfold c_type_of, classify_pair.
  destruct (String.eqb_spec name_a name_b) as [Hab|Hab];
    destruct (String.eqb_spec name_b name_a) as [Hba|Hba];
    try congruence;
    destruct (String.eqb_spec name_a reference_set) as [Har|Har];
    destruct (String.eqb_spec name_b reference_set) as [Hbr|Hbr];
    simpl; try congruence;
    (split; [reflexivity|]); intros H; try discriminate;
    repeat split; intros; try reflexivity; congruence.
Qed.

Lemma In_list_remove (x y : string) (l : list string) :
  In y (list_remove x l) -> In y l.
Proof.
  induction l as [|z t IH]; simpl; [auto|].
  destruct (String.eqb_spec z x); simpl; intros H; [auto|].
  destruct H; auto.
Qed.

Lemma In_list_remove_other (x y : string) (l : list string) :
  In y l -> y <> x -> In y (list_remove x l).
Proof.
  induction l as [|z t IH]; simpl; [auto|].
  intros [H|H] Hne; destruct (String.eqb_spec z x); subst; simpl; auto.
  contradiction.
Qed.

Lemma list_remove_NoDup (x : string) (l : list string) :
  NoDup l -> NoDup (list_remove x l) /\ ~ In x (list_remove x l).
Proof.
  induction 1 as [|z t Hz Ht IH]; simpl.
  - split; [constructor|auto].
  - destruct (String.eqb_spec z x) as [->|Hne].
    + split; assumption.
    + destruct IH as [IH1 IH2]. split.
      * constructor; [|exact IH1]. intros H. apply Hz.
        now apply In_list_remove in H.
      * intros [H|H]; [congruence|contradiction].
Qed.

Lemma list_remove_length (x : string) (l : list string) :
  In x l -> S (length (list_remove x l)) = length l.
Proof.
  induction l as [|z t IH]; simpl; [contradiction|].
  intros H. destruct (String.eqb_spec z x) as [->|Hne]; [reflexivity|].
  simpl. f_equal. apply IH. destruct H; [contradiction|assumption].
Qed.

Lemma existsb_eqb_In (x : string) (l : list string) :
  existsb (String.eqb x) l = true <-> In x l.
Proof.
  rewrite existsb_exists. split.
  - intros [y [Hy E]]. apply String.eqb_eq in E. now subst.
  - intros H. exists x. split; [exact H|apply String.eqb_refl].
Qed.

Lemma order_folders_In (ref : string) (l : list string) (x : string) :
  In x (order_folders ref l) <-> In x l.
Proof.
  unfold order_folders.
  destruct (existsb (String.eqb ref) l) eqn:E; [|reflexivity].
  apply existsb_eqb_In in E. split.
  - intros [<-|H]; [exact E|]. now apply In_list_remove in H.
  - intros H. destruct (string_dec x ref) as [->|Hne]; [now left|].
    right. now apply In_list_remove_other.
Qed.

Lemma order_folders_length (ref : string) (l : list string) :
  length (order_folders ref l) = length l.
Proof.
  unfold order_folders.
  destruct (existsb (String.eqb ref) l) eqn:E; [|reflexivity].
  apply existsb_eqb_In in E. simpl. now apply list_remove_length.
Qed.

Lemma In_combinations {A : Type} (l : list A) (a b : A) :
  In (a, b) (combinations_with_replacement2 l) -> In a l /\ In b l.
Proof.
  induction l as [|x t IH]; simpl; [contradiction|].
  intros [H|H].
  - injection H as <- <-. split; now left.
  - apply in_app_or in H. destruct H as [H|H].
    + apply in_map_iff in H. destruct H as [y [E Hy]].
      injection E as <- <-. split; [now left|now right].
    + destruct (IH H). split; now right.
Qed.

Lemma combinations_cover {A : Type} (l : list A) (a b : A) :
  In a l -> In b l ->
  In (a, b) (combinations_with_replacement2 l)
  \/ In (b, a) (combinations_with_replacement2 l).
Proof.
  induction l as [|x t IH]; [contradiction|].
  intros Ha Hb.
  change (combinations_with_replacement2 (x :: t))
    with (map (pair x) (x :: t) ++ combinations_with_replacement2 t).
  destruct Ha as [<-|Ha].
  - left. apply in_or_app. left. now apply in_map.
  - destruct Hb as [<-|Hb].
    + right. apply in_or_app. left. apply in_map. now right.
    + destruct (IH Ha Hb) as [H|H]; [left|right];
        apply in_or_app; now right.
Qed.

Lemma combinations_length {A : Type} (l : list A) :
  (2 * length (combinations_with_replacement2 l)
   = length l * (length l + 1))%nat.
Proof.
  induction l as [|x t IH]; [reflexivity|].
  change (combinations_with_replacement2 (x :: t))
    with (map (pair x) (x :: t) ++ combinations_with_replacement2 t).
  rewrite length_app, length_map. simpl length. lia.
Qed.

(** X6. The folder pairs of [run_analysis] take every unordered pair of
    discovered folders, a folder with itself included, exactly as often as
    the triangular number says: each pair of folders occurs in one order
    or the other, every pair is made of discovered folders, and [n]
    folders give [n * (n + 1) / 2] pairs. *)
Theorem folder_pairs_cover (reference_set : string)
        (all_folders : list string) :
  (forall a b, In (a, b) (folder_pairs reference_set all_folders) ->
               In a all_folders /\ In b all_folders)
  /\ (forall a b, In a all_folders -> In b all_folders ->
                  In (a, b) (folder_pairs reference_set all_folders)
                  \/ In (b, a) (folder_pairs reference_set all_folders))
  /\ (2 * length (folder_pairs reference_set all_folders)
      = length all_folders * (length all_folders + 1))%nat.
Proof.
  unfold folder_pairs. split; [|split].
  - intros a b H. apply In_combinations in H.
    now rewrite !order_folders_In in H.
  - intros a b Ha Hb. apply combinations_cover; now apply order_folders_In.
  - now rewrite combinations_length, order_folders_length.
Qed.

(** X7. When the folder names are distinct and the reference set is among
    them, it is the first member of every pair it occurs in: the first pair
    is the baseline pair (reference, reference), no pair has the reference
    set in second place with another folder in first place, and every
    Inter pair is tagged after its second folder. *)
Theorem reference_set_leads_pairs (reference_set : string)
        (all_folders : list string) :
  NoDup all_folders -> In reference_set all_folders ->
  hd_error (folder_pairs reference_set all_folders)
  = Some (reference_set, reference_set)
  /\ (forall a b, In (a, b) (folder_pairs reference_set all_folders) ->
                  b = reference_set -> a = reference_set)
  /\ (forall a b, In (a, b) (folder_pairs reference_set all_folders) ->
                  c_type_of reference_set a b = "Inter"%string ->
                  classify_pair reference_set a b
                  = ("Inter", "Inter_" ++ b)%string).
Proof.
  intros Hnd Hin.
  assert (Hord : order_folders reference_set all_folders
                 = reference_set :: list_remove reference_set all_folders).
  { unfold order_folders.
    now rewrite (proj2 (existsb_eqb_In reference_set all_folders) Hin). }
  destruct (list_remove_NoDup reference_set all_folders Hnd) as [_ Hnot].
  assert (Hsecond : forall a b,
             In (a, b) (folder_pairs reference_set all_folders) ->
             b = reference_set -> a = reference_set).
  { intros a b H ->. unfold folder_pairs in H. rewrite Hord in H.
    change (combinations_with_replacement2
              (reference_set :: list_remove reference_set all_folders))
      with (map (pair reference_set)
                (reference_set :: list_remove reference_set all_folders)
            ++ combinations_with_replacement2
                 (list_remove reference_set all_folders)) in H.
    apply in_app_or in H. destruct H as [H|H].
    - apply in_map_iff in H. destruct H as [y [E _]]. congruence.
    - apply In_combinations in H. destruct H as [_ H]. contradiction. }
  split; [|split].
  - unfold folder_pairs. rewrite Hord. reflexivity.
  - exact Hsecond.
  - intros a b H Hc. specialize (Hsecond a b H).
    revert Hc. unfold c_type_of, classify_pair.
    destruct (String.eqb_spec a b) as [Hab|Hab]; [discriminate|].
    destruct (String.eqb_spec a reference_set) as [Har|Har];
      [reflexivity|].
    destruct (String.eqb_spec b reference_set) as [Hbr|Hbr];
      [|discriminate].
    specialize (Hsecond Hbr). contradiction.
Qed.

Lemma reference_set_leads_pairs_witness :
  hd_error (folder_pairs REFERENCE_SET
              ["Macro_Thin"; "Meso_Amp"; "Meso_Both"]%string)
  = Some (REFERENCE_SET, REFERENCE_SET)
  /\ (forall a b,
         In (a, b) (folder_pairs REFERENCE_SET
                      ["Macro_Thin"; "Meso_Amp"; "Meso_Both"]%string) ->
         b = REFERENCE_SET -> a = REFERENCE_SET)
  /\ (forall a b,
         In (a, b) (folder_pairs REFERENCE_SET
                      ["Macro_Thin"; "Meso_Amp"; "Meso_Both"]%string) ->
         c_type_of REFERENCE_SET a b = "Inter"%string ->
         classify_pair REFERENCE_SET a b = ("Inter", "Inter_" ++ b)%string).
Proof.
  apply (reference_set_leads_pairs REFERENCE_SET
           ["Macro_Thin"; "Meso_Amp"; "Meso_Both"]%string).
  - repeat constructor; simpl; intuition discriminate.
  - unfold REFERENCE_SET. simpl. auto.
Defined.

(** ** Interval overlap and percentile bounds *)

(** X8. [check_interval_overlap] answers true exactly when the two closed
    intervals have a point in common, and it does not depend on the order
    in which the two intervals are given. *)
Theorem check_interval_overlap_common_point (low1 high1 low2 high2 : R) :
  (check_interval_overlap low1 high1 low2 high2 = true
   <-> exists x, low1 <= x <= high1 /\ low2 <= x <= high2)
  /\ check_interval_overlap low1 high1 low2 high2
     = check_interval_overlap low2 high2 low1 high1.
Proof.
  split.
  - unfold check_interval_overlap.
    destruct (Rle_dec (Rmax low1 low2) (Rmin high1 high2)) as [H|H]; split.
    + intros _. exists (Rmax low1 low2).
      pose proof (Rmax_l low1 low2). pose proof (Rmax_r low1 low2).
      pose proof (Rmin_l high1 high2). pose proof (Rmin_r high1 high2).
      lra.
    + reflexivity.
    + discriminate.
    + intros [x [[H1 H2] [H3 H4]]]. exfalso. apply H.
      apply Rle_trans with x.
      * now apply Rmax_lub.
      * now apply Rmin_glb.
  - unfold check_interval_overlap.
    rewrite (Rmax_comm low1 low2), (Rmin_comm high1 high2). reflexivity.
Qed.

Lemma In_insert_sorted (x y : R) (l : list R) :
  In y (insert_sorted x l) <-> y = x \/ In y l.
Proof.
  induction l as [|z t IH]; simpl.
  - intuition.
  - destruct (Rle_dec x z); simpl; [intuition|]. rewrite IH. intuition.
Qed.

Lemma In_sort_values (y : R) (v : list R) :
  In y (sort_values v) <-> In y v.
Proof.
  induction v as [|x v IH]; simpl; [reflexivity|].
  rewrite In_insert_sorted, IH. intuition.
Qed.

Lemma fold_left_Rmin_lower (t : list R) (x y : R) :
  In y (x :: t) -> fold_left Rmin t x <= y.
Proof.
  revert x. induction t as [|z t IH]; intros x H; simpl.
  - destruct H as [->|[]]. lra.
  - destruct H as [<-|[<-|H]].
    + pose proof (fold_left_Rmin_le t (Rmin x z)).
      pose proof (Rmin_l x z). lra.
    + pose proof (fold_left_Rmin_le t (Rmin x z)).
      pose proof (Rmin_r x z). lra.
    + apply IH. now right.
Qed.

Lemma fold_left_Rmax_upper (t : list R) (x y : R) :
  In y (x :: t) -> y <= fold_left Rmax t x.
Proof.
  revert x. induction t as [|z t IH]; intros x H; simpl.
  - destruct H as [->|[]]. lra.
  - destruct H as [<-|[<-|H]].
    + pose proof (fold_left_Rmax_ge t (Rmax x z)).
      pose proof (Rmax_l x z). lra.
    + pose proof (fold_left_Rmax_ge t (Rmax x z)).
      pose proof (Rmax_r x z). lra.
    + apply IH. now right.
Qed.

Lemma np_min_lower (v : list R) (y : R) : In y v -> np_min v <= y.
Proof. destruct v as [|x t]; [contradiction|]. apply fold_left_Rmin_lower. Qed.

Lemma np_max_upper (v : list R) (y : R) : In y v -> y <= np_max v.
Proof. destruct v as [|x t]; [contradiction|]. apply fold_left_Rmax_upper. Qed.

Lemma fold_left_Rmin_In (t : list R) (x : R) :
  In (fold_left Rmin t x) (x :: t).
Proof.
  revert x. induction t as [|z t IH]; intros x; simpl; [now left|].
  destruct (IH (Rmin x z)) as [H|H].
  - rewrite <- H. unfold Rmin. destruct (Rle_dec x z); auto.
  - now right; right.
Qed.

Lemma fold_left_Rmax_In (t : list R) (x : R) :
  In (fold_left Rmax t x) (x :: t).
Proof.
  revert x. induction t as [|z t IH]; intros x; simpl; [now left|].
  destruct (IH (Rmax x z)) as [H|H].
  - rewrite <- H. unfold Rmax. destruct (Rle_dec x z); auto.
  - now right; right.
Qed.

(** The interpolated percentile lies between two order statistics. *)
Lemma np_percentile_between (v : list R) (num den : nat) :
  v <> [] -> (0 < den)%nat -> (num <= den)%nat ->
  exists a b, In a v /\ In b v /\ a <= np_percentile v num den <= b.
Proof.
  intros Hv Hden Hnum. unfold np_percentile.
  pose proof (sort_values_sorted v) as Hs.
  pose proof (sort_values_length v) as Hlen.
  assert (Hn : (0 < length v)%nat).
  { destruct v; [congruence|simpl; lia]. }
  set (n := length v) in *.
  set (k := ((n - 1) * num)%nat).
  assert (Hlo : (k / den <= n - 1)%nat).
  { apply Nat.Div0.div_le_upper_bound. unfold k. nia. }
  set (lo := (k / den)%nat) in *.
  set (hi := Nat.min (lo + 1) (n - 1)).
  assert (Hd : 0 < INR den) by (apply lt_0_INR; exact Hden).
  assert (Ht : 0 <= INR (k mod den) / INR den <= 1).
  { pose proof (Nat.mod_upper_bound k den ltac:(lia)) as Hm.
    pose proof (pos_INR (k mod den)) as H0.
    apply lt_INR in Hm. split.
    - apply Rmult_le_pos; [exact H0|]. apply Rlt_le, Rinv_0_lt_compat, Hd.
    - apply (Rmult_le_reg_r (INR den)); [exact Hd|].
      unfold Rdiv. rewrite Rmult_assoc, Rinv_l by lra. lra. }
  assert (Hle : nth lo (sort_values v) 0 <= nth hi (sort_values v) 0).
  { apply sorted_nth_le; [exact Hs|unfold hi; lia|unfold hi; lia]. }
  exists (nth lo (sort_values v) 0), (nth hi (sort_values v) 0).
  split; [|split].
  - apply In_sort_values. apply nth_In. lia.
  - apply In_sort_values. apply nth_In. unfold hi. lia.
  - set (t := INR (k mod den) / INR den) in *.
    set (x := nth lo (sort_values v) 0) in *.
    set (y := nth hi (sort_values v) 0) in *.
    split; nra.
Qed.

(** X9. A percentile of a non-empty sample, for a fraction between 0 and
    1, lies between the minimum and the maximum of the sample; so the
    [2.5, 97.5] interval sits inside the [min, max] range. *)
Theorem np_percentile_in_range (v : list R) (num den : nat) :
  v <> [] -> (0 < den)%nat -> (num <= den)%nat ->
  np_min v <= np_percentile v num den <= np_max v.
Proof.
  intros Hv Hden Hnum.
  destruct (np_percentile_between v num den Hv Hden Hnum)
    as [a [b [Ha [Hb [H1 H2]]]]].
  pose proof (np_min_lower v a Ha). pose proof (np_max_upper v b Hb).
  lra.
Qed.

Lemma np_percentile_in_range_witness :
  np_min [3; 1; 2] <= np_percentile [3; 1; 2] 39 40 <= np_max [3; 1; 2].
Proof.
  apply (np_percentile_in_range [3; 1; 2] 39 40).
  - discriminate.
  - lia.
  - lia.
Defined.

Lemma percentile_interval_in_range (v : list R) :
  v <> [] ->
  np_min v <= percentile_2_5 v /\ percentile_97_5 v <= np_max v.
Proof.
  intros Hv. unfold percentile_2_5, percentile_97_5.
  pose proof (np_percentile_in_range v 1 40 Hv ltac:(lia) ltac:(lia)).
  pose proof (np_percentile_in_range v 39 40 Hv ltac:(lia) ltac:(lia)).
  lra.
Qed.

(** X10. Separated [min, max] ranges force separated percentile
    intervals, so the first test of the classifier never blocks the second:
    the verdict is HighlySignificant or above exactly when the two ranges
    do not overlap. *)
Theorem range_separation_decides_two_stars (df_intra df_inter : DataFrame)
        (metric : string) (c1 c2 : list score) :
  column df_intra metric = Some c1 ->
  column df_inter metric = Some c2 ->
  dropna c1 <> [] -> dropna c2 <> [] ->
  exists r,
    get_stats_and_rating df_intra df_inter metric = Some r
    /\ (rating_stars r = TwoStars \/ rating_stars r = ThreeStars
        <-> Rmax (np_min (dropna c1)) (np_min (dropna c2))
            > Rmin (np_max (dropna c1)) (np_max (dropna c2))).
Proof.
  intros E1 E2 N1 N2.
  destruct (get_stats_and_rating_some _ _ _ _ _ E1 E2 N1 N2) as [r [Hr Hs]].
  exists r. split; [exact Hr|]. rewrite Hs.
  set (v1 := dropna c1) in *. set (v2 := dropna c2) in *.
  pose proof (star_rating_spec
                (percentile_2_5 v1) (percentile_97_5 v1)
                (np_min v1) (np_max v1) (np_std v1)
                (percentile_2_5 v2) (percentile_97_5 v2)
                (np_min v2) (np_max v2) (np_std v2)
                (np_min_le_np_max v1) (np_min_le_np_max v2))
    as [_ [HB _]].
  rewrite HB. split; [tauto|]. intros Hsep. split; [|exact Hsep].
  destruct (percentile_interval_in_range v1 N1) as [Hl1 Hh1].
  destruct (percentile_interval_in_range v2 N2) as [Hl2 Hh2].
  revert Hsep. unfold Rmax, Rmin.
  repeat destruct (Rle_dec _ _); lra.
Qed.

Lemma range_separation_decides_two_stars_witness :
  exists r,
    get_stats_and_rating sample_df_intra sample_df_inter "SSIM" = Some r
    /\ (rating_stars r = TwoStars \/ rating_stars r = ThreeStars
        <-> Rmax (np_min (dropna [Num 1; Num 2]))
                 (np_min (dropna [Num 5; NaN; Num 6]))
            > Rmin (np_max (dropna [Num 1; Num 2]))
                   (np_max (dropna [Num 5; NaN; Num 6]))).
Proof.
  apply (range_separation_decides_two_stars sample_df_intra sample_df_inter
           "SSIM" [Num 1; Num 2] [Num 5; NaN; Num 6]).
  - reflexivity.
  - reflexivity.
  - simpl. discriminate.
  - simpl. discriminate.
Defined.

(** ** The statistics do not depend on the order of the sample *)

Lemma insert_sorted_comm (x y : R) (l : list R) :
  insert_sorted x (insert_sorted y l) = insert_sorted y (insert_sorted x l).
Proof.
  induction l as [|z t IH]; simpl.
  - destruct (Rle_dec x y), (Rle_dec y x); try reflexivity; try lra.
    assert (x = y) by lra. now subst.
  - destruct (Rle_dec y z), (Rle_dec x z); simpl;
      repeat (destruct (Rle_dec _ _); simpl);
      try reflexivity; try lra;
      try (assert (x = y) by lra; subst; reflexivity).
    now rewrite IH.
Qed.

Lemma sort_values_Permutation (v v' : list R) :
  Permutation v v' -> sort_values v = sort_values v'.
Proof.
  induction 1 as [|x l l' _ IH|x y l|l l' l'' _ IH1 _ IH2]; simpl.
  - reflexivity.
  - now rewrite IH.
  - apply insert_sorted_comm.
  - congruence.
Qed.

Lemma Rsum_Permutation (v v' : list R) :
  Permutation v v' -> Rsum v = Rsum v'.
Proof.
  unfold Rsum.
  induction 1 as [|x l l' _ IH|x y l|l l' l'' _ IH1 _ IH2]; simpl;
    try lra.
Qed.

Lemma np_mean_Permutation (v v' : list R) :
  Permutation v v' -> np_mean v = np_mean v'.
Proof.
  intros P. unfold np_mean.
  now rewrite (Rsum_Permutation v v' P), (Permutation_length P).
Qed.

Lemma np_min_In (v : list R) : v <> [] -> In (np_min v) v.
Proof. destruct v as [|x t]; [congruence|]. intros _. apply fold_left_Rmin_In. Qed.

Lemma np_max_In (v : list R) : v <> [] -> In (np_max v) v.
Proof. destruct v as [|x t]; [congruence|]. intros _. apply fold_left_Rmax_In. Qed.

Lemma Permutation_nonempty {A : Type} (v v' : list A) :
  Permutation v v' -> v <> [] -> v' <> [].
Proof.
  intros P Hv E. subst v'. apply Permutation_sym, Permutation_nil in P.
  contradiction.
Qed.

Lemma np_min_Permutation (v v' : list R) :
  Permutation v v' -> np_min v = np_min v'.
Proof.
  intros P. destruct v as [|x t].
  - apply Permutation_nil in P. now subst.
  - assert (Hv : x :: t <> []) by discriminate.
    pose proof (Permutation_nonempty _ _ P Hv) as Hv'.
    pose proof (np_min_In _ Hv) as H1. pose proof (np_min_In _ Hv') as H2.
    apply (Permutation_in _ P) in H1.
    apply (Permutation_in _ (Permutation_sym P)) in H2.
    apply np_min_lower in H1. apply np_min_lower in H2. lra.
Qed.

Lemma np_max_Permutation (v v' : list R) :
  Permutation v v' -> np_max v = np_max v'.
Proof.
  intros P. destruct v as [|x t].
  - apply Permutation_nil in P. now subst.
  - assert (Hv : x :: t <> []) by discriminate.
    pose proof (Permutation_nonempty _ _ P Hv) as Hv'.
    pose proof (np_max_In _ Hv) as H1. pose proof (np_max_In _ Hv') as H2.
    apply (Permutation_in _ P) in H1.
    apply (Permutation_in _ (Permutation_sym P)) in H2.
    apply np_max_upper in H1. apply np_max_upper in H2. lra.
Qed.

Lemma np_std_Permutation (v v' : list R) :
  Permutation v v' -> np_std v = np_std v'.
Proof.
  intros P. unfold np_std. rewrite (np_mean_Permutation v v' P).
  f_equal. apply np_mean_Permutation. now apply Permutation_map.
Qed.

Lemma np_percentile_Permutation (v v' : list R) (num den : nat) :
  Permutation v v' -> np_percentile v num den = np_percentile v' num den.
Proof.
  intros P. unfold np_percentile.
  now rewrite (sort_values_Permutation v v' P), (Permutation_length P).
Qed.

Lemma dropna_Permutation (c c' : list score) :
  Permutation c c' -> Permutation (dropna c) (dropna c').
Proof. intros P. unfold dropna. now apply Permutation_flat_map. Qed.

(** X11. The result of [get_stats_and_rating] (means, error bars and star
    label) does not depend on the order of the rows of the two tables:
    reordering either metric column leaves it unchanged. *)
Theorem rating_row_order_irrelevant (df1 df1' df2 df2' : DataFrame)
        (metric : string) (c1 c1' c2 c2' : list score) :
  column df1 metric = Some c1 -> column df1' metric = Some c1' ->
  column df2 metric = Some c2 -> column df2' metric = Some c2' ->
  Permutation c1 c1' -> Permutation c2 c2' ->
  get_stats_and_rating df1 df2 metric = get_stats_and_rating df1' df2' metric.
Proof.
  intros E1 E1' E2 E2' P1 P2. unfold get_stats_and_rating.
  rewrite E1, E1', E2, E2'.
  apply dropna_Permutation in P1. apply dropna_Permutation in P2.
  rewrite <- (Permutation_length P1), <- (Permutation_length P2).
  unfold percentile_2_5, percentile_97_5.
  rewrite <- !(np_percentile_Permutation _ _ _ _ P1).
  rewrite <- !(np_percentile_Permutation _ _ _ _ P2).
  rewrite <- (np_mean_Permutation _ _ P1), <- (np_mean_Permutation _ _ P2).
  rewrite <- (np_min_Permutation _ _ P1), <- (np_min_Permutation _ _ P2).
  rewrite <- (np_max_Permutation _ _ P1), <- (np_max_Permutation _ _ P2).
  rewrite <- (np_std_Permutation _ _ P1), <- (np_std_Permutation _ _ P2).
  reflexivity.
Qed.

Lemma rating_row_order_irrelevant_witness :
  get_stats_and_rating sample_df_intra sample_df_inter "SSIM"
  = get_stats_and_rating [("SSIM"%string, [Num 2; Num 1])]
                         [("SSIM"%string, [NaN; Num 5; Num 6])] "SSIM".
Proof.
  apply (rating_row_order_irrelevant
           sample_df_intra [("SSIM"%string, [Num 2; Num 1])]
           sample_df_inter [("SSIM"%string, [NaN; Num 5; Num 6])]
           "SSIM" [Num 1; Num 2] [Num 2; Num 1]
           [Num 5; NaN; Num 6] [NaN; Num 5; Num 6]).
  - reflexivity.
  - reflexivity.
  - reflexivity.
  - reflexivity.
  - apply perm_swap.
  - apply perm_swap.
Defined.

(** ** Missing data and single samples *)

Lemma np_percentile_singleton (a : R) (num den : nat) :
  np_percentile [a] num den = a.
Proof.
  unfold np_percentile. simpl length. simpl sort_values.
  replace ((1 - 1) * num)%nat with 0%nat by lia.
  destruct den as [|den]; simpl; lra.
Qed.

Lemma np_std_singleton (a : R) : np_std [a] = 0.
Proof.
  unfold np_std, np_mean, Rsum. simpl.
  replace ((a - (a + 0) / 1) * ((a - (a + 0) / 1) * 1) + 0) with 0 by lra.
  replace (0 / 1) with 0 by lra. apply sqrt_0.
Qed.

(** X12. The classifier gives no result when the metric column is absent
    from either table or holds no number after NaN is dropped; and two
    single-number samples [a] and [b] already get the top verdict when
    [a <> b] (both standard deviations are 0), and no star when [a = b]. *)
Theorem rating_degenerate_samples :
  (forall df_intra df_inter metric,
      column df_intra metric = None \/ column df_inter metric = None ->
      get_stats_and_rating df_intra df_inter metric = None)
  /\ (forall df_intra df_inter metric c1 c2,
         column df_intra metric = Some c1 ->
         column df_inter metric = Some c2 ->
         dropna c1 = [] \/ dropna c2 = [] ->
         get_stats_and_rating df_intra df_inter metric = None)
  /\ (forall metric a b,
         exists r,
           get_stats_and_rating [(metric, [Num a])] [(metric, [Num b])] metric
           = Some r
           /\ (a <> b -> rating_stars r = ThreeStars)
           /\ (a = b -> rating_stars r = NoStar)).
Proof.
  split; [|split].
  - intros df1 df2 m [H|H]; unfold get_stats_and_rating; rewrite H;
      [reflexivity|]. now destruct (column df1 m).
  - intros df1 df2 m c1 c2 E1 E2 H. unfold get_stats_and_rating.
    rewrite E1, E2. destruct H as [H|H]; rewrite H; simpl; [reflexivity|].
    now rewrite orb_true_r.
  - intros m a b.
    destruct (get_stats_and_rating_some [(m, [Num a])] [(m, [Num b])] m
                [Num a] [Num b]) as [r [Hr Hs]];
      try (simpl; now rewrite String.eqb_refl); try (simpl; discriminate).
    exists r. split; [exact Hr|]. rewrite Hs. simpl dropna.
    unfold percentile_2_5, percentile_97_5.
    rewrite !np_percentile_singleton, !np_std_singleton.
    simpl np_min. simpl np_max. unfold star_rating.
    split.
    + intros Hab.
      assert (H95 : Rleb (Rmax a b) (Rmin a b) = false).
      { apply Rleb_false. unfold Rmax, Rmin. destruct (Rle_dec a b); lra. }
      rewrite H95. simpl.
      assert (Hg : Rgtb (if Rgtb a b then a - b else b - a) (0 + 0) = true).
      { apply Rgtb_true. unfold Rgtb. destruct (Rgt_dec a b); lra. }
      rewrite Hg. reflexivity.
    + intros ->.
      assert (H95 : Rleb (Rmax b b) (Rmin b b) = true).
      { apply Rleb_true. unfold Rmax, Rmin. destruct (Rle_dec b b); lra. }
      rewrite H95. reflexivity.
Qed.

(** ** Range and locality of the attenuation coefficient *)

Lemma Rdiv_lt_upper (a b c : R) : 0 < c -> a < b * c -> a / c < b.
Proof.
  intros Hc H. apply (Rmult_lt_reg_r c); [exact Hc|].
  unfold Rdiv. rewrite Rmult_assoc, Rinv_l by lra. lra.
Qed.

Lemma Rdiv_le_upper (a b c : R) : 0 < c -> a <= b * c -> a / c <= b.
Proof.
  intros Hc H. apply (Rmult_le_reg_r c); [exact Hc|].
  unfold Rdiv. rewrite Rmult_assoc, Rinv_l by lra. lra.
Qed.

Lemma oac_entry_range (intensity : image) (h_px : R) (i j : nat) :
  rectangular intensity ->
  Forall (Forall (fun x => 0 <= x)) intensity ->
  0 < h_px ->
  (i < height intensity)%nat -> (j < width intensity)%nat ->
  0 <= get (calculate_oac intensity h_px) i j < 1 / h_px
  /\ (0 < get intensity i j -> 0 < get (calculate_oac intensity h_px) i j).
Proof.
  intros Hrect Hpos Hh Hi Hj.
  rewrite (calculate_oac_get (width intensity)) by assumption.
  rewrite (oac_denom_term_get (width intensity)) by assumption.
  pose proof (remaining_energy_ge_local intensity i j Hpos Hi) as Hre.
  assert (H0 : 0 <= get intensity i j).
  { apply get_of_Forall2d; [exact Hpos|exact Hi|].
    now rewrite (rows_nth (width intensity)). }
  set (x := get intensity i j) in *.
  set (e := remaining_energy intensity i j) in *.
  assert (Hden : 0 < 2 * h_px * (e - 0.5 * x + 1e-10)).
  { apply Rmult_lt_0_compat; lra. }
  split; [split|].
  - apply Rmult_le_pos; [exact H0|]. apply Rlt_le, Rinv_0_lt_compat, Hden.
  - apply Rdiv_lt_upper; [exact Hden|].
    replace (1 / h_px * (2 * h_px * (e - 0.5 * x + 1e-10)))
      with (2 * (e - 0.5 * x + 1e-10)) by (field; lra).
    lra.
  - intros Hx. apply Rmult_lt_0_compat; [exact Hx|].
    apply Rinv_0_lt_compat, Hden.
Qed.



Lemma remaining_energy_last (a : image) (j : nat) :
  (0 < length a)%nat ->
  remaining_energy a (length a - 1) j = get a (length a - 1) j.
Proof.
  intros Hl. unfold remaining_energy, get.
  rewrite (skipn_nth_cons a (length a - 1) []) by lia.
  replace (S (length a - 1)) with (length a) by lia.
  rewrite skipn_all. unfold col_sum. simpl. lra.
Qed.

(** X14. In the deepest row the remaining energy is the local intensity,
    so the coefficient there is [I / (h * (I + 2e-10))]: close to [1/h] and
    not special-cased. *)
Theorem calculate_oac_deepest_row (intensity : image) (h_px : R) (j : nat) :
  rectangular intensity ->
  (0 < height intensity)%nat -> (j < width intensity)%nat ->
  get (calculate_oac intensity h_px) (height intensity - 1) j
  = get intensity (height intensity - 1) j
    / (h_px * (get intensity (height intensity - 1) j + 2 * 1e-10)).
Proof.
  intros Hrect HH Hj. unfold height in *.
  rewrite (calculate_oac_get (width intensity)) by (try assumption; lia).
  rewrite (oac_denom_term_get (width intensity)) by (try assumption; lia).
  rewrite remaining_energy_last by exact HH.
  f_equal. lra.
Qed.

Lemma calculate_oac_deepest_row_witness :
  get (calculate_oac sample_intensity HPX) (height sample_intensity - 1) 0
  = get sample_intensity (height sample_intensity - 1) 0
    / (HPX * (get sample_intensity (height sample_intensity - 1) 0
              + 2 * 1e-10)).
Proof.
  apply (calculate_oac_deepest_row sample_intensity HPX 0).
  - unfold sample_intensity. repeat constructor.
  - simpl. lia.
  - simpl. lia.
Defined.

Lemma col_sum_skipn_ext (j : nat) (a a' : image) (i : nat) :
  length a = length a' ->
  (forall k, (i <= k < length a)%nat -> get a k j = get a' k j) ->
  col_sum j (skipn i a) = col_sum j (skipn i a').
Proof.
  revert a' i. induction a as [|r a IH]; intros [|r' a'] i Hl H;
    simpl in Hl; try discriminate.
  - now rewrite !skipn_nil.
  - destruct i as [|i].
    + simpl skipn. unfold col_sum. simpl.
      assert (H0 : nth j r 0 = nth j r' 0).
      { apply (H 0%nat). simpl. lia. }
      rewrite H0. f_equal.
      apply (IH a' 0%nat); [lia|].
      intros k Hk. apply (H (S k)). simpl. lia.
    + simpl skipn. apply IH; [lia|].
      intros k Hk. apply (H (S k)). simpl. lia.
Qed.

(** X15. Each column is processed on its own and from the bottom up: the
    coefficient at row [i] of column [j] depends only on the intensities
    of column [j] at rows [i] and deeper.  Two images of one shape that
    agree there get the same coefficient. *)
Theorem calculate_oac_local (a a' : image) (h_px : R) (i j : nat) :
  rectangular a -> rectangular a' -> shape a = shape a' ->
  (i < height a)%nat -> (j < width a)%nat ->
  (forall k, (i <= k < height a)%nat -> get a k j = get a' k j) ->
  get (calculate_oac a h_px) i j = get (calculate_oac a' h_px) i j.
Proof.
  intros Hr Hr' Hs Hi Hj Hagree.
  injection Hs as HH HW. unfold height in *.
  rewrite (calculate_oac_get (width a)) by assumption.
  rewrite (calculate_oac_get (width a'))
    by (try assumption; rewrite <- ?HH, <- ?HW; assumption).
  rewrite (oac_denom_term_get (width a)) by assumption.
  rewrite (oac_denom_term_get (width a'))
    by (try assumption; rewrite <- ?HH, <- ?HW; assumption).
  unfold remaining_energy.
  rewrite (col_sum_skipn_ext j a a' i HH Hagree).
  rewrite (Hagree i) by lia. reflexivity.
Qed.

Lemma calculate_oac_local_witness :
  get (calculate_oac sample_intensity HPX) 1 1
  = get (calculate_oac sample_intensity0 HPX) 1 1.
Proof.
  apply (calculate_oac_local sample_intensity sample_intensity0 HPX 1 1).
  - unfold sample_intensity. repeat constructor.
  - unfold sample_intensity0. repeat constructor.
  - reflexivity.
  - simpl. lia.
  - simpl. lia.
  - intros k Hk. simpl in Hk. assert (k = 1%nat) by lia. subst k.
    reflexivity.
Defined.

(** ** Loading a scan *)

Lemma Forall2d_img_map (P Q : R -> Prop) (f : R -> R) (a : image) :
  (forall x, P x -> Q (f x)) ->
  Forall (Forall P) a -> Forall (Forall Q) (img_map f a).
Proof.
  intros H Ha. unfold img_map. apply Forall_map.
  eapply Forall_impl; [|exact Ha]. intros r Hr. simpl.
  apply Forall_map. eapply Forall_impl; [|exact Hr]. exact H.
Qed.

Lemma Forall2d_concat (P : R -> Prop) (a : image) :
  Forall (Forall P) a -> Forall P (concat a).
Proof.
  induction 1 as [|r a Hr _ IH]; simpl; [constructor|].
  apply Forall_app. split; assumption.
Qed.

Lemma Rpower_10_range (p : R) :
  0 <= p <= 1 -> 1 <= Rpower 10.0 (p * 4.0) <= 10000.
Proof.
  intros [H0 H1].
  assert (H10 : 1 <= 10.0) by lra.
  split.
  - rewrite <- (Rpower_O 10.0) by lra. apply Rle_Rpower; lra.
  - replace 10000 with (Rpower 10.0 (INR 4)).
    + apply Rle_Rpower; [lra|]. simpl. lra.
    + rewrite Rpower_pow by lra. simpl. lra.
Qed.

(** X16. A scan with pixel values between 0 and 255 is turned into an
    intensity image of the same shape.  When the largest pixel value is
    above 1 the scan is read on the 8-bit scale and pixel [x] becomes
    [10^(4 * x / 255)]; otherwise pixel [x] becomes [10^(4 * x)].  Either
    way every entry lies between 1 and 10^4 (0 to 40 dB), so no entry of
    the intensity image is zero or negative.  Only an image without pixels
    is refused. *)
Theorem linearize_range (img : image) :
  concat img <> [] ->
  Forall (Forall (fun x => 0 <= x <= 255)) img ->
  exists intensity,
    linearize img = Some intensity
    /\ length intensity = length img
    /\ (forall w, Forall (fun r => length r = w) img ->
                  Forall (fun r => length r = w) intensity)
    /\ (np_max (concat img) > 1 ->
        forall i j, (i < length img)%nat -> (j < length (nth i img []))%nat ->
          get intensity i j = Rpower 10 (get img i j / 255 * 4))
    /\ (np_max (concat img) <= 1 ->
        forall i j, (i < length img)%nat -> (j < length (nth i img []))%nat ->
          get intensity i j = Rpower 10 (get img i j * 4))
    /\ Forall (Forall (fun y => 1 <= y <= 10000)) intensity
    /\ Forall (Forall (fun y => 0 < y)) intensity.
Proof.
  intros Hne Hrange. unfold linearize.
  destruct (concat img) as [|x0 rest] eqn:Ec; [congruence|].
  rewrite <- Ec. eexists. split; [reflexivity|].
  assert (Hin : Forall (Forall (fun y => 1 <= y <= 10000))
            (img_map (fun x => Rpower 10.0 (x * 4.0))
               (if Rgtb (np_max (concat img)) 1.0
                then img_map (fun x => x / 255.0) img else img))).
  { apply (Forall2d_img_map (fun p => 0 <= p <= 1)).
    - apply Rpower_10_range.
    - destruct (Rgtb (np_max (concat img)) 1.0) eqn:Eg.
      + apply (Forall2d_img_map (fun x => 0 <= x <= 255)); [|exact Hrange].
        intros x [Hx0 Hx1]. split.
        * apply Rmult_le_pos; [exact Hx0|].
          apply Rlt_le, Rinv_0_lt_compat. lra.
        * apply Rdiv_le_upper; lra.
      + assert (Hmax : np_max (concat img) <= 1).
        { apply Rnot_gt_le. intros Hc. apply Rgtb_true in Hc.
          replace 1.0 with 1 in Eg by lra. congruence. }
        apply Forall_forall. intros r Hr. apply Forall_forall. intros x Hx.
        rewrite Forall_forall in Hrange.
        specialize (Hrange r Hr). rewrite Forall_forall in Hrange.
        destruct (Hrange x Hx) as [Hx0 _]. split; [exact Hx0|].
        apply Rle_trans with (np_max (concat img)); [|exact Hmax].
        apply np_max_upper. apply in_concat. exists r. split; assumption. }
  split; [|split; [|split; [|split; [|split]]]].
  - rewrite img_map_length.
    destruct (Rgtb _ _); [apply img_map_length|reflexivity].
  - intros w Hw. apply img_map_rows.
    destruct (Rgtb _ _); [now apply img_map_rows|exact Hw].
  - intros Hmax i j Hi Hj.
    assert (Eg : Rgtb (np_max (concat img)) 1.0 = true).
    { apply Rgtb_true. lra. }
    rewrite Eg.
    set (f := fun x : R => x / 255.0).
    assert (Hj' : (j < length (nth i (img_map f img) []))%nat).
    { unfold img_map. change (@nil R) with (map f []).
      rewrite map_nth. now rewrite length_map. }
    rewrite get_img_map; [|now rewrite img_map_length|exact Hj'].
    unfold f.
    rewrite get_img_map by assumption.
    f_equal; lra.
  - intros Hmax i j Hi Hj.
    assert (Eg : Rgtb (np_max (concat img)) 1.0 = false).
    { destruct (Rgtb (np_max (concat img)) 1.0) eqn:E; [|reflexivity].
      apply Rgtb_true in E. lra. }
    rewrite Eg. rewrite get_img_map by assumption.
    f_equal; lra.
  - exact Hin.
  - eapply Forall_impl; [|exact Hin]. intros r Hr. simpl.
    eapply Forall_impl; [|exact Hr]. intros y Hy. simpl in Hy. lra.
Qed.

Lemma linearize_range_witness :
  exists intensity,
    linearize scan_sample = Some intensity
    /\ length intensity = length scan_sample
    /\ (forall w, Forall (fun r => length r = w) scan_sample ->
                  Forall (fun r => length r = w) intensity)
    /\ (np_max (concat scan_sample) > 1 ->
        forall i j, (i < length scan_sample)%nat ->
                    (j < length (nth i scan_sample []))%nat ->
          get intensity i j = Rpower 10 (get scan_sample i j / 255 * 4))
    /\ (np_max (concat scan_sample) <= 1 ->
        forall i j, (i < length scan_sample)%nat ->
                    (j < length (nth i scan_sample []))%nat ->
          get intensity i j = Rpower 10 (get scan_sample i j * 4))
    /\ Forall (Forall (fun y => 1 <= y <= 10000)) intensity
    /\ Forall (Forall (fun y => 0 < y)) intensity.
Proof.
  apply (linearize_range scan_sample).
  - unfold scan_sample. simpl. discriminate.
  - unfold scan_sample. repeat constructor; lra.
Defined.

Lemma linearize_entries_positive (img intensity : image) :
  linearize img = Some intensity ->
  Forall (Forall (fun y => 0 < y)) intensity.
Proof.
  unfold linearize. destruct (concat img) as [|x0 rest]; [discriminate|].
  intros H. injection H as <-.
  apply (Forall2d_img_map (fun _ => True)).
  - intros x _. unfold Rpower. apply exp_pos.
  - apply Forall_forall. intros row _. apply Forall_forall. auto.
Qed.

(** ** Sign and zeros of the speckle-contrast map *)

Lemma Rsum_map_nonneg {A : Type} (f : A -> R) (l : list A) :
  (forall x, In x l -> 0 <= f x) -> 0 <= Rsum (map f l).
Proof.
  unfold Rsum. induction l as [|x l IH]; simpl; intros H; [lra|].
  assert (0 <= f x) by (apply H; now left).
  assert (0 <= fold_right Rplus 0 (map f l)).
  { apply IH. intros y Hy. apply H. now right. }
  lra.
Qed.

Lemma window_mean_nonneg (size n : nat) (f : nat -> R) (i : nat) :
  (0 < n)%nat -> (forall k, (k < n)%nat -> 0 <= f k) ->
  0 <= window_mean size n f i.
Proof.
  intros Hn Hf. unfold window_mean.
  assert (Hs : 0 <= Rsum (map (fun t =>
            f (reflect_index n
                 (Z.of_nat i - Z.of_nat (size / 2) + Z.of_nat t)))
            (seq 0 size))).
  { apply Rsum_map_nonneg. intros t _. apply Hf.
    now apply reflect_index_lt. }
  destruct size as [|size].
  - simpl. unfold Rsum. simpl. unfold Rdiv. rewrite Rmult_0_l. lra.
  - apply Rmult_le_pos; [exact Hs|].
    apply Rlt_le, Rinv_0_lt_compat, lt_0_INR. lia.
Qed.

Lemma uniform_filter_nonneg (W : nat) (a : image) (size i j : nat) :
  Forall (fun r => length r = W) a ->
  (forall i j, (i < length a)%nat -> (j < W)%nat -> 0 <= get a i j) ->
  (i < length a)%nat -> (j < W)%nat ->
  0 <= get (uniform_filter a size) i j.
Proof.
  intros Hrows Hpos Hi Hj. unfold uniform_filter.
  destruct (Nat.leb_spec size 1) as [Hs|Hs]; [now apply Hpos|].
  assert (Hw : width a = W).
  { apply rows_of_width; [exact Hrows|]. intros E. rewrite E in Hi.
    simpl in Hi. lia. }
  assert (Hrow0 : length (nth i (uniform_filter_axis0 size a) []) = W).
  { rewrite <- Hw. apply rows_nth; [apply uniform_filter_axis0_rows|].
    now rewrite uniform_filter_axis0_length. }
  rewrite uniform_filter_axis1_get.
  - rewrite Hrow0. apply window_mean_nonneg; [lia|].
    intros k Hk. rewrite uniform_filter_axis0_get.
    + apply window_mean_nonneg; [unfold height; lia|].
      intros k' Hk'. now apply Hpos.
    + exact Hi.
    + now rewrite Hw.
  - now rewrite uniform_filter_axis0_length.
  - now rewrite Hrow0.
Qed.

Lemma nonneg_entries_get (W : nat) (a : image) :
  Forall (fun r => length r = W) a ->
  Forall (Forall (fun x => 0 <= x)) a ->
  forall i j, (i < length a)%nat -> (j < W)%nat -> 0 <= get a i j.
Proof.
  intros Hrows Hpos i j Hi Hj.
  apply (get_of_Forall2d (fun x => 0 <= x)); [exact Hpos|exact Hi|].
  now rewrite (rows_nth W).
Qed.

Lemma clamp_index_lt (b n k : nat) :
  (2 * b < n)%nat -> (clamp_index b n k < n)%nat.
Proof. unfold clamp_index. lia. Qed.

Lemma sc_map_full_nonneg (data : image) (w i j : nat) :
  rectangular data ->
  Forall (Forall (fun x => 0 <= x)) data ->
  (i < height data)%nat -> (j < width data)%nat ->
  0 <= get (sc_map_full data w) i j.
Proof.
  intros Hrect Hpos Hi Hj.
  rewrite (sc_map_full_get (width data)) by assumption.
  assert (Hm : 0 <= get (sc_mean_val data w) i j).
  { unfold sc_mean_val.
    apply (uniform_filter_nonneg (width data)); try assumption.
    now apply nonneg_entries_get. }
  assert (Hs : 0 <= get (sc_std_val data w) i j).
  { rewrite (sc_std_val_get (width data)) by assumption. apply sqrt_pos. }
  apply Rmult_le_pos; [exact Hs|].
  apply Rlt_le, Rinv_0_lt_compat. lra.
Qed.

Lemma speckle_contrast_map_total (data : image) (w : nat) :
  rectangular data ->
  Forall (Forall (fun x => 0 <= x)) data ->
  (1 <= w / 2)%nat ->
  (2 * (w / 2) < height data)%nat -> (2 * (w / 2) < width data)%nat ->
  exists m,
    calculate_speckle_contrast_map data w = Some m
    /\ length m = length data
    /\ Forall (fun r => length r = width data) m
    /\ Forall (Forall (fun x => 0 <= x)) m.
Proof.
  intros Hrect Hpos Hb HH HW.
  destruct (calculate_speckle_contrast_map_spec data w Hrect Hb HH HW)
    as [m [Hm [Hlen [Hrows Hget]]]].
  exists m. split; [exact Hm|]. split; [exact Hlen|]. split; [exact Hrows|].
  apply Forall2d_of_get. intros i j Hi Hj.
  rewrite Hlen in Hi. rewrite (rows_nth (width data)) in Hj
    by (try exact Hrows; now rewrite Hlen).
  rewrite Hget by assumption.
  apply sc_map_full_nonneg; try assumption; now apply clamp_index_lt.
Qed.

(** X17. On an image without negative entries that is larger than the two
    borders, the returned speckle-contrast map has no negative entry,
    border included. *)
Theorem speckle_contrast_nonneg (data : image) (w : nat) :
  rectangular data ->
  Forall (Forall (fun x => 0 <= x)) data ->
  (1 <= w / 2)%nat ->
  (2 * (w / 2) < height data)%nat -> (2 * (w / 2) < width data)%nat ->
  exists m,
    calculate_speckle_contrast_map data w = Some m
    /\ Forall (Forall (fun x => 0 <= x)) m.
Proof.
  intros Hrect Hpos Hb HH HW.
  destruct (speckle_contrast_map_total data w Hrect Hpos Hb HH HW)
    as [m [Hm [_ [_ Hnn]]]].
  exists m. split; assumption.
Qed.

Lemma speckle_contrast_nonneg_witness :
  exists m,
    calculate_speckle_contrast_map striped3 2 = Some m
    /\ Forall (Forall (fun x => 0 <= x)) m.
Proof.
  apply (speckle_contrast_nonneg striped3 2).
  - exact striped3_rectangular.
  - unfold striped3. repeat constructor; lra.
  - simpl. lia.
  - simpl. lia.
  - simpl. lia.
Defined.

Lemma repeat_image_rows (v : R) (W H : nat) :
  Forall (fun r => length r = W) (repeat (repeat v W) H).
Proof.
  apply Forall_forall. intros r Hr. apply repeat_spec in Hr. subst r.
  apply repeat_length.
Qed.

Lemma flat21_shape : height flat21 = 21%nat /\ width flat21 = 21%nat.
Proof. split; reflexivity. Qed.

Lemma flat21_rectangular : rectangular flat21.
Proof. apply (rectangular_of_rows _ 21). apply repeat_image_rows. Qed.

(** ** Normalisation before saving *)

Lemma np_clip_range (x : R) : 0 <= np_clip 0 1 x <= 1.
Proof.
  unfold np_clip, Rmin, Rmax.
  destruct (Rle_dec 0 x); destruct (Rle_dec 1 _); lra.
Qed.

Lemma np_clip_inside (x : R) : 0 <= x <= 1 -> np_clip 0 1 x = x.
Proof.
  intros H. unfold np_clip, Rmin, Rmax.
  destruct (Rle_dec 0 x); destruct (Rle_dec 1 _); lra.
Qed.

Lemma In_concat_get (a : image) (i j : nat) :
  (i < length a)%nat -> (j < length (nth i a []))%nat ->
  In (get a i j) (concat a).
Proof.
  intros Hi Hj. apply in_concat. exists (nth i a []).
  split; [now apply nth_In|]. unfold get. now apply nth_In.
Qed.

Lemma get_score_map (f : R -> score) (a : image) (i j : nat) :
  (i < length a)%nat -> (j < length (nth i a []))%nat ->
  get_score (map (map f) a) i j = f (get a i j).
Proof.
  intros Hi Hj. unfold get_score, get.
  change (@nil score) with (map f []). rewrite map_nth.
  rewrite (nth_indep _ NaN (f 0)) by (rewrite length_map; exact Hj).
  apply map_nth.
Qed.

Lemma score_image_row_length (f : R -> score) (a : image) (i : nat) :
  length (nth i (map (map f) a) []) = length (nth i a []).
Proof.
  change (@nil score) with (map f []). rewrite map_nth. apply length_map.
Qed.

Lemma norm_entry_regular (vmin den x : R) :
  den <> 0 -> norm_entry vmin den x = Num (np_clip 0 1 ((x - vmin) / den)).
Proof.
  intros Hd. unfold norm_entry. destruct (Req_EM_T den 0); [contradiction|].
  reflexivity.
Qed.

Lemma norm_entry_zero_divisor (vmin x : R) :
  (x > vmin -> norm_entry vmin 0 x = Num 1)
  /\ (x < vmin -> norm_entry vmin 0 x = Num 0)
  /\ (x = vmin -> norm_entry vmin 0 x = NaN).
Proof.
  unfold norm_entry. destruct (Req_EM_T 0 0) as [_|H]; [|contradiction].
  unfold Rgtb.
  repeat split; intros Hx;
    destruct (Rgt_dec (x - vmin) 0); destruct (Rgt_dec 0 (x - vmin));
    try reflexivity; lra.
Qed.

Lemma norm_entry_range (vmin den x : R) :
  norm_entry vmin den x = NaN
  \/ exists y, norm_entry vmin den x = Num y /\ 0 <= y <= 1.
Proof.
  unfold norm_entry. destruct (Req_EM_T den 0).
  - destruct (Rgtb (x - vmin) 0).
    + right. exists 1. split; [reflexivity|lra].
    + destruct (Rgtb 0 (x - vmin)).
      * right. exists 0. split; [reflexivity|lra].
      * now left.
  - right. eexists. split; [reflexivity|apply np_clip_range].
Qed.

(** X19. The array that [save_map] writes has the shape of the data, and
    each entry is a number in [0, 1] or NaN.  For given limits whose
    difference plus the guard is not zero every entry is the clipped
    quotient, so no NaN arises; when that divisor is zero an entry above
    the lower limit becomes 1, one below it 0, and one equal to it NaN.
    With both limits taken from a non-empty array nothing is clipped: an
    entry is [(x - min) / (max - min + 1e-10)], a number between 0 and 1,
    the minimum goes to 0, and a larger value never gets a smaller
    result. *)
Theorem save_map_norm_data_range (data : image) :
  (forall vmin vmax norm,
      save_map_norm_data data vmin vmax = Some norm ->
      length norm = length data
      /\ (forall i, length (nth i norm []) = length (nth i data []))
      /\ Forall (Forall (fun e => e = NaN
                                  \/ exists y, e = Num y /\ 0 <= y <= 1))
           norm)
  /\ (forall lo hi, exists norm,
        save_map_norm_data data (Some lo) (Some hi) = Some norm
        /\ forall i j, (i < length data)%nat ->
                       (j < length (nth i data []))%nat ->
             (hi - lo + 1e-10 <> 0 ->
              get_score norm i j
              = Num (np_clip 0 1
                       ((get data i j - lo) / (hi - lo + 1e-10))))
             /\ (hi - lo + 1e-10 = 0 ->
                 (get data i j > lo -> get_score norm i j = Num 1)
                 /\ (get data i j < lo -> get_score norm i j = Num 0)
                 /\ (get data i j = lo -> get_score norm i j = NaN)))
  /\ (concat data <> [] ->
      exists norm,
        save_map_norm_data data None None = Some norm
        /\ forall i j, (i < length data)%nat ->
                       (j < length (nth i data []))%nat ->
             get_score norm i j
             = Num ((get data i j - np_min (concat data))
                    / (np_max (concat data) - np_min (concat data) + 1e-10))
             /\ 0 <= (get data i j - np_min (concat data))
                     / (np_max (concat data) - np_min (concat data) + 1e-10)
                  <= 1
             /\ (get data i j = np_min (concat data) ->
                 get_score norm i j = Num 0)
             /\ forall i' j', (i' < length data)%nat ->
                              (j' < length (nth i' data []))%nat ->
                  get data i j <= get data i' j' ->
                  (get data i j - np_min (concat data))
                  / (np_max (concat data) - np_min (concat data) + 1e-10)
                  <= (get data i' j' - np_min (concat data))
                     / (np_max (concat data) - np_min (concat data)
                        + 1e-10)).
Proof.
  split; [|split].
  - intros vmin vmax norm H. unfold save_map_norm_data in H.
    destruct vmin as [lo|]; destruct vmax as [hi|];
      destruct (concat data) as [|x0 rest]; try discriminate;
      injection H as <-;
      (split; [rewrite length_map; reflexivity|];
       split; [intros i; apply score_image_row_length|];
       apply Forall_map, Forall_forall; intros row _;
       apply Forall_map, Forall_forall; intros x _;
       apply norm_entry_range).
  - intros lo hi. unfold save_map_norm_data. eexists.
    split; [reflexivity|].
    intros i j Hi Hj. rewrite get_score_map by assumption. split.
    + intros Hd. now apply norm_entry_regular.
    + intros Hd. rewrite Hd. apply norm_entry_zero_divisor.
  - intros Hne. unfold save_map_norm_data.
    destruct (concat data) as [|x0 rest] eqn:Ec; [congruence|].
    rewrite <- Ec. eexists. split; [reflexivity|].
    set (lo := np_min (concat data)). set (hi := np_max (concat data)).
    assert (Hbound : forall i j, (i < length data)%nat ->
                       (j < length (nth i data []))%nat ->
                       lo <= get data i j <= hi).
    { intros i j Hi Hj. pose proof (In_concat_get data i j Hi Hj) as Hin.
      split; [now apply np_min_lower|now apply np_max_upper]. }
    assert (Hlohi : lo <= hi) by apply np_min_le_np_max.
    assert (Hd : 0 < hi - lo + 1e-10) by lra.
    assert (Hq : forall i j, (i < length data)%nat ->
                   (j < length (nth i data []))%nat ->
                   0 <= (get data i j - lo) / (hi - lo + 1e-10) <= 1).
    { intros i j Hi Hj. destruct (Hbound i j Hi Hj) as [H1 H2]. split.
      - apply Rmult_le_pos; [lra|]. apply Rlt_le, Rinv_0_lt_compat, Hd.
      - apply Rdiv_le_upper; lra. }
    assert (Hval : forall i j, (i < length data)%nat ->
                     (j < length (nth i data []))%nat ->
                     get_score
                       (map (map (norm_entry lo (hi - lo + 1e-10))) data) i j
                     = Num ((get data i j - lo) / (hi - lo + 1e-10))).
    { intros i j Hi Hj. rewrite get_score_map by assumption.
      rewrite norm_entry_regular by lra. f_equal.
      apply np_clip_inside. now apply Hq. }
    intros i j Hi Hj. rewrite Hval by assumption.
    split; [reflexivity|]. split; [now apply Hq|]. split.
    + intros E. rewrite E. f_equal. unfold Rdiv. fold lo. ring.
    + intros i' j' Hi' Hj' Hle.
      unfold Rdiv. apply Rmult_le_compat_r; [|lra].
      apply Rlt_le, Rinv_0_lt_compat, Hd.
Qed.

Lemma save_map_norm_data_range_witness :
  (exists norm,
     save_map_norm_data zero_span_data
       (Some zero_span_vmin) (Some zero_span_vmax) = Some norm
     /\ get_score norm 0 0 = NaN
     /\ get_score norm 0 1 = Num 1
     /\ get_score norm 0 2 = Num 0)
  /\ (exists norm,
        save_map_norm_data sample_intensity (Some 0.5) (Some 5.0) = Some norm
        /\ get_score norm 0 0
           = Num (np_clip 0 1
                    ((get sample_intensity 0 0 - 0.5) / (5.0 - 0.5 + 1e-10))))
  /\ exists norm,
       save_map_norm_data sample_intensity None None = Some norm
       /\ get_score norm 0 0
          = Num ((get sample_intensity 0 0 - np_min (concat sample_intensity))
                 / (np_max (concat sample_intensity)
                    - np_min (concat sample_intensity) + 1e-10)).
Proof.
  split; [|split].
  - destruct (save_map_norm_data_range zero_span_data) as [_ [H _]].
    destruct (H zero_span_vmin zero_span_vmax) as [norm [Hn Hget]].
    exists norm. split; [exact Hn|].
    assert (Hz : zero_span_vmax - zero_span_vmin + 1e-10 = 0).
    { unfold zero_span_vmax, zero_span_vmin. lra. }
    split; [|split].
    + destruct (Hget 0%nat 0%nat) as [_ H0]; [simpl; lia|simpl; lia|].
      destruct (H0 Hz) as [_ [_ H3]]. apply H3. reflexivity.
    + destruct (Hget 0%nat 1%nat) as [_ H0]; [simpl; lia|simpl; lia|].
      destruct (H0 Hz) as [H1 _]. apply H1.
      unfold zero_span_data, zero_span_vmin, get. simpl. lra.
    + destruct (Hget 0%nat 2%nat) as [_ H0]; [simpl; lia|simpl; lia|].
      destruct (H0 Hz) as [_ [H2 _]]. apply H2.
      unfold zero_span_data, zero_span_vmin, get. simpl. lra.
  - destruct (save_map_norm_data_range sample_intensity) as [_ [H _]].
    destruct (H 0.5 5.0) as [norm [Hn Hget]].
    exists norm. split; [exact Hn|].
    destruct (Hget 0%nat 0%nat) as [H0 _];
      [unfold sample_intensity; simpl; lia
      |unfold sample_intensity; simpl; lia|].
    apply H0. lra.
  - destruct (save_map_norm_data_range sample_intensity) as [_ [_ H]].
    destruct H as [norm [Hn Hget]].
    { unfold sample_intensity. simpl. discriminate. }
    exists norm. split; [exact Hn|].
    destruct (Hget 0%nat 0%nat) as [H0 _];
      [unfold sample_intensity; simpl; lia
      |unfold sample_intensity; simpl; lia|].
    exact H0.
Defined.

(** ** The map pipeline *)

Lemma linearize_shape (img : image) :
  concat img <> [] ->
  exists intensity,
    linearize img = Some intensity
    /\ length intensity = length img
    /\ forall w, Forall (fun r => length r = w) img ->
                 Forall (fun r => length r = w) intensity.
Proof.
  intros Hne. unfold linearize.
  destruct (concat img) as [|x0 rest] eqn:Ec; [congruence|].
  rewrite <- Ec. eexists. split; [reflexivity|]. split.
  - rewrite img_map_length.
    destruct (Rgtb _ _); [apply img_map_length|reflexivity].
  - intros w Hw. apply img_map_rows.
    destruct (Rgtb _ _); [now apply img_map_rows|exact Hw].
Qed.

Lemma np_pad_edge_crop_narrow (b W : nat) (a : image) :
  b <> 0%nat -> (W <= 2 * b)%nat ->
  Forall (fun r => length r = W) a ->
  np_pad_edge (crop b a) b = None.
Proof.
  intros Hb HW Hrows. unfold np_pad_edge.
  destruct (Nat.eqb_spec b 0) as [E|_]; [contradiction|].
  assert (Hw : width (crop b a) = 0%nat).
  { unfold crop. destruct (slice_border b a) as [|r rest] eqn:Es.
    - reflexivity.
    - simpl. rewrite slice_border_length by exact Hb.
      assert (Hr : In r (slice_border b a)) by (rewrite Es; now left).
      pose proof (Forall_slice_border _ b a Hrows) as Hf.
      rewrite Forall_forall in Hf. rewrite (Hf r Hr). lia. }
  rewrite Hw. now rewrite orb_true_r.
Qed.

Lemma calculate_speckle_contrast_map_small (data : image) (w : nat) :
  rectangular data ->
  (1 <= w / 2)%nat ->
  (height data <= 2 * (w / 2))%nat \/ (width data <= 2 * (w / 2))%nat ->
  calculate_speckle_contrast_map data w = None.
Proof.
  intros Hrect Hb [H|H]; rewrite calculate_speckle_contrast_map_unfold.
  - apply np_pad_edge_crop_small; [lia|].
    now rewrite sc_map_full_length.
  - apply (np_pad_edge_crop_narrow _ (width data)); [lia|exact H|].
    now apply sc_map_full_rows.
Qed.

Lemma rectangular_concat_nonempty (img : image) :
  rectangular img -> (0 < height img)%nat -> (0 < width img)%nat ->
  concat img <> [].
Proof.
  destruct img as [|r img]; simpl; intros _ HH HW; [lia|].
  destruct r; simpl in *; [lia|discriminate].
Qed.

(** X20. A scan that is higher and wider than 20 pixels always yields
    its three maps, each with the height and width of the scan; every
    attenuation coefficient is positive, and neither contrast map has a
    negative entry. *)
Theorem generate_maps_succeeds (img : image) :
  rectangular img ->
  (20 < height img)%nat -> (20 < width img)%nat ->
  exists mu_map sc_map rsc_map,
    generate_maps_from_scan img = Some (mu_map, sc_map, rsc_map)
    /\ shape mu_map = shape img
    /\ shape sc_map = shape img
    /\ shape rsc_map = shape img
    /\ (forall i j, (i < height img)%nat -> (j < width img)%nat ->
                    0 < get mu_map i j)
    /\ Forall (Forall (fun x => 0 <= x)) sc_map
    /\ Forall (Forall (fun x => 0 <= x)) rsc_map.
Proof.
  intros Hrect HH HW.
  destruct (linearize_shape img) as [I [HI [Hlen HrowsI]]].
  { apply rectangular_concat_nonempty; [exact Hrect|lia|lia]. }
  pose proof (linearize_entries_positive img I HI) as Hpos.
  specialize (HrowsI (width img) Hrect).
  assert (HwI : width I = width img).
  { apply rows_of_width; [exact HrowsI|]. intros E. rewrite E in Hlen.
    unfold height in HH. simpl in Hlen. lia. }
  assert (HrectI : rectangular I) by now apply (rectangular_of_rows _ (width img)).
  assert (HnnI : Forall (Forall (fun x => 0 <= x)) I).
  { eapply Forall_impl; [|exact Hpos]. intros r Hr. simpl.
    eapply Forall_impl; [|exact Hr]. intros x Hx. simpl in Hx. lra. }
  assert (HHPX : 0 < HPX) by (unfold HPX; lra).
  set (mu := calculate_oac I HPX).
  assert (Hmulen : length mu = length img).
  { unfold mu. now rewrite calculate_oac_length. }
  assert (Hmurows : Forall (fun r => length r = width img) mu).
  { unfold mu. now apply calculate_oac_rows. }
  assert (Hwmu : width mu = width img).
  { apply rows_of_width; [exact Hmurows|]. intros E. rewrite E in Hmulen.
    unfold height in HH. simpl in Hmulen. lia. }
  assert (Hmurange : forall i j, (i < height img)%nat -> (j < width img)%nat ->
                       0 < get mu i j).
  { intros i j Hi Hj. unfold height in Hi.
    destruct (oac_entry_range I HPX i j HrectI HnnI HHPX) as [_ Hlow];
      [unfold height; lia|lia|].
    apply Hlow.
    apply (positive_entries_get (width img)); try assumption; lia. }
  assert (Hmunn : Forall (Forall (fun x => 0 <= x)) mu).
  { apply Forall2d_of_get. intros i j Hi Hj.
    rewrite (rows_nth (width img)) in Hj by assumption.
    rewrite Hmulen in Hi.
    pose proof (Hmurange i j Hi Hj). lra. }
  destruct (speckle_contrast_map_total I WINDOW_SIZE HrectI HnnI)
    as [sc [Hsc [Hsclen [Hscrows Hscnn]]]];
    try (unfold WINDOW_SIZE, height in *; simpl; lia).
  destruct (speckle_contrast_map_total mu WINDOW_SIZE)
    as [rsc [Hrsc [Hrsclen [Hrscrows Hrscnn]]]];
    try (unfold WINDOW_SIZE, height in *; simpl; lia);
    try assumption.
  { now apply (rectangular_of_rows _ (width img)). }
  exists mu, sc, rsc.
  split.
  { unfold generate_maps_from_scan. rewrite HI.
    unfold generate_maps_arrays. fold mu. now rewrite Hsc, Hrsc. }
  split; [now apply (shape_of_rows _ _ (width img))|].
  split.
  { apply (shape_of_rows _ _ (width img)); try assumption.
    - congruence.
    - now rewrite <- HwI. }
  split.
  { apply (shape_of_rows _ _ (width img)); try assumption.
    - congruence.
    - now rewrite <- Hwmu. }
  split; [exact Hmurange|]. split; assumption.
Qed.

Lemma generate_maps_succeeds_witness :
  exists mu_map sc_map rsc_map,
    generate_maps_from_scan flat21 = Some (mu_map, sc_map, rsc_map)
    /\ shape mu_map = shape flat21
    /\ shape sc_map = shape flat21
    /\ shape rsc_map = shape flat21
    /\ (forall i j, (i < height flat21)%nat -> (j < width flat21)%nat ->
                    0 < get mu_map i j)
    /\ Forall (Forall (fun x => 0 <= x)) sc_map
    /\ Forall (Forall (fun x => 0 <= x)) rsc_map.
Proof.
  apply (generate_maps_succeeds flat21).
  - exact flat21_rectangular.
  - simpl. lia.
  - simpl. lia.
Defined.

(** X21. A scan that is not higher than 20 pixels, or not wider than 20
    pixels, yields no maps: with the window of 20 nothing is left of the
    contrast map after the border of 10 is cut, and the padding raises. *)
Theorem generate_maps_needs_large_scan (img : image) :
  rectangular img ->
  (height img <= 20)%nat \/ (width img <= 20)%nat ->
  generate_maps_from_scan img = None.
Proof.
  intros Hrect Hsmall. unfold generate_maps_from_scan.
  destruct (linearize img) as [I|] eqn:HI; [|reflexivity].
  assert (Hne : concat img <> []).
  { intros E. unfold linearize in HI. rewrite E in HI. discriminate. }
  destruct (linearize_shape img Hne) as [I' [HI' [Hlen Hrows]]].
  rewrite HI in HI'. injection HI' as <-.
  specialize (Hrows (width img) Hrect).
  assert (Himg : img <> []) by (intros E; subst img; now apply Hne).
  assert (HwI : width I = width img).
  { apply rows_of_width; [exact Hrows|]. intros E. rewrite E in Hlen.
    destruct img; [congruence|discriminate]. }
  unfold generate_maps_arrays.
  rewrite calculate_speckle_contrast_map_small; [reflexivity| | |].
  - now apply (rectangular_of_rows _ (width img)).
  - unfold WINDOW_SIZE. simpl. lia.
  - unfold WINDOW_SIZE, height in *. rewrite Hlen, HwI. simpl. lia.
Qed.

Lemma generate_maps_needs_large_scan_witness :
  generate_maps_from_scan flat20 = None.
Proof.
  apply (generate_maps_needs_large_scan flat20).
  - exact flat20_rectangular.
  - left. rewrite flat20_height. lia.
Defined.

(** ** What the two evaluators return *)

(** X22. [calculate_all_metrics] is all or nothing: it returns [None] when
    a file is missing, and a returned dict always has the six metric
    entries in one fixed order, with a number for MSE and with NaN for the
    metrics whose optional library is not available. *)
Theorem calculate_all_metrics_all_or_nothing (E : Collaborators)
        (p1 p2 : string) :
  (path_exists E p1 = false \/ path_exists E p2 = false ->
   calculate_all_metrics E p1 p2 = None)
  /\ forall d, calculate_all_metrics E p1 p2 = Some d ->
       keys d = metric_names
       /\ (exists v, dict_get d "MSE" = Some (Num v))
       /\ (SEWAR_AVAILABLE E = false ->
           dict_get d "VIF" = Some NaN /\ dict_get d "MS-SSIM" = Some NaN)
       /\ (LPIPS_AVAILABLE E = false -> dict_get d "LPIPS" = Some NaN).
Proof.
  split.
  - intros [H|H]; unfold calculate_all_metrics; rewrite H; simpl;
      [reflexivity|]. now rewrite orb_true_r.
  - intros d. unfold calculate_all_metrics.
    destruct (negb (path_exists E p1) || negb (path_exists E p2));
      [discriminate|].
    destruct (imread E p1) as [i1|]; [|discriminate].
    destruct (imread E p2) as [i2|]; [|discriminate].
    destruct (if negb (shape_eqb (shape i1) (shape i2))
              then resize E i2 (shape i1) else Some i2) as [t|];
      [|discriminate].
    unfold all_metrics_of.
    destruct (mse E i1 t) as [a|]; [|discriminate].
    destruct (psnr E i1 t) as [b|]; [|discriminate].
    destruct (ssim E i1 t) as [c|]; [|discriminate].
    destruct (SEWAR_AVAILABLE E), (LPIPS_AVAILABLE E);
      intros H; injection H as <-;
      (split; [reflexivity|]); (split; [exists a; reflexivity|]);
      split; intros; try discriminate; try split; reflexivity.
Qed.

Ltac keys_leaf :=
  simpl;
  split; [repeat first [left; reflexivity | right]|];
  split; [intros x Hx; simpl in Hx; simpl; tauto|];
  split; [intros Hne;
          first [eexists; reflexivity | exfalso; apply Hne; reflexivity]|];
  split; [split; intros Hd; first [reflexivity | discriminate Hd]|];
  intros Hsw; first [reflexivity | discriminate Hsw].

Lemma calc_pair_metrics_structure (E : Collaborators) (p1 p2 : string) :
  In (keys (calc_pair_metrics E p1 p2))
     [ [];
       ["MSE"];
       ["MSE"; "PSNR"];
       ["MSE"; "PSNR"; "SSIM"];
       ["MSE"; "PSNR"; "SSIM"; "LPIPS"];
       ["MSE"; "PSNR"; "SSIM"; "VIF"; "MS-SSIM"];
       ["MSE"; "PSNR"; "SSIM"; "VIF"; "MS-SSIM"; "LPIPS"] ]%string
  /\ incl (keys (calc_pair_metrics E p1 p2)) metric_names
  /\ (calc_pair_metrics E p1 p2 <> [] ->
      exists v, dict_get (calc_pair_metrics E p1 p2) "MSE" = Some (Num v))
  /\ (dict_get (calc_pair_metrics E p1 p2) "VIF" = None
      <-> dict_get (calc_pair_metrics E p1 p2) "MS-SSIM" = None)
  /\ (SEWAR_AVAILABLE E = false ->
      dict_get (calc_pair_metrics E p1 p2) "VIF" = None).
Proof.
  unfold calc_pair_metrics, metric_names.
  destruct (imread E p1) as [i1|]; [|keys_leaf].
  destruct (imread E p2) as [i2|]; [|keys_leaf].
  destruct (negb (shape_eqb (shape i1) (shape i2))); [keys_leaf|].
  destruct (mse E i1 i2) as [a|]; [|keys_leaf].
  destruct (psnr E i1 i2) as [b|]; [|keys_leaf].
  destruct (ssim E i1 i2) as [c|]; [|keys_leaf].
  destruct (SEWAR_AVAILABLE E), (LPIPS_AVAILABLE E);
    try destruct (lpips E i1 i2); keys_leaf.
Qed.


(** X24. On two readable files of one shape, when the three standard
    metrics succeed, the sewar library is available and LPIPS is available
    and succeeds, the two evaluators return the same dict. *)
Theorem evaluators_agree (E : Collaborators) (p1 p2 : string)
        (i1 i2 : image) (a b c l : R) :
  path_exists E p1 = true -> path_exists E p2 = true ->
  imread E p1 = Some i1 -> imread E p2 = Some i2 ->
  shape i1 = shape i2 ->
  mse E i1 i2 = Some a -> psnr E i1 i2 = Some b -> ssim E i1 i2 = Some c ->
  SEWAR_AVAILABLE E = true ->
  LPIPS_AVAILABLE E = true -> lpips E i1 i2 = Some l ->
  calculate_all_metrics E p1 p2 = Some (calc_pair_metrics E p1 p2).
Proof.
  intros X1 X2 H1 H2 Hs Ha Hb Hc Hsw Hlp Hl.
  unfold calculate_all_metrics, calc_pair_metrics, all_metrics_of.
  rewrite X1, X2, H1, H2, Hs.
  assert (Hrefl : shape_eqb (shape i2) (shape i2) = true).
  { unfold shape_eqb. now rewrite !Nat.eqb_refl. }
  rewrite Hrefl. simpl.
  now rewrite Ha, Hb, Hc, Hsw, Hlp, Hl.
Qed.

Lemma evaluators_agree_witness :
  calculate_all_metrics demo_env_full "a.png" "b.png"
  = Some (calc_pair_metrics demo_env_full "a.png" "b.png").
Proof.
  eapply (evaluators_agree demo_env_full "a.png" "b.png"
            demo_ref demo_other);
    reflexivity.
Defined.

(** ** Aggregation of the pair scores *)

Lemma collect_some {A B : Type} (f : A -> option (list B)) (l : list A) :
  (forall x, In x l -> exists r, f x = Some r) ->
  exists rs, collect f l = Some rs.
Proof.
  induction l as [|x t IH]; intros H; simpl.
  - now exists [].
  - destruct (H x (or_introl eq_refl)) as [r Hr]. rewrite Hr.
    destruct IH as [rs Hrs].
    + intros y Hy. apply H. now right.
    + rewrite Hrs. now eexists.
Qed.

Lemma collect_In {A B : Type} (f : A -> option (list B)) (l : list A)
      (rs : list B) (y : B) :
  collect f l = Some rs -> In y rs ->
  exists x r, In x l /\ f x = Some r /\ In y r.
Proof.
  revert rs. induction l as [|x t IH]; intros rs H Hy; simpl in H.
  - injection H as <-. contradiction.
  - destruct (f x) as [r|] eqn:Hfx; [|discriminate].
    destruct (collect f t) as [rs'|] eqn:Hc; [|discriminate].
    injection H as <-. apply in_app_or in Hy. destruct Hy as [Hy|Hy].
    + exists x, r. repeat split; [now left|assumption|assumption].
    + destruct (IH rs' eq_refl Hy) as [x' [r' [H1 [H2 H3]]]].
      exists x', r'. repeat split; [now right|assumption|assumption].
Qed.

Lemma collect_length {A B : Type} (f : A -> option (list B)) (l : list A)
      (rs : list B) (k : nat) :
  collect f l = Some rs ->
  (forall x r, In x l -> f x = Some r -> (length r <= k)%nat) ->
  (length rs <= length l * k)%nat.
Proof.
  revert rs. induction l as [|x t IH]; intros rs H Hk; simpl in H.
  - injection H as <-. simpl. lia.
  - destruct (f x) as [r|] eqn:Hfx; [|discriminate].
    destruct (collect f t) as [rs'|] eqn:Hc; [|discriminate].
    injection H as <-. rewrite length_app. simpl.
    assert (length r <= k)%nat by (apply (Hk x); [now left|exact Hfx]).
    assert (length rs' <= length t * k)%nat.
    { apply IH; [reflexivity|]. intros y r' Hy. apply Hk. now right. }
    lia.
Qed.

Lemma partner_bounds (c_type : string) (d len_a len_b i j : Z) :
  (c_type = "Intra"%string -> (len_a <= len_b)%Z) ->
  (0 <= i < len_a)%Z ->
  In j (partners c_type d len_a len_b i) -> (0 <= j < len_b)%Z.
Proof.
  intros Hlen Hi Hj. destruct (string_dec c_type "Intra") as [E|E].
  - specialize (Hlen E). subst c_type.
    rewrite partners_Intra, In_py_range in Hj. lia.
  - apply (partners_not_Intra c_type d len_a len_b i j E) in Hj. lia.
Qed.

(** X25. The two nested loops never index a file list out of range: under
    a tag other than Intra, and under the Intra tag when the second list is
    at least as long as the first (it is the same list there), every
    [files_a[i]] and [files_b[j]] exists, for any neighbour depth. *)
Theorem pair_results_no_index_error (E : Collaborators) (c_type : string)
        (d : Z) (files_a files_b : list string) :
  (c_type = "Intra"%string -> (length files_a <= length files_b)%nat) ->
  exists rs, pair_results E c_type d files_a files_b = Some rs.
Proof.
  intros Hlen. unfold pair_results. apply collect_some.
  intros i Hi. apply In_py_range in Hi. apply collect_some.
  intros j Hj.
  apply (partner_bounds c_type d _ _ i j) in Hj; [|intros Ec; specialize (Hlen Ec); lia|lia].
  unfold score_pair.
  destruct (nth_error files_a (Z.to_nat i)) as [pa|] eqn:Ea.
  - destruct (nth_error files_b (Z.to_nat j)) as [pb|] eqn:Eb.
    + now eexists.
    + apply nth_error_None in Eb. lia.
  - apply nth_error_None in Ea. lia.
Qed.

Lemma pair_results_no_index_error_witness :
  exists rs,
    pair_results demo_env_full "Intra" NEIGHBOR_DEPTH
                 ["a.png"; "b.png"]%string ["a.png"; "b.png"]%string
    = Some rs.
Proof.
  apply (pair_results_no_index_error demo_env_full "Intra" NEIGHBOR_DEPTH
           ["a.png"; "b.png"]%string ["a.png"; "b.png"]%string).
  intros _. simpl. lia.
Defined.

Lemma dict_get_not_key (d : dict) (m : string) :
  ~ In m (keys d) -> dict_get d m = None.
Proof.
  induction d as [|[k v] rest IH]; simpl; intros H; [reflexivity|].
  destruct (String.eqb_spec k m) as [->|Hne]; [tauto|].
  apply IH. tauto.
Qed.

Lemma bucket_length_le (m : string) (rs : list dict) :
  (length (bucket m rs) <= length rs)%nat.
Proof.
  unfold bucket. induction rs as [|res rs IH]; simpl; [lia|].
  rewrite length_app. destruct (dict_get res m); simpl; lia.
Qed.

Lemma bucket_length_full (m : string) (rs : list dict) :
  (forall res, In res rs -> dict_get res m <> None) ->
  length (bucket m rs) = length rs.
Proof.
  unfold bucket. induction rs as [|res rs IH]; simpl; intros H;
    [reflexivity|].
  rewrite length_app, IH by (intros r Hr; apply H; now right).
  destruct (dict_get res m) eqn:Eg; [reflexivity|].
  exfalso. apply (H res); [now left|exact Eg].
Qed.

Lemma bucket_empty (m : string) (rs : list dict) :
  (forall res, In res rs -> dict_get res m = None) -> bucket m rs = [].
Proof.
  unfold bucket. induction rs as [|res rs IH]; simpl; intros H;
    [reflexivity|].
  rewrite (H res) by now left. simpl. apply IH.
  intros r Hr. apply H. now right.
Qed.

Lemma pair_results_origin (E : Collaborators) (c_type : string) (d : Z)
      (files_a files_b : list string) (rs : list dict) (res : dict) :
  pair_results E c_type d files_a files_b = Some rs -> In res rs ->
  res <> []
  /\ exists pa pb, In pa files_a /\ In pb files_b
                   /\ res = calc_pair_metrics E pa pb.
Proof.
  intros H Hres. unfold pair_results in H.
  destruct (collect_In _ _ _ _ H Hres) as [i [r [_ [Hr Hin]]]].
  destruct (collect_In _ _ _ _ Hr Hin) as [j [r' [_ [Hr' Hin']]]].
  unfold score_pair in Hr'.
  destruct (nth_error files_a (Z.to_nat i)) as [pa|] eqn:Ea; [|discriminate].
  destruct (nth_error files_b (Z.to_nat j)) as [pb|] eqn:Eb; [|discriminate].
  injection Hr' as <-.
  destruct (calc_pair_metrics E pa pb) as [|kv rest] eqn:Ec;
    [contradiction|].
  destruct Hin' as [<-|[]]. split; [discriminate|].
  exists pa, pb. split; [now apply nth_error_In in Ea|].
  split; [now apply nth_error_In in Eb|now rewrite Ec].
Qed.

(** X26. After the loops every kept result is a non-empty dict that
    [calc_pair_metrics] returned for a file of each list.  The MSE bucket
    of the distributions has exactly one value per kept result (one per
    row of the raw CSV), no bucket is longer than that, and a name outside
    the six metric names never receives a value. *)
Theorem bucket_sizes (E : Collaborators) (c_type : string) (d : Z)
        (files_a files_b : list string) (rs : list dict) :
  pair_results E c_type d files_a files_b = Some rs ->
  (forall res, In res rs ->
     res <> []
     /\ exists pa pb, In pa files_a /\ In pb files_b
                      /\ res = calc_pair_metrics E pa pb)
  /\ length (bucket "MSE" rs) = length rs
  /\ (forall m, (length (bucket m rs) <= length rs)%nat)
  /\ (forall m, ~ In m metric_names -> bucket m rs = []).
Proof.
  intros H. split; [|split; [|split]].
  - intros res Hres. exact (pair_results_origin _ _ _ _ _ _ _ H Hres).
  - apply bucket_length_full. intros res Hres.
    destruct (pair_results_origin _ _ _ _ _ _ _ H Hres)
      as [Hne [pa [pb [_ [_ ->]]]]].
    destruct (calc_pair_metrics_structure E pa pb) as [_ [_ [Hmse _]]].
    destruct (Hmse Hne) as [v Hv]. rewrite Hv. discriminate.
  - intros m. apply bucket_length_le.
  - intros m Hm. apply bucket_empty. intros res Hres.
    destruct (pair_results_origin _ _ _ _ _ _ _ H Hres)
      as [_ [pa [pb [_ [_ ->]]]]].
    destruct (calc_pair_metrics_structure E pa pb) as [_ [Hincl _]].
    apply dict_get_not_key. intros Hk. apply Hm. now apply Hincl.
Qed.

Lemma bucket_sizes_witness :
  exists rs,
    pair_results demo_env_full "Intra" NEIGHBOR_DEPTH
                 ["a.png"; "b.png"]%string ["a.png"; "b.png"]%string
    = Some rs
    /\ length (bucket "MSE" rs) = length rs.
Proof.
  eexists. split; [reflexivity|].
  apply (bucket_sizes demo_env_full "Intra" NEIGHBOR_DEPTH
           ["a.png"; "b.png"]%string ["a.png"; "b.png"]%string).
  reflexivity.
Defined.

Lemma partners_length_bound (c_type : string) (d len_a len_b i : Z) :
  (0 <= d)%Z ->
  (length (partners c_type d len_a len_b i) <= Z.to_nat (2 * d + 1))%nat.
Proof.
  intros Hd. unfold partners.
  eapply Nat.le_trans; [apply filter_length_le|].
  unfold j_range. destruct (c_type =? "Intra")%string;
    rewrite py_range_length; lia.
Qed.

(** X27. The neighbour band keeps the work linear in the number of files:
    with a non-negative neighbour depth [d] the loops keep at most
    [len(files_a) * (2 * d + 1)] results, and at most [len(files_a) * d]
    under the Intra tag. *)
Theorem pair_results_count (E : Collaborators) (c_type : string) (d : Z)
        (files_a files_b : list string) (rs : list dict) :
  (0 <= d)%Z ->
  pair_results E c_type d files_a files_b = Some rs ->
  (length rs <= length files_a * Z.to_nat (2 * d + 1))%nat
  /\ (c_type = "Intra"%string ->
      (length rs <= length files_a * Z.to_nat d)%nat).
Proof.
  intros Hd H. unfold pair_results in H.
  assert (Hone : forall i j r,
             score_pair E files_a files_b i j = Some r ->
             (length r <= 1)%nat).
  { intros i j r Hr. unfold score_pair in Hr.
    destruct (nth_error files_a (Z.to_nat i)); [|discriminate].
    destruct (nth_error files_b (Z.to_nat j)); [|discriminate].
    injection Hr as <-. destruct (calc_pair_metrics E s s0); simpl; lia. }
  assert (Hlen : length (py_range 0 (Z.of_nat (length files_a)))
                 = length files_a).
  { rewrite py_range_length. lia. }
  split.
  - rewrite <- Hlen at 1. apply (collect_length _ _ _ _ H).
    intros i r _ Hr.
    pose proof (collect_length _ _ _ 1%nat Hr) as Hb.
    assert (length r <= length (partners c_type d
              (Z.of_nat (length files_a)) (Z.of_nat (length files_b)) i) * 1)%nat.
    { apply Hb. intros j r' _. apply Hone. }
    pose proof (partners_length_bound c_type d
                  (Z.of_nat (length files_a)) (Z.of_nat (length files_b)) i Hd).
    lia.
  - intros ->. rewrite <- Hlen at 1. apply (collect_length _ _ _ _ H).
    intros i r _ Hr.
    pose proof (collect_length _ _ _ 1%nat Hr) as Hb.
    assert (length r <= length (partners "Intra" d
              (Z.of_nat (length files_a)) (Z.of_nat (length files_b)) i) * 1)%nat.
    { apply Hb. intros j r' _. apply Hone. }
    rewrite partners_Intra, py_range_length in H0. lia.
Qed.

Lemma pair_results_count_witness :
  exists rs,
    pair_results demo_env_full "Intra" NEIGHBOR_DEPTH
                 ["a.png"; "b.png"]%string ["a.png"; "b.png"]%string
    = Some rs
    /\ (length rs <= 2 * Z.to_nat (2 * NEIGHBOR_DEPTH + 1))%nat.
Proof.
  eexists. split; [reflexivity|].
  apply (pair_results_count demo_env_full "Intra" NEIGHBOR_DEPTH
           ["a.png"; "b.png"]%string ["a.png"; "b.png"]%string).
  - unfold NEIGHBOR_DEPTH. lia.
  - reflexivity.
Defined.

(** ** The scatterer generator *)

Lemma column_stack_length (xs ys zs amps : list R) (n : nat) :
  length xs = n -> length ys = n -> length zs = n -> length amps = n ->
  length (column_stack xs ys zs amps) = n.
Proof.
  revert ys zs amps n.
  induction xs as [|x xs IH]; intros [|y ys] [|z zs] [|a amps] n H1 H2 H3 H4;
    simpl in *; try lia.
  destruct n as [|n]; [discriminate|]. f_equal. apply IH; lia.
Qed.

Lemma column_stack_nth (xs ys zs amps : list R) (k : nat) :
  (k < length xs)%nat -> length ys = length xs ->
  length zs = length xs -> length amps = length xs ->
  nth k (column_stack xs ys zs amps) (0, 0, 0, 0)
  = (nth k xs 0, nth k ys 0, nth k zs 0, nth k amps 0).
Proof.
  revert ys zs amps k.
  induction xs as [|x xs IH]; intros [|y ys] [|z zs] [|a amps] k Hk H2 H3 H4;
    simpl in *; try lia.
  destruct k as [|k]; [reflexivity|]. apply IH; lia.
Qed.

Lemma nth_map_in {A B : Type} (f : A -> B) (l : list A) (k : nat)
      (d : B) (d' : A) :
  (k < length l)%nat -> nth k (map f l) d = f (nth k l d').
Proof.
  intros Hk. rewrite (nth_indep _ d (f d')) by (rewrite length_map; exact Hk).
  apply map_nth.
Qed.

Lemma generate_uniform_rows (np_random_seed : Z -> rng)
      (cfg : ExperimentConfig) (seed : option Z) (amp : R) (st : rng) :
  let st0 := match seed with Some s => np_random_seed s | None => st end in
  let n := Z.to_nat (scatterers_count cfg) in
  length (fst (generate_uniform np_random_seed cfg seed amp st)) = n
  /\ forall k, (k < n)%nat ->
       nth k (fst (generate_uniform np_random_seed cfg seed amp st))
           (0, 0, 0, 0)
       = ((st0 k - 0.5) * x_max cfg,
          (st0 (n + k)%nat - 0.5) * (2 * beam_radius cfg),
          st0 (n + (n + k))%nat * z_max cfg,
          1 * amp).
Proof.
  intros st0 n. unfold generate_uniform, rand. fold st0. fold n. simpl fst.
  split.
  - apply column_stack_length;
      rewrite ?length_map, ?length_seq, ?repeat_length; reflexivity.
  - intros k Hk.
    rewrite column_stack_nth
      by (rewrite ?length_map, ?length_seq, ?repeat_length; auto).
    f_equal; [f_equal; [f_equal|]|].
    + rewrite (nth_map_in _ _ k 0 0) by (rewrite length_map, length_seq; exact Hk).
      now rewrite nth_map_seq.
    + rewrite (nth_map_in _ _ k 0 0) by (rewrite length_map, length_seq; exact Hk).
      now rewrite nth_map_seq.
    + rewrite (nth_map_in _ _ k 0 0) by (rewrite length_map, length_seq; exact Hk).
      now rewrite nth_map_seq.
    + rewrite (nth_map_in _ _ k 0 1) by (rewrite repeat_length; exact Hk).
      now rewrite nth_repeat_lt.
Qed.

Lemma generate_two_layers_unfold (np_random_seed : Z -> rng)
      (cfg : ExperimentConfig) (seed : option Z)
      (boundary amp_top amp_bottom : R) (st : rng) :
  fst (generate_two_layers np_random_seed cfg seed boundary
                           amp_top amp_bottom st)
  = map (fun row : scatterer =>
           match row with
           | (x, y, z, a) =>
               if Rgtb z boundary then (x, y, z, amp_bottom)
               else (x, y, z, a)
           end)
        (fst (generate_uniform np_random_seed cfg seed amp_top st)).
Proof.
  unfold generate_two_layers.
  assert (E : generate_uniform np_random_seed cfg seed amp_top
                match seed with
                | Some s => np_random_seed s
                | None => st
                end
              = generate_uniform np_random_seed cfg seed amp_top st).
  { unfold generate_uniform. destruct seed; reflexivity. }
  rewrite E.
  destruct (generate_uniform np_random_seed cfg seed amp_top st) as [d s].
  reflexivity.
Qed.

(** X28. When the random numbers lie in [0, 1) and the extents of the
    configuration are not negative, [generate_two_layers] returns
    [scatterers_count] records whose positions are those that
    [generate_uniform] gives from the same seed and state, each inside the
    scan volume ([|x| <= x_max/2], [|y| <= beam_radius], [0 <= z < z_max]
    when [z_max > 0]); a record deeper than the boundary has the bottom
    amplitude and every other record the top amplitude. *)
Theorem generate_two_layers_records (np_random_seed : Z -> rng)
        (cfg : ExperimentConfig) (seed : option Z)
        (boundary amp_top amp_bottom : R) (st : rng) :
  (forall s k, 0 <= np_random_seed s k < 1) ->
  (forall k, 0 <= st k < 1) ->
  0 <= x_max cfg -> 0 <= beam_radius cfg -> 0 < z_max cfg ->
  let layers :=
    fst (generate_two_layers np_random_seed cfg seed boundary
                             amp_top amp_bottom st) in
  let uniform :=
    fst (generate_uniform np_random_seed cfg seed amp_top st) in
  length layers = Z.to_nat (scatterers_count cfg)
  /\ map position layers = map position uniform
  /\ forall k, (k < Z.to_nat (scatterers_count cfg))%nat ->
       match nth k layers (0, 0, 0, 0) with
       | (x, y, z, a) =>
           - (x_max cfg / 2) <= x <= x_max cfg / 2
           /\ - beam_radius cfg <= y <= beam_radius cfg
           /\ 0 <= z < z_max cfg
           /\ (z > boundary -> a = amp_bottom)
           /\ (z <= boundary -> a = amp_top)
       end.
Proof.
  intros Hseed Hst Hx Hy Hz layers uniform.
  unfold layers. rewrite generate_two_layers_unfold. fold uniform.
  destruct (generate_uniform_rows np_random_seed cfg seed amp_top st)
    as [Hlen Hrow].
  fold uniform in Hlen, Hrow.
  set (n := Z.to_nat (scatterers_count cfg)) in *.
  set (st0 := match seed with Some s => np_random_seed s | None => st end)
    in *.
  assert (Hu : forall k, 0 <= st0 k < 1).
  { intros k. unfold st0. destruct seed; [apply Hseed|apply Hst]. }
  split; [now rewrite length_map|]. split.
  - rewrite map_map. apply map_ext. intros [[[x y] z] a]. simpl.
    destruct (Rgtb z boundary); reflexivity.
  - intros k Hk.
    assert (Hk' : (k < length uniform)%nat) by (rewrite Hlen; exact Hk).
    rewrite (nth_map_in _ uniform k _ (0, 0, 0, 0) Hk').
    rewrite (Hrow k Hk).
    pose proof (Hu k) as H1. pose proof (Hu (n + k)%nat) as H2.
    pose proof (Hu (n + (n + k))%nat) as H3.
    set (u1 := st0 k) in *. set (u2 := st0 (n + k)%nat) in *.
    set (u3 := st0 (n + (n + k))%nat) in *.
    assert (Hzr : 0 <= u3 * z_max cfg < z_max cfg) by nra.
    destruct (Rgtb (u3 * z_max cfg) boundary) eqn:Eg.
    + apply Rgtb_true in Eg.
      repeat split; try nra; intros; try reflexivity; lra.
    + assert (Hng : ~ u3 * z_max cfg > boundary).
      { intros Hc. apply Rgtb_true in Hc. congruence. }
      repeat split; try nra; intros; try lra.
Qed.

(** The configuration that [ExperimentConfig.__init__] builds meets the
    extent conditions above: 3072 by 1536 microns with a beam radius
    of 10. *)
Lemma ExperimentConfig_init_extents :
  x_max ExperimentConfig_init = 3072
  /\ z_max ExperimentConfig_init = 1536
  /\ beam_radius ExperimentConfig_init = 10.
Proof. simpl. repeat split; lra. Qed.

Lemma demo_seed_range (s : Z) (k : nat) : 0 <= demo_seed s k < 1.
Proof.
  unfold demo_seed.
  pose proof (Z.mod_pos_bound (s + Z.of_nat k) 10 ltac:(lia)) as [H0 H1].
  apply IZR_le in H0. apply IZR_lt in H1. lra.
Qed.

Lemma generate_two_layers_records_witness :
  let layers :=
    fst (generate_two_layers demo_seed demo_config (Some 42%Z)
                             400.0 0.01 2.5 (demo_seed 0)) in
  let uniform :=
    fst (generate_uniform demo_seed demo_config (Some 42%Z) 0.01
                          (demo_seed 0)) in
  length layers = Z.to_nat (scatterers_count demo_config)
  /\ map position layers = map position uniform
  /\ forall k, (k < Z.to_nat (scatterers_count demo_config))%nat ->
       match nth k layers (0, 0, 0, 0) with
       | (x, y, z, a) =>
           - (x_max demo_config / 2) <= x <= x_max demo_config / 2
           /\ - beam_radius demo_config <= y <= beam_radius demo_config
           /\ 0 <= z < z_max demo_config
           /\ (z > 400.0 -> a = 2.5)
           /\ (z <= 400.0 -> a = 0.01)
       end.
Proof.
  apply (generate_two_layers_records demo_seed demo_config (Some 42%Z)
           400.0 0.01 2.5 (demo_seed 0)).
  - apply demo_seed_range.
  - apply demo_seed_range.
  - simpl. lra.
  - simpl. lra.
  - simpl. lra.
Defined.

(** ** The local variance is never negative in exact arithmetic *)

Lemma Rsum_cross_le (a : R) (l : list R) :
  2 * a * Rsum l <= Rsum (map (fun x => x ^ 2) l) + INR (length l) * a ^ 2.
Proof.
  unfold Rsum. induction l as [|x l IH].
  - simpl. lra.
  - change (length (x :: l)) with (S (length l)). rewrite S_INR.
    cbn [fold_right map].
    assert (Hx : 0 <= (x - a) ^ 2) by (apply pow2_ge_0).
    set (S1 := fold_right Rplus 0 l) in *.
    set (S2 := fold_right Rplus 0 (map (fun x => x ^ 2) l)) in *.
    set (n := INR (length l)) in *.
    cbv beta. nra.
Qed.

Lemma Rsum_sq_le (l : list R) :
  Rsum l ^ 2 <= INR (length l) * Rsum (map (fun x => x ^ 2) l).
Proof.
  induction l as [|x l IH].
  - unfold Rsum. simpl. lra.
  - pose proof (Rsum_cross_le x l) as Hc.
    change (length (x :: l)) with (S (length l)). rewrite S_INR.
    unfold Rsum in *. cbn [fold_right map].
    set (S1 := fold_right Rplus 0 l) in *.
    set (S2 := fold_right Rplus 0 (map (fun x => x ^ 2) l)) in *.
    set (n := INR (length l)) in *.
    cbv beta. nra.
Qed.

Lemma window_mean_jensen (size n : nat) (f : nat -> R) (i : nat) :
  (1 <= size)%nat ->
  window_mean size n f i ^ 2 <= window_mean size n (fun k => f k ^ 2) i.
Proof.
  intros Hs. unfold window_mean.
  set (l := map (fun t => f (reflect_index n
                  (Z.of_nat i - Z.of_nat (size / 2) + Z.of_nat t)))
                (seq 0 size)).
  assert (El : map (fun t => f (reflect_index n
                  (Z.of_nat i - Z.of_nat (size / 2) + Z.of_nat t)) ^ 2)
                (seq 0 size) = map (fun x => x ^ 2) l).
  { unfold l. now rewrite map_map. }
  rewrite El.
  pose proof (Rsum_sq_le l) as Hq.
  assert (Hlen : length l = size) by (unfold l; now rewrite length_map, length_seq).
  rewrite Hlen in Hq.
  assert (Hn : 0 < INR size) by (apply lt_0_INR; lia).
  set (S1 := Rsum l) in *. set (S2 := Rsum (map (fun x => x ^ 2) l)) in *.
  apply (Rmult_le_reg_r (INR size * INR size)).
  - now apply Rmult_lt_0_compat.
  - replace ((S1 / INR size) ^ 2 * (INR size * INR size)) with (S1 ^ 2)
      by (field; lra).
    replace (S2 / INR size * (INR size * INR size)) with (INR size * S2)
      by (field; lra).
    exact Hq.
Qed.

Lemma Rsum_map_minus {A : Type} (g f : A -> R) (l : list A) :
  Rsum (map (fun t => g t - f t) l) = Rsum (map g l) - Rsum (map f l).
Proof.
  unfold Rsum. induction l as [|x l IH]; simpl; [lra|]. rewrite IH. lra.
Qed.

Lemma window_mean_mono_in (size n : nat) (f g : nat -> R) (i : nat) :
  (0 < n)%nat -> (forall k, (k < n)%nat -> f k <= g k) ->
  window_mean size n f i <= window_mean size n g i.
Proof.
  intros Hn H.
  assert (Hd : 0 <= window_mean size n (fun k => g k - f k) i).
  { apply window_mean_nonneg; [exact Hn|]. intros k Hk.
    specialize (H k Hk). lra. }
  assert (E : window_mean size n (fun k => g k - f k) i
              = window_mean size n g i - window_mean size n f i).
  { unfold window_mean.
    rewrite (Rsum_map_minus
               (fun t => g (reflect_index n
                  (Z.of_nat i - Z.of_nat (size / 2) + Z.of_nat t)))
               (fun t => f (reflect_index n
                  (Z.of_nat i - Z.of_nat (size / 2) + Z.of_nat t)))).
    unfold Rdiv. ring. }
  lra.
Qed.

Lemma window_mean_ext_in (size n : nat) (f g : nat -> R) (i : nat) :
  (0 < n)%nat -> (forall k, (k < n)%nat -> f k = g k) ->
  window_mean size n f i = window_mean size n g i.
Proof.
  intros Hn H. unfold window_mean. f_equal. f_equal.
  apply map_ext. intros t. apply H. now apply reflect_index_lt.
Qed.

Lemma uniform_filter_get (W : nat) (a : image) (size i j : nat) :
  Forall (fun r => length r = W) a ->
  (1 < size)%nat -> (i < length a)%nat -> (j < W)%nat ->
  get (uniform_filter a size) i j
  = window_mean size W
      (fun k => window_mean size (length a) (fun k' => get a k' k) i) j.
Proof.
  intros Hrows Hs Hi Hj. unfold uniform_filter.
  destruct (Nat.leb_spec size 1) as [Hs'|_]; [lia|].
  assert (Hw : width a = W).
  { apply rows_of_width; [exact Hrows|]. intros E. rewrite E in Hi.
    simpl in Hi. lia. }
  assert (Hrow0 : length (nth i (uniform_filter_axis0 size a) []) = W).
  { rewrite <- Hw. apply rows_nth; [apply uniform_filter_axis0_rows|].
    now rewrite uniform_filter_axis0_length. }
  rewrite uniform_filter_axis1_get
    by (rewrite ?uniform_filter_axis0_length, ?Hrow0; assumption).
  rewrite Hrow0. apply window_mean_ext_in; [lia|].
  intros k Hk. apply uniform_filter_axis0_get; [exact Hi|now rewrite Hw].
Qed.

(** X29. In exact arithmetic the windowed mean of the squares is never
    below the square of the windowed mean, so the clamp of negative
    variances changes nothing: the local standard deviation is the square
    root of [E[X^2] - E[X]^2] itself. *)
Theorem local_variance_nonneg (data : image) (w i j : nat) :
  rectangular data ->
  (i < height data)%nat -> (j < width data)%nat ->
  0 <= get (uniform_filter (img_map (fun x => x ^ 2) data) w) i j
       - get (uniform_filter data w) i j ^ 2
  /\ get (sc_std_val data w) i j
     = sqrt (get (uniform_filter (img_map (fun x => x ^ 2) data) w) i j
             - get (uniform_filter data w) i j ^ 2).
Proof.
  intros Hrect Hi Hj. unfold height in Hi.
  assert (Hvar : 0 <= get (uniform_filter (img_map (fun x => x ^ 2) data) w) i j
                      - get (uniform_filter data w) i j ^ 2).
  { destruct (Nat.leb_spec w 1) as [Hs|Hs].
    - unfold uniform_filter.
      destruct (Nat.leb_spec w 1) as [_|Hs']; [|lia].
      rewrite get_img_map by (try exact Hi; now rewrite (rows_nth (width data))).
      lra.
    - rewrite (uniform_filter_get (width data))
        by (try apply img_map_rows; try rewrite img_map_length; assumption).
      rewrite (uniform_filter_get (width data)) by assumption.
      rewrite img_map_length.
      set (col := fun k => window_mean w (length data)
                             (fun k' => get data k' k) i).
      assert (H1 : window_mean w (width data) col j ^ 2
                   <= window_mean w (width data) (fun k => col k ^ 2) j).
      { apply window_mean_jensen. lia. }
      assert (H2 : window_mean w (width data) (fun k => col k ^ 2) j
                   <= window_mean w (width data)
                        (fun k => window_mean w (length data)
                                    (fun k' => get (img_map (fun x => x ^ 2)
                                                            data) k' k) i) j).
      { apply window_mean_mono_in; [lia|]. intros k Hk. unfold col.
        eapply Rle_trans; [apply window_mean_jensen; lia|].
        apply Req_le. apply window_mean_ext_in; [lia|].
        intros k' Hk'. symmetry. apply get_img_map; [exact Hk'|].
        now rewrite (rows_nth (width data)). }
      lra. }
  split; [exact Hvar|].
  rewrite (sc_std_val_get (width data)) by assumption.
  f_equal. unfold clamp_negative.
  destruct (Rlt_dec _ 0); [lra|reflexivity].
Qed.

Lemma local_variance_nonneg_witness :
  0 <= get (uniform_filter (img_map (fun x => x ^ 2) striped3) 2) 1 1
       - get (uniform_filter striped3 2) 1 1 ^ 2
  /\ get (sc_std_val striped3 2) 1 1
     = sqrt (get (uniform_filter (img_map (fun x => x ^ 2) striped3) 2) 1 1
             - get (uniform_filter striped3 2) 1 1 ^ 2).
Proof.
  apply (local_variance_nonneg striped3 2 1 1).
  - exact striped3_rectangular.
  - simpl. lia.
  - simpl. lia.
Defined.
